(** * Self-healing observability core: a shallow embedding and its properties

    The development follows the JavaScript sources of the system-agents
    subsystem: [utils/helpers.js] (RateLimiter, CircuitBreaker, retry, the
    statistics), [shared/EventBus.js] (EventBus, AlertManager),
    [shared/MetricsStore.js], and the Monitor, Diagnostic, Repair, Learning
    and Security agents.

    Conventions of the embedding
    - wall-clock readings ([Date.now()], [new Date()]) and fresh identifiers
      ([generateId()]) are explicit arguments of the operation that reads them;
    - finite JavaScript numbers are rationals ([Q]) and are compared as
      such; where the code computes statistics from them, the rounding
      operations are parameters ([Helpers.Arithmetic]); counters are [N] or
      [Z];
    - a [Map] whose iteration order is observed is an association list in
      insertion order, any other [Map] is a [gmap];
    - a thrown exception is an explicit result constructor. *)

From Stdlib Require Import ZArith QArith Qround Qpower Lia Lqa Ascii Sorted.
From stdpp Require Import gmap strings list pretty.

Local Open Scope Z_scope.

(** ** utils/helpers.js : RateLimiter *)

Module RateLimiter.

Record t : Type := mk
  { maxRequests : Z;
    windowMs : Z;
    requests : gmap string (list Z) }.

(** [new RateLimiter(maxRequests, windowMs)] *)
Definition new (maxReq window : Z) : t :=
  {| maxRequests := maxReq; windowMs := window; requests := ∅ |}.

(** [keyRequests.filter(time => time > windowStart)] *)
Definition recent (windowStart : Z) (times : list Z) : list Z :=
  filter (λ time, windowStart < time) times.

(** [isAllowed(key)], with [now] the value read from [Date.now()]. *)
Definition isAllowed (rl : t) (key : string) (now : Z) : bool * t :=
  let windowStart := now - windowMs rl in
  let keyRequests := default [] (requests rl !! key) in
  let keyRequests := recent windowStart keyRequests in
  if bool_decide (maxRequests rl ≤ Z.of_nat (length keyRequests)) then
    (false, rl)
  else
    (true, {| maxRequests := maxRequests rl;
              windowMs := windowMs rl;
              requests := <[key := keyRequests ++ [now]]> (requests rl) |}).

(** [reset(key)] *)
Definition reset (rl : t) (key : string) : t :=
  {| maxRequests := maxRequests rl;
     windowMs := windowMs rl;
     requests := delete key (requests rl) |}.

(** [cleanup()]: every key keeps its timestamps inside the window, a key
    left with none is deleted. *)
Definition cleanup (rl : t) (now : Z) : t :=
  let windowStart := now - windowMs rl in
  {| maxRequests := maxRequests rl;
     windowMs := windowMs rl;
     requests :=
       omap (λ reqs, match recent windowStart reqs with
                     | [] => None
                     | valid => Some valid
                     end) (requests rl) |}.

(** The timestamps currently stored for [key]. *)
Definition stored (rl : t) (key : string) : list Z :=
  default [] (requests rl !! key).

(** One call on the limiter, with the clock reading it makes. *)
Inductive op : Type :=
| IsAllowed (key : string) (now : Z)
| Cleanup (now : Z).

Definition op_time (o : op) : Z :=
  match o with IsAllowed _ now => now | Cleanup now => now end.

Definition step (rl : t) (o : op) : t :=
  match o with
  | IsAllowed k now => (isAllowed rl k now).2
  | Cleanup now => cleanup rl now
  end.

(** The state after a run of calls. *)
Definition after (rl : t) (ops : list op) : t := foldl step rl ops.

(** [grants rl ops key] collects the clock readings of the [isAllowed]
    calls on [key] that returned [true] during the run [ops]. *)
Fixpoint grants (rl : t) (ops : list op) (key : string) : list Z :=
  match ops with
  | [] => []
  | o :: rest =>
      match o with
      | IsAllowed k now =>
          if bool_decide (k = key) && (isAllowed rl k now).1 then [now] else []
      | Cleanup _ => []
      end ++ grants (step rl o) rest key
  end.

(** Clock readings never go back: each call reads a time at or after the
    previous one, starting from [t0]. *)
Fixpoint clock_from (t0 : Z) (ops : list op) : Prop :=
  match ops with
  | [] => True
  | o :: rest => t0 ≤ op_time o ∧ clock_from (op_time o) rest
  end.

(** The run with its [cleanup()] calls left out. *)
Definition is_call (o : op) : bool :=
  match o with IsAllowed _ _ => true | Cleanup _ => false end.

Definition calls_only (ops : list op) : list op :=
  filter (λ o, is_call o = true) ops.

(** Number of timestamps inside the window of [w] milliseconds that ends
    at [t], that is the half-open interval (t - w, t]. *)
Definition inWindow (w t : Z) (times : list Z) : nat :=
  length (filter (λ g, t - w < g ∧ g ≤ t) times).

(** What the stored timestamps of [key] know about the grants [G] made so
    far, the last clock reading being [T]. *)
Definition tracks (rl : t) (key : string) (G : list Z) (T : Z) : Prop :=
  (∀ n, T ≤ n →
     recent (n - windowMs rl) (stored rl key) = recent (n - windowMs rl) G)
  ∧ Forall (λ g, g ≤ T) G.

Definition bounded (rl : t) (G : list Z) : Prop :=
  ∀ t, Z.of_nat (inWindow (windowMs rl) t G) ≤ maxRequests rl.

(** Two limiters that answer alike from clock reading [T] on. *)
Definition alike (T : Z) (rl1 rl2 : t) : Prop :=
  maxRequests rl1 = maxRequests rl2
  ∧ windowMs rl1 = windowMs rl2
  ∧ ∀ k n, T ≤ n →
      recent (n - windowMs rl1) (stored rl1 k) = recent (n - windowMs rl1) (stored rl2 k).

(** A run used to exercise the limiter: three calls in quick succession,
    a cleanup, and a call after the window of the first two has passed. *)
Definition sample_run : list op :=
  [IsAllowed "10.0.0.1" 0; IsAllowed "10.0.0.1" 1; IsAllowed "10.0.0.1" 2;
   Cleanup 5; IsAllowed "10.0.0.1" 11].

End RateLimiter.

(** ** config.js *)

Module Config.

(** [config.severity] *)
Inductive Severity : Type := CRITICAL | HIGH | MEDIUM | LOW | INFO.

#[export] Instance Severity_eq_dec : EqDecision Severity.
Proof. solve_decision. Defined.

Definition severity_string (s : Severity) : string :=
  match s with
  | CRITICAL => "critical" | HIGH => "high" | MEDIUM => "medium"
  | LOW => "low" | INFO => "info"
  end.

(** [config.alertTypes]: each name is bound to the string of the same
    spelling. *)
Module alertTypes.
Definition API_SLOW : string := "API_SLOW".
Definition API_DOWN : string := "API_DOWN".
Definition API_ERROR_RATE : string := "API_ERROR_RATE".
Definition DB_SLOW : string := "DB_SLOW".
Definition DB_CONNECTION_ERROR : string := "DB_CONNECTION_ERROR".
Definition DB_POOL_EXHAUSTED : string := "DB_POOL_EXHAUSTED".
Definition MEMORY_HIGH : string := "MEMORY_HIGH".
Definition CPU_HIGH : string := "CPU_HIGH".
Definition REDIS_SLOW : string := "REDIS_SLOW".
Definition REDIS_DOWN : string := "REDIS_DOWN".
Definition EMAIL_PROVIDER_DOWN : string := "EMAIL_PROVIDER_DOWN".
Definition EXTERNAL_API_DOWN : string := "EXTERNAL_API_DOWN".
Definition SECURITY_THREAT : string := "SECURITY_THREAT".
Definition BRUTE_FORCE : string := "BRUTE_FORCE".
Definition SQL_INJECTION : string := "SQL_INJECTION".
End alertTypes.

(** The settings the modelled code reads. Every one of them is read from
    the environment with a default, so they are fields of a record and
    [defaults] holds the defaults of config.js. *)
Record t : Type := mk
  { api_responseTime : Z;            (* thresholds.api.responseTime, ms *)
    api_timeout : Z;                 (* thresholds.api.timeout, ms *)
    database_queryTime : Z;          (* thresholds.database.queryTime, ms *)
    redis_responseTime : Z;          (* thresholds.redis.responseTime, ms *)
    monitor_endpoints : list string; (* agents.monitor.endpoints *)
    monitor_externalServices : list (string * Z); (* name, timeout *)
    diagnostic_confidenceThreshold : Q;
    learning_minSuccessRate : Q;
    learning_minOccurrences : Z;
    learning_patternExpiry : Z;      (* days *)
    security_maxFailedLogins : Z;
    security_lockoutDuration : Z;    (* ms *)
    security_ipBlockDuration : Z     (* ms *) }.

Definition defaults : t :=
  {| api_responseTime := 500;
     api_timeout := 10000;
     database_queryTime := 100;
     redis_responseTime := 50;
     monitor_endpoints := ["/health"; "/api/v1/health"];
     monitor_externalServices := [("OpenAI", 5000); ("Anthropic", 5000); ("SendGrid", 5000)];
     diagnostic_confidenceThreshold := 8 # 10;
     learning_minSuccessRate := 95 # 100;
     learning_minOccurrences := 3;
     learning_patternExpiry := 90;
     security_maxFailedLogins := 5;
     security_lockoutDuration := 3600000;
     security_ipBlockDuration := 86400000 |}.

End Config.

(** ** JavaScript truthiness of the values the code tests with [||] and [&&] *)

Module Js.

(** [s || d] for a string-valued property that may be missing: a missing
    property and the empty string are both falsy. *)
Definition str_or (o : option string) (d : string) : string :=
  match o with
  | Some s => if bool_decide (s = "") then d else s
  | None => d
  end.

(** Truthiness of a number-valued property that may be missing: [undefined]
    and [0] are falsy. *)
Definition num_truthy (o : option Q) : bool :=
  match o with
  | Some q => negb (Qeq_bool q 0)
  | None => false
  end.

(** A result that is either a value or a thrown [Error(message)]. *)
Inductive result (A : Type) : Type :=
| Ok (a : A)
| Throw (message : string).
Arguments Ok {A} a.
Arguments Throw {A} message.

End Js.

(** ** shared/EventBus.js : EventBus

    The bus extends Node's [EventEmitter]. Of that class the model keeps what
    the bus relies on: [on] appends a listener to the list of its channel,
    [off] removes the most recently added listener that is the same function,
    and [emit] calls the listeners of the channel one after the other in the
    order they were added, inside the caller's stack, so that an exception
    thrown by a listener leaves [emit] at once. *)

Module EventBus.

Section Bus.

(** [Payload] is what is published, [W] the state the handlers act on. *)
Context {Payload W : Type}.

(** [data.source] *)
Variable source_of : Payload → option string.

Record Event : Type := mkEvent
  { ev_id : string;
    ev_channel : string;
    ev_data : Payload;
    ev_timestamp : Z;
    ev_source : string }.

(** How a call of a handler ends. *)
Inductive Completion : Type :=
| Returned (w : W)
| Threw (w : W) (message : string).

(** A handler as passed to [subscribe]: the function object (named, since
    [off] compares functions by identity), whether it is declared [async],
    and what its body does. *)
Record Handler : Type := mkHandler
  { fn_id : string;
    is_async : bool;
    body : Event → Z → W → Completion }.

(** Calling a handler: an [async] function returns a promise and never throws
    into its caller, any other function throws into its caller. [now] is the
    clock reading of the synchronous call. *)
Definition call (h : Handler) (ev : Event) (now : Z) (w : W) : Completion :=
  match body h ev now w with
  | Returned w' => Returned w'
  | Threw w' m => if is_async h then Returned w' else Threw w' m
  end.

Record Subscription : Type := mkSubscription
  { sub_channel : string;
    sub_handler : Handler;
    sub_agentName : string;
    sub_createdAt : Z }.

Record t : Type := mk
  { subscriptions : list (string * Subscription); (* Map, in insertion order *)
    listeners : list (string * Handler);          (* (channel, listener), in the order of [on] *)
    eventHistory : list Event;
    maxHistorySize : nat }.

Definition new : t :=
  {| subscriptions := []; listeners := []; eventHistory := [];
     maxHistorySize := 1000 |}.

Definition listeners_of (bus : t) (channel : string) : list Handler :=
  (filter (λ cl, cl.1 = channel) (listeners bus)).*2.

(** The loop of [emit] over the listeners of the channel. *)
Fixpoint run_listeners (ls : list Handler) (ev : Event) (now : Z) (w : W)
  : Completion :=
  match ls with
  | [] => Returned w
  | h :: rest =>
      match call h ev now w with
      | Returned w' => run_listeners rest ev now w'
      | Threw w' m => Threw w' m
      end
  end.

(** [this.emit(channel, event)]; an ["error"] event without a listener is
    thrown by [EventEmitter]. *)
Definition emit (bus : t) (channel : string) (ev : Event) (now : Z) (w : W)
  : Completion :=
  match listeners_of bus channel with
  | [] => if bool_decide (channel = "error") then Threw w "Unhandled error." else Returned w
  | ls => run_listeners ls ev now w
  end.

(** The handlers that the loop of [emit] calls, by name and in order. *)
Fixpoint called (ls : list Handler) (ev : Event) (now : Z) (w : W) : list string :=
  match ls with
  | [] => []
  | h :: rest =>
      fn_id h ::
      match call h ev now w with
      | Returned w' => called rest ev now w'
      | Threw _ _ => []
      end
  end.

(** [publish(channel, data)], [id] being the identifier drawn by
    [generateId()] and [now] the clock reading. The mirror to Redis (lines
    70-76) catches its own failure and touches nothing of the local state. *)
Definition publish (bus : t) (w : W) (channel : string) (data : Payload)
    (id : string) (now : Z) : t * W * Js.result Event :=
  let event :=
    {| ev_id := id; ev_channel := channel; ev_data := data; ev_timestamp := now;
       ev_source := Js.str_or (source_of data) "unknown" |} in
  let history := eventHistory bus ++ [event] in
  let history :=
    if bool_decide (maxHistorySize bus < length history)%nat then tail history
    else history in
  let bus' :=
    {| subscriptions := subscriptions bus; listeners := listeners bus;
       eventHistory := history; maxHistorySize := maxHistorySize bus |} in
  match emit bus' channel event now w with
  | Returned w' => (bus', w', Js.Ok event)
  | Threw w' m => (bus', w', Js.Throw m)
  end.

(** [Map.prototype.set] on an insertion-ordered map. *)
Fixpoint map_set {V : Type} (m : list (string * V)) (k : string) (v : V)
  : list (string * V) :=
  match m with
  | [] => [(k, v)]
  | (k', v') :: rest =>
      if bool_decide (k' = k) then (k, v) :: rest else (k', v') :: map_set rest k v
  end.

Fixpoint map_get {V : Type} (m : list (string * V)) (k : string) : option V :=
  match m with
  | [] => None
  | (k', v) :: rest => if bool_decide (k' = k) then Some v else map_get rest k
  end.

Definition map_delete {V : Type} (m : list (string * V)) (k : string)
  : list (string * V) :=
  filter (λ kv, kv.1 ≠ k) m.

(** [subscribe(channel, handler, agentName)] *)
Definition subscribe (bus : t) (channel : string) (handler : Handler)
    (agentName : string) (subscriptionId : string) (now : Z) : t * string :=
  ({| subscriptions :=
        map_set (subscriptions bus) subscriptionId
          {| sub_channel := channel; sub_handler := handler;
             sub_agentName := agentName; sub_createdAt := now |};
      listeners := listeners bus ++ [(channel, handler)];
      eventHistory := eventHistory bus;
      maxHistorySize := maxHistorySize bus |},
   subscriptionId).

(** [this.off(channel, handler)]: the last listener of the channel that is
    this function goes. *)
Fixpoint remove_first (channel fn : string) (ls : list (string * Handler))
  : list (string * Handler) :=
  match ls with
  | [] => []
  | (c, h) :: rest =>
      if bool_decide (c = channel) && bool_decide (fn_id h = fn) then rest
      else (c, h) :: remove_first channel fn rest
  end.

Definition off (ls : list (string * Handler)) (channel : string) (h : Handler)
  : list (string * Handler) :=
  reverse (remove_first channel (fn_id h) (reverse ls)).

(** [unsubscribe(subscriptionId)] *)
Definition unsubscribe (bus : t) (subscriptionId : string) : t * bool :=
  match map_get (subscriptions bus) subscriptionId with
  | None => (bus, false)
  | Some sub =>
      ({| subscriptions := map_delete (subscriptions bus) subscriptionId;
          listeners := off (listeners bus) (sub_channel sub) (sub_handler sub);
          eventHistory := eventHistory bus;
          maxHistorySize := maxHistorySize bus |},
       true)
  end.

(** The callback that [subscribe] registers with the Redis subscriber (lines
    103-110) runs the handler inside its own [try]/[catch]. *)
Definition on_redis_message (h : Handler) (ev : Event) (now : Z) (w : W) : W :=
  match body h ev now w with
  | Returned w' => w'
  | Threw w' _ => w'
  end.

End Bus.

Arguments Event : clear implicits.
Arguments Completion : clear implicits.
Arguments Handler : clear implicits.
Arguments Subscription : clear implicits.
Arguments t : clear implicits.

(** Two plain (not [async]) handlers over a log of received event ids, of
    the kind routes/websocket.js subscribes: one throws, one records. *)
Definition throwing : Handler string (list string) :=
  {| fn_id := "throwing"; is_async := false;
     body := λ ev now w, Threw w "boom" |}.

Definition recording : Handler string (list string) :=
  {| fn_id := "recording"; is_async := false;
     body := λ ev now w, Returned (w ++ [ev_id ev]) |}.

(** Both subscribed to the alert channel, the throwing one first. *)
Definition two_subscribers : t string (list string) :=
  (subscribe (subscribe new "alert" throwing "A" "sub-1" 0).1
     "alert" recording "B" "sub-2" 0).1.

(** [CHANNELS] *)
Module CHANNELS.
Definition ALERT : string := "alert".
Definition METRIC : string := "metric".
Definition DIAGNOSIS : string := "diagnosis".
Definition REPAIR_REQUEST : string := "repair-request".
Definition REPAIR_COMPLETE : string := "repair-complete".
Definition PATTERN_LEARNED : string := "pattern-learned".
Definition THREAT_DETECTED : string := "threat-detected".
Definition MITIGATION : string := "mitigation".
Definition AGENT_ERROR : string := "agent-error".
End CHANNELS.

End EventBus.

(** ** shared/AlertManager.js : AlertManager *)

Module AlertManager.
Import Config.

(** The [data] argument of [create]. *)
Record AlertData : Type := mkData
  { data_component : option string;
    data_message : option string;
    data_severity : option Severity;
    data_threshold : option Q;
    data_value : option Q;
    data_metadata : list (string * string) }.

(** An alert object. The last six properties are absent from the object
    [create] builds; [processAlert], [acknowledge] and [resolve] add them. *)
Record Alert : Type := mkAlert
  { alert_id : string;
    alert_type : string;
    alert_component : string;
    alert_message : string;
    alert_severity : Severity;
    alert_thresholdValue : option Q;
    alert_actualValue : option Q;
    alert_metadata : list (string * string);
    alert_acknowledged : bool;
    alert_resolved : bool;
    alert_autoResolved : bool;
    alert_createdAt : Z;
    alert_updatedAt : Z;
    alert_count : option Z;
    alert_lastOccurrence : option Z;
    alert_acknowledgedBy : option string;
    alert_acknowledgedAt : option Z;
    alert_resolution : option string;
    alert_resolvedAt : option Z }.

(** The calls issued on [this.db.systemAlert]. A failing call is caught and
    logged by the caller, so only the issuing is recorded. *)
Inductive DbCall : Type :=
| SystemAlertCreate (alert : Alert)
| SystemAlertAcknowledge (id : string) (acknowledgedBy : option string)
| SystemAlertResolve (id : string) (autoResolved : bool) (resolvedAt : Z).

Record Notification : Type := mkNotification
  { note_alert : string; (* the queued alert object, by its id *)
    note_attempts : nat;
    note_queuedAt : Z }.

Record t : Type := mk
  { alerts : list (string * Alert);   (* Map id -> alert, in insertion order *)
    db : option (list DbCall);        (* [None] when [this.db] is not set *)
    notificationQueue : list Notification }.

(** [new AlertManager()] *)
Definition new : t := {| alerts := []; db := None; notificationQueue := [] |}.

(** What is published on the alert channel: the object [create] publishes,
    or any other object, of which the properties read downstream are kept. *)
Inductive Payload : Type :=
| AlertPublished (source : string) (alert : Alert)   (* { source, alert } *)
| OtherObject (source type component : option string).

Definition source_of (p : Payload) : option string :=
  match p with AlertPublished s _ => Some s | OtherObject s _ _ => s end.

(** [alertData.type] and [alertData.component] *)
Definition payload_type (p : Payload) : option string :=
  match p with AlertPublished _ _ => None | OtherObject _ ty _ => ty end.

Definition payload_component (p : Payload) : option string :=
  match p with AlertPublished _ _ => None | OtherObject _ _ c => c end.

Definition set_alerts (am : t) (m : list (string * Alert)) : t :=
  {| alerts := m; db := db am; notificationQueue := notificationQueue am |}.

Definition db_call (am : t) (c : DbCall) : t :=
  {| alerts := alerts am;
     db := (λ calls, calls ++ [c]) <$> db am;
     notificationQueue := notificationQueue am |}.

(** [determineSeverity(alertType, data)] *)
Definition criticalTypes : list string :=
  [alertTypes.API_DOWN; alertTypes.DB_CONNECTION_ERROR;
   alertTypes.SECURITY_THREAT; alertTypes.SQL_INJECTION].

Definition highTypes : list string :=
  [alertTypes.API_ERROR_RATE; alertTypes.DB_POOL_EXHAUSTED;
   alertTypes.BRUTE_FORCE; alertTypes.EMAIL_PROVIDER_DOWN].

Definition includes (l : list string) (s : string) : bool :=
  bool_decide (s ∈ l).

Definition determineSeverity (alertType : string) (data : AlertData) : Severity :=
  if includes criticalTypes alertType then CRITICAL
  else if includes highTypes alertType then HIGH
  else
    match data_value data, data_threshold data with
    | Some value, Some threshold =>
        if Js.num_truthy (Some value) && Js.num_truthy (Some threshold) then
          let ratio := (value / threshold)%Q in
          if Qlt_le_dec 2 ratio then CRITICAL
          else if Qlt_le_dec (3 # 2) ratio then HIGH
          else if Qlt_le_dec 1 ratio then MEDIUM
          else LOW
        else LOW
    | _, _ => LOW
    end.

(** The priority table as the specification words it: the types hard-coded
    as critical or high come first; otherwise, with [ratio] the actual value
    divided by the threshold, above 2 is critical, above 1.5 high, above 1
    medium, and every other case is low. There is a ratio when both numbers
    are given and the threshold is not zero. *)
Definition ratio (data : AlertData) : option Q :=
  match data_value data, data_threshold data with
  | Some value, Some threshold =>
      if Qeq_bool threshold 0 then None else Some (value / threshold)%Q
  | _, _ => None
  end.

Definition severityTable (alertType : string) (data : AlertData) : Severity :=
  if includes criticalTypes alertType then CRITICAL
  else if includes highTypes alertType then HIGH
  else
    match ratio data with
    | Some r =>
        if Qlt_le_dec 2 r then CRITICAL
        else if Qlt_le_dec (3 # 2) r then HIGH
        else if Qlt_le_dec 1 r then MEDIUM
        else LOW
    | None => LOW
    end.

(** The loop of [findRelatedAlert(alertData)] over the map. *)
Definition related (alertData : Payload) (alert : Alert) : bool :=
  bool_decide (Some (alert_type alert) = payload_type alertData)
  && bool_decide (Some (alert_component alert) = payload_component alertData)
  && negb (alert_resolved alert).

Fixpoint findRelatedAlert (m : list (string * Alert)) (alertData : Payload)
  : option Alert :=
  match m with
  | [] => None
  | (_, alert) :: rest =>
      if related alertData alert then Some alert else findRelatedAlert rest alertData
  end.

(** [existingAlert.count || 1] *)
Definition count_or_1 (c : option Z) : Z :=
  match c with
  | Some n => if bool_decide (n = 0) then 1 else n
  | None => 1
  end.

(** The assignments [processAlert] makes to the alert it found. *)
Definition bump (now : Z) (existingAlert : Alert) : Alert :=
  {| alert_id := alert_id existingAlert;
     alert_type := alert_type existingAlert;
     alert_component := alert_component existingAlert;
     alert_message := alert_message existingAlert;
     alert_severity := alert_severity existingAlert;
     alert_thresholdValue := alert_thresholdValue existingAlert;
     alert_actualValue := alert_actualValue existingAlert;
     alert_metadata := alert_metadata existingAlert;
     alert_acknowledged := alert_acknowledged existingAlert;
     alert_resolved := alert_resolved existingAlert;
     alert_autoResolved := alert_autoResolved existingAlert;
     alert_createdAt := alert_createdAt existingAlert;
     alert_updatedAt := now;
     alert_count := Some (count_or_1 (alert_count existingAlert) + 1);
     alert_lastOccurrence := Some now;
     alert_acknowledgedBy := alert_acknowledgedBy existingAlert;
     alert_acknowledgedAt := alert_acknowledgedAt existingAlert;
     alert_resolution := alert_resolution existingAlert;
     alert_resolvedAt := alert_resolvedAt existingAlert |}.

(** The found alert is an object of the map and is changed in place. *)
Fixpoint update_related (m : list (string * Alert)) (alertData : Payload)
    (f : Alert → Alert) : list (string * Alert) :=
  match m with
  | [] => []
  | (k, alert) :: rest =>
      if related alertData alert then (k, f alert) :: rest
      else (k, alert) :: update_related rest alertData f
  end.

(** [processAlert(alertData)]: the store after the call and the alert it
    returns, when that is an alert of the store. *)
Definition processAlert (am : t) (alertData : Payload) (now : Z)
  : t * option Alert :=
  match findRelatedAlert (alerts am) alertData with
  | Some existingAlert =>
      if negb (alert_resolved existingAlert) then
        (set_alerts am (update_related (alerts am) alertData (bump now)),
         Some (bump now existingAlert))
      else (am, None)
  | None => (am, None)
  end.

(** [handleIncomingAlert(event)], the handler [initialize] subscribes to the
    alert channel; it is an [async] method. *)
Definition handleIncomingAlert : EventBus.Handler Payload t :=
  {| EventBus.fn_id := "AlertManager.handleIncomingAlert";
     EventBus.is_async := true;
     EventBus.body := λ event now am,
       EventBus.Returned (processAlert am (EventBus.ev_data event) now).1 |}.

(** [initialize({ db })] *)
Definition initialize (bus : EventBus.t Payload t) (am : t)
    (database : option (list DbCall)) (subscriptionId : string) (now : Z)
  : EventBus.t Payload t * t :=
  ((EventBus.subscribe bus EventBus.CHANNELS.ALERT handleIncomingAlert
      "AlertManager" subscriptionId now).1,
   {| alerts := alerts am; db := database;
      notificationQueue := notificationQueue am |}).

(** [queueNotification(alert)] *)
Definition queueNotification (am : t) (alert : Alert) (now : Z) : t :=
  {| alerts := alerts am; db := db am;
     notificationQueue :=
       notificationQueue am
       ++ [{| note_alert := alert_id alert; note_attempts := 0;
              note_queuedAt := now |}] |}.

(** The severity [create] gives the alert: [data.severity ||
    this.determineSeverity(alertType, data)]. *)
Definition assignedSeverity (alertType : string) (data : AlertData) : Severity :=
  match data_severity data with
  | Some s => s
  | None => determineSeverity alertType data
  end.

(** The object built at the head of [create]. *)
Definition newAlert (alertType : string) (data : AlertData) (id : string)
    (now : Z) : Alert :=
  {| alert_id := id;
     alert_type := alertType;
     alert_component := Js.str_or (data_component data) "system";
     alert_message := Js.str_or (data_message data) ("Alert: " +:+ alertType);
     alert_severity := assignedSeverity alertType data;
     alert_thresholdValue := data_threshold data;
     alert_actualValue := data_value data;
     alert_metadata := data_metadata data;
     alert_acknowledged := false;
     alert_resolved := false;
     alert_autoResolved := false;
     alert_createdAt := now;
     alert_updatedAt := now;
     alert_count := None;
     alert_lastOccurrence := None;
     alert_acknowledgedBy := None;
     alert_acknowledgedAt := None;
     alert_resolution := None;
     alert_resolvedAt := None |}.

(** [create(alertType, data)]: [id] and [eventId] are the identifiers drawn
    for the alert and for the published event. The method stores the alert,
    writes it to the database, publishes it, queues its notification and
    returns the alert object (the stored one: handlers share it). *)
Definition create (bus : EventBus.t Payload t) (am : t) (alertType : string)
    (data : AlertData) (id eventId : string) (now : Z)
  : EventBus.t Payload t * t * Js.result Alert :=
  let alert := newAlert alertType data id now in
  let am := set_alerts am (EventBus.map_set (alerts am) id alert) in
  let am := db_call am (SystemAlertCreate alert) in
  match EventBus.publish source_of bus am EventBus.CHANNELS.ALERT
          (AlertPublished "AlertManager" alert) eventId now with
  | (bus', am', Js.Ok _) =>
      let alert' := default alert (EventBus.map_get (alerts am') id) in
      (bus', queueNotification am' alert' now, Js.Ok alert')
  | (bus', am', Js.Throw m) => (bus', am', Js.Throw m)
  end.

(** [acknowledge(alertId, userId = null)] *)
Definition acknowledged_by (userId : option string) (now : Z) (alert : Alert)
  : Alert :=
  {| alert_id := alert_id alert;
     alert_type := alert_type alert;
     alert_component := alert_component alert;
     alert_message := alert_message alert;
     alert_severity := alert_severity alert;
     alert_thresholdValue := alert_thresholdValue alert;
     alert_actualValue := alert_actualValue alert;
     alert_metadata := alert_metadata alert;
     alert_acknowledged := true;
     alert_resolved := alert_resolved alert;
     alert_autoResolved := alert_autoResolved alert;
     alert_createdAt := alert_createdAt alert;
     alert_updatedAt := now;
     alert_count := alert_count alert;
     alert_lastOccurrence := alert_lastOccurrence alert;
     alert_acknowledgedBy := userId;
     alert_acknowledgedAt := Some now;
     alert_resolution := alert_resolution alert;
     alert_resolvedAt := alert_resolvedAt alert |}.

Definition not_found (alertId : string) : string :=
  "Alert " +:+ alertId +:+ " not found".

Definition acknowledge (am : t) (alertId : string) (userId : option string)
    (now : Z) : t * Js.result Alert :=
  match EventBus.map_get (alerts am) alertId with
  | None => (am, Js.Throw (not_found alertId))
  | Some alert =>
      let alert := acknowledged_by userId now alert in
      let am := set_alerts am (EventBus.map_set (alerts am) alertId alert) in
      let am := db_call am (SystemAlertAcknowledge alertId userId) in
      (am, Js.Ok alert)
  end.

(** The [options] argument of [resolve]; a property left out takes its
    default ([false], the empty string). *)
Record ResolveOptions : Type := mkResolveOptions
  { opt_autoResolved : option bool;
    opt_resolution : option string }.

Definition resolved_with (autoResolved : bool) (resolution : string) (now : Z)
    (alert : Alert) : Alert :=
  {| alert_id := alert_id alert;
     alert_type := alert_type alert;
     alert_component := alert_component alert;
     alert_message := alert_message alert;
     alert_severity := alert_severity alert;
     alert_thresholdValue := alert_thresholdValue alert;
     alert_actualValue := alert_actualValue alert;
     alert_metadata := alert_metadata alert;
     alert_acknowledged := alert_acknowledged alert;
     alert_resolved := true;
     alert_autoResolved := autoResolved;
     alert_createdAt := alert_createdAt alert;
     alert_updatedAt := now;
     alert_count := alert_count alert;
     alert_lastOccurrence := alert_lastOccurrence alert;
     alert_acknowledgedBy := alert_acknowledgedBy alert;
     alert_acknowledgedAt := alert_acknowledgedAt alert;
     alert_resolution := Some resolution;
     alert_resolvedAt := Some now |}.

(** [resolve(alertId, options = {})] *)
Definition resolve (am : t) (alertId : string) (options : ResolveOptions)
    (now : Z) : t * Js.result Alert :=
  let autoResolved := default false (opt_autoResolved options) in
  let resolution := default "" (opt_resolution options) in
  match EventBus.map_get (alerts am) alertId with
  | None => (am, Js.Throw (not_found alertId))
  | Some alert =>
      let alert := resolved_with autoResolved resolution now alert in
      let am := set_alerts am (EventBus.map_set (alerts am) alertId alert) in
      let am := db_call am (SystemAlertResolve alertId autoResolved now) in
      (am, Js.Ok alert)
  end.

(** [getAlert(alertId)] *)
Definition getAlert (am : t) (alertId : string) : option Alert :=
  EventBus.map_get (alerts am) alertId.

(** The unresolved alerts of the store for a pair of type and component. *)
Definition unresolvedOf (am : t) (alertType component : string) : list Alert :=
  filter (λ a, alert_type a = alertType ∧ alert_component a = component
               ∧ alert_resolved a = false) (alerts am).*2.

(** The bus as [initialize] leaves it when nothing else listens to the alert
    channel. *)
Definition initialised (bus : EventBus.t Payload t) : Prop :=
  EventBus.listeners_of bus EventBus.CHANNELS.ALERT = [handleIncomingAlert].

(** The manager as the system starts it: a fresh manager with a database,
    its handler subscribed to a fresh bus. *)
Definition started : EventBus.t Payload t * t :=
  initialize EventBus.new new (Some []) "sub-1" 0.

(** A slow-query alert as the Monitor agent raises it. *)
Definition slowQuery : AlertData :=
  {| data_component := Some "database";
     data_message := Some "Database query slow: 600ms (threshold: 100ms)";
     data_severity := None;
     data_threshold := Some 100%Q;
     data_value := Some 600%Q;
     data_metadata := [] |}.

(** The manager after the first and after the second slow-query alert. *)
Definition createdOnce : EventBus.t Payload t * t :=
  (create started.1 started.2 alertTypes.DB_SLOW slowQuery "a-1" "e-1" 10).1.

Definition createdTwice : EventBus.t Payload t * t :=
  (create createdOnce.1 createdOnce.2 alertTypes.DB_SLOW slowQuery "a-2" "e-2" 20).1.

(** The first alert resolved by a repair, and then resolved once more with
    no option given. *)
Definition resolvedOnce : t :=
  (resolve createdOnce.2 "a-1"
     {| opt_autoResolved := Some true; opt_resolution := Some "index added" |} 30).1.

Definition resolvedTwice : t :=
  (resolve resolvedOnce "a-1"
     {| opt_autoResolved := None; opt_resolution := None |} 40).1.

End AlertManager.

(** ** utils/helpers.js : statistics over arrays of numbers

    A finite JavaScript number is a rational, and comparing two of them
    compares the rationals. Arithmetic on them rounds: each operation
    returns its exact result rounded to binary64. The rounding is not
    modelled. The operations are the fields of an [Arithmetic], and what is
    proved of the statistics holds for whatever the operations return. *)

Module Helpers.
Local Open Scope Q_scope.

Record Arithmetic : Type := mkArithmetic
  { plus : Q → Q → Q;      (* a + b *)
    minus : Q → Q → Q;     (* a - b *)
    times : Q → Q → Q;     (* a * b *)
    over : Q → Q → Q;      (* a / b *)
    pow : Q → Q → Q;       (* Math.pow(a, b) *)
    sqrt : Q → Q           (* Math.sqrt(a) *) }.

(** [average(arr)] *)
Definition average (ar : Arithmetic) (arr : list Q) : Q :=
  match arr with
  | [] => 0
  | _ => over ar (foldl (plus ar) 0 arr) (inject_Z (Z.of_nat (length arr)))
  end.

(** [standardDeviation(arr)] *)
Definition standardDeviation (ar : Arithmetic) (arr : list Q) : Q :=
  match arr with
  | [] => 0
  | _ =>
      let avg := average ar arr in
      let squareDiffs := (λ value, pow ar (minus ar value avg) 2) <$> arr in
      sqrt ar (average ar squareDiffs)
  end.

(** [[...arr].sort((a, b) => a - b)] *)
Fixpoint insert_sorted (x : Q) (sorted : list Q) : list Q :=
  match sorted with
  | [] => [x]
  | y :: rest => if Qle_bool x y then x :: y :: rest else y :: insert_sorted x rest
  end.

Definition sort (arr : list Q) : list Q := foldr insert_sorted [] arr.

(** [percentile(arr, p)] *)
Definition percentile (ar : Arithmetic) (arr : list Q) (p : Q) : Q :=
  match arr with
  | [] => 0
  | _ =>
      let sorted := sort arr in
      let index :=
        times ar (over ar p 100) (inject_Z (Z.of_nat (length sorted) - 1)) in
      let lower := Qfloor index in
      let upper := Qceiling index in
      let weight := minus ar index (inject_Z lower) in
      if bool_decide (Z.of_nat (length sorted) ≤ upper)%Z then
        List.last sorted 0
      else
        plus ar (times ar (nth (Z.to_nat lower) sorted 0) (minus ar 1 weight))
          (times ar (nth (Z.to_nat upper) sorted 0) weight)
  end.

(** Rounding leaves a result that is a number of binary64 as it is. So an
    operation is exact when its exact result is 0, 1 or one of its operands:
    a sum or a difference with 0, a product with 0 or 1, a quotient of 0,
    and the difference and the quotient of a number with itself. *)
Record exactOnUnits (ar : Arithmetic) : Prop := mkExactOnUnits
  { plus_zero_r : ∀ x y, y == 0 → plus ar x y == x;
    minus_zero_r : ∀ x y, y == 0 → minus ar x y == x;
    minus_same : ∀ x y, x == y → minus ar x y == 0;
    times_zero_l : ∀ x y, x == 0 → times ar x y == 0;
    times_zero_r : ∀ x y, y == 0 → times ar x y == 0;
    times_one_l : ∀ x y, x == 1 → times ar x y == y;
    times_one_r : ∀ x y, y == 1 → times ar x y == x;
    over_zero : ∀ x y, x == 0 → ¬ y == 0 → over ar x y == 0;
    over_same : ∀ x y, x == y → ¬ y == 0 → over ar x y == 1 }.

(** The arithmetic without rounding, to evaluate examples on numbers whose
    sums, products and quotients are exact; its power is that of an integer
    exponent and its square root that of a perfect square. *)
Definition unrounded : Arithmetic :=
  {| plus := Qplus; minus := Qminus; times := Qmult; over := Qdiv;
     pow := λ a b, a ^ Qfloor b;
     sqrt := λ a, inject_Z (Z.sqrt (Qfloor a)) |}.

End Helpers.

(** ** shared/MetricsStore.js : MetricsStore *)

Module MetricsStore.

Record Metric : Type := mkMetric
  { id : string;
    name : string;
    value : Q;
    unit : string;
    component : string;
    tags : list (string * string);
    severity : string;
    timestamp : Z }.

(** The [options] of [record]; a property left out takes its default. *)
Record RecordOptions : Type := mkRecordOptions
  { opt_unit : option string;
    opt_component : option string;
    opt_tags : option (list (string * string));
    opt_severity : option string }.

Definition noOptions : RecordOptions :=
  {| opt_unit := None; opt_component := None; opt_tags := None;
     opt_severity := None |}.

(** The store: the series by name, the cap on each series, and the metrics
    handed to [eventBus.publish] on the metric channel. The copy to Redis
    (lines 79-93) catches its own failure and is not part of the state. *)
Record t : Type := mk
  { metrics : gmap string (list Metric);
    maxInMemoryPoints : Z;
    published : list Metric }.

(** [new MetricsStore()] *)
Definition new : t :=
  {| metrics := ∅; maxInMemoryPoints := 10000; published := [] |}.

(** [this.metrics.get(name) || []] *)
Definition series (st : t) (n : string) : list Metric :=
  default [] (metrics st !! n).

(** The sample that [record] builds. *)
Definition sample (n : string) (v : Q) (options : RecordOptions)
    (newId : string) (now : Z) : Metric :=
  {| id := newId;
     name := n;
     value := v;
     unit := default "" (opt_unit options);
     component := default "system" (opt_component options);
     tags := default [] (opt_tags options);
     severity := default "normal" (opt_severity options);
     timestamp := now |}.

(** [metricArray.push(metric); if (metricArray.length > max) metricArray.shift()] *)
Definition push_bounded (cap : Z) (metricArray : list Metric) (metric : Metric)
  : list Metric :=
  let metricArray := metricArray ++ [metric] in
  if bool_decide (cap < Z.of_nat (length metricArray)) then tail metricArray
  else metricArray.

(** [record(name, value, options = {})] *)
Definition record (st : t) (n : string) (v : Q) (options : RecordOptions)
    (newId : string) (now : Z) : t * Metric :=
  let metric := sample n v options newId now in
  ({| metrics :=
        <[n := push_bounded (maxInMemoryPoints st) (series st n) metric]> (metrics st);
      maxInMemoryPoints := maxInMemoryPoints st;
      published := published st ++ [metric] |},
   metric).

(** The [options] of [get]: the time bounds are dates, [limit] defaults to
    100. *)
Record GetOptions : Type := mkGetOptions
  { get_startTime : option Z;
    get_endTime : option Z;
    get_limit : option Z }.

Definition defaultGet : GetOptions :=
  {| get_startTime := None; get_endTime := None; get_limit := None |}.

(** [metrics.slice(-limit)]: the last [limit] elements for a positive
    [limit]; [slice(-0)] is the whole array; a negative [limit] makes a
    positive start index. *)
Definition slice_neg (limit : Z) (l : list Metric) : list Metric :=
  if bool_decide (0 < limit) then drop (length l - Z.to_nat limit) l
  else drop (Z.to_nat (- limit)) l.

(** [get(name, options = {})] *)
Definition get (st : t) (n : string) (options : GetOptions) : list Metric :=
  let metrics := series st n in
  let metrics :=
    match get_startTime options with
    | Some startTime => filter (λ m, startTime ≤ timestamp m) metrics
    | None => metrics
    end in
  let metrics :=
    match get_endTime options with
    | Some endTime => filter (λ m, timestamp m ≤ endTime) metrics
    | None => metrics
    end in
  slice_neg (default 100 (get_limit options)) metrics.

(** The object [getStats] returns. *)
Record Stats : Type := mkStats
  { stats_name : string;
    stats_count : nat;
    stats_min : Q;
    stats_max : Q;
    stats_avg : Q;
    stats_stdDev : Q;
    stats_p50 : Q;
    stats_p90 : Q;
    stats_p95 : Q;
    stats_p99 : Q;
    stats_latest : Q;
    stats_latestTimestamp : option Z }.

Definition Qmin_list (first : Q) (rest : list Q) : Q :=
  foldl (λ a b, if Qle_bool b a then b else a) first rest.

Definition Qmax_list (first : Q) (rest : list Q) : Q :=
  foldl (λ a b, if Qle_bool a b then b else a) first rest.

(** [getStats(name, options = {})]; [None] is [null]. The arithmetic of
    the numbers is [ar]. *)
Definition getStats (ar : Helpers.Arithmetic) (st : t) (n : string)
    (options : GetOptions) : option Stats :=
  let metrics := get st n options in
  let values := value <$> metrics in
  match values with
  | [] => None
  | first :: rest =>
      Some {| stats_name := n;
              stats_count := length values;
              stats_min := Qmin_list first rest;
              stats_max := Qmax_list first rest;
              stats_avg := Helpers.average ar values;
              stats_stdDev := Helpers.standardDeviation ar values;
              stats_p50 := Helpers.percentile ar values 50;
              stats_p90 := Helpers.percentile ar values 90;
              stats_p95 := Helpers.percentile ar values 95;
              stats_p99 := Helpers.percentile ar values 99;
              stats_latest := List.last values first;
              stats_latestTimestamp := timestamp <$> last metrics |}
  end.

(** A later call of [record], by its arguments. *)
Record Call : Type := mkCall
  { call_name : string;
    call_value : Q;
    call_options : RecordOptions;
    call_id : string;
    call_now : Z }.

Definition record_all (st : t) (calls : list Call) : t :=
  foldl (λ st c, (record st (call_name c) (call_value c) (call_options c)
                    (call_id c) (call_now c)).1) st calls.

(** The samples that the calls record under the name [n], oldest first. *)
Definition samples_of (n : string) (calls : list Call) : list Metric :=
  (λ c, sample (call_name c) (call_value c) (call_options c) (call_id c)
          (call_now c)) <$> filter (λ c, call_name c = n) calls.

(** The [k] newest elements of a series. *)
Definition newest {A : Type} (k : nat) (l : list A) : list A :=
  drop (length l - k) l.

(** How many of the calls record under the name [n]. *)
Definition count_name (n : string) (calls : list Call) : nat :=
  length (filter (λ c, call_name c = n) calls).

(** One query-time sample, then a hundred more under the same name. *)
Definition hundred_later : list Call :=
  (λ i, {| call_name := "db_query_time"; call_value := 600;
           call_options := noOptions; call_id := "later";
           call_now := Z.of_nat i |}) <$> seq 1 100.

Definition first_then_hundred : t :=
  record_all (record new "db_query_time" 5 noOptions "first" 0).1 hundred_later.

End MetricsStore.

(** ** agents/MonitorAgent.js : MonitorAgent *)

Module MonitorAgent.
Import Config.

(** What one pass of a monitoring loop does, in order: the calls on the
    metrics store and on the alert manager, and the entries written to
    [lastChecks]. These calls are taken to return. *)
Inductive Action : Type :=
| RecordMetric (name : string) (value : Q) (options : MetricsStore.RecordOptions)
| CreateAlert (alertType : string) (data : AlertManager.AlertData)
| SetLastCheck (key : string) (status : string).

(** How the awaited request of a probe ends: it resolves or rejects after
    some milliseconds, or it never settles. *)
Inductive Settled : Type :=
| Resolved (elapsed : Z) (ok : bool) (status : Z)
| Rejected (elapsed : Z) (message : string)
| Pending.

(** [withTimeout(promise, ms, errorMessage)]: the race of the request with a
    timer of [ms] milliseconds. *)
Definition withTimeout (promise : Settled) (ms : Z) (errorMessage : string)
  : Js.result (Z * bool * Z) :=
  match promise with
  | Resolved elapsed ok status =>
      if bool_decide (elapsed < ms) then Js.Ok (elapsed, ok, status)
      else Js.Throw errorMessage
  | Rejected elapsed message =>
      if bool_decide (elapsed < ms) then Js.Throw message
      else Js.Throw errorMessage
  | Pending => Js.Throw errorMessage
  end.

Definition metricOptions (unit component : string) (tags : list (string * string))
  : MetricsStore.RecordOptions :=
  {| MetricsStore.opt_unit := Some unit;
     MetricsStore.opt_component := Some component;
     MetricsStore.opt_tags := Some tags;
     MetricsStore.opt_severity := None |}.

Definition ms (n : Z) : string := pretty n +:+ "ms".

(** The body of the loop of [startAPIMonitoring] for one endpoint. *)
Definition checkEndpoint (cfg : Config.t) (endpoint : string) (request : Settled)
  : list Action :=
  match withTimeout request (api_timeout cfg) ("API timeout: " +:+ endpoint) with
  | Js.Ok (responseTime, ok, status) =>
      [RecordMetric "api_response_time" (inject_Z responseTime)
         (metricOptions "ms" "api" [("endpoint", endpoint)])]
      ++ (if bool_decide (api_responseTime cfg < responseTime) then
            [CreateAlert alertTypes.API_SLOW
               {| AlertManager.data_component := Some "api";
                  AlertManager.data_message :=
                    Some ("API endpoint " +:+ endpoint +:+ " slow: "
                          +:+ ms responseTime +:+ " (threshold: "
                          +:+ ms (api_responseTime cfg) +:+ ")");
                  AlertManager.data_severity := None;
                  AlertManager.data_threshold := Some (inject_Z (api_responseTime cfg));
                  AlertManager.data_value := Some (inject_Z responseTime);
                  AlertManager.data_metadata := [("endpoint", endpoint)] |}]
          else [])
      ++ (if ok then []
          else [RecordMetric "api_error_count" 1
                  {| MetricsStore.opt_unit := None;
                     MetricsStore.opt_component := Some "api";
                     MetricsStore.opt_tags :=
                       Some [("endpoint", endpoint); ("status", pretty status)];
                     MetricsStore.opt_severity := None |}])
      ++ [SetLastCheck ("api:" +:+ endpoint) "healthy"]
  | Js.Throw message =>
      [CreateAlert alertTypes.API_DOWN
         {| AlertManager.data_component := Some "api";
            AlertManager.data_message :=
              Some ("API endpoint " +:+ endpoint +:+ " is down: " +:+ message);
            AlertManager.data_severity := Some CRITICAL;
            AlertManager.data_threshold := None;
            AlertManager.data_value := None;
            AlertManager.data_metadata :=
              [("endpoint", endpoint); ("error", message)] |};
       SetLastCheck ("api:" +:+ endpoint) "down"]
  end.

(** How the test query [SELECT 1] ends, with the busy-connections gauge when
    the pool metrics are available. *)
Inductive QueryProbe : Type :=
| QueryDone (queryTime : Z) (poolBusy : option Q)
| QueryFailed (message : string).

(** The body of the loop of [startDatabaseMonitoring]. *)
Definition checkDatabase (cfg : Config.t) (probe : QueryProbe) : list Action :=
  match probe with
  | QueryDone queryTime poolBusy =>
      [RecordMetric "db_query_time" (inject_Z queryTime)
         (metricOptions "ms" "database" [("query", "health_check")])]
      ++ (if bool_decide (database_queryTime cfg < queryTime) then
            [CreateAlert alertTypes.DB_SLOW
               {| AlertManager.data_component := Some "database";
                  AlertManager.data_message :=
                    Some ("Database query slow: " +:+ ms queryTime
                          +:+ " (threshold: " +:+ ms (database_queryTime cfg) +:+ ")");
                  AlertManager.data_severity := None;
                  AlertManager.data_threshold := Some (inject_Z (database_queryTime cfg));
                  AlertManager.data_value := Some (inject_Z queryTime);
                  AlertManager.data_metadata := [] |}]
          else [])
      ++ match poolBusy with
         | Some busy =>
             [RecordMetric "db_pool_usage" busy
                {| MetricsStore.opt_unit := Some "connections";
                   MetricsStore.opt_component := Some "database";
                   MetricsStore.opt_tags := None;
                   MetricsStore.opt_severity := None |}]
         | None => []
         end
      ++ [SetLastCheck "database" "healthy"]
  | QueryFailed message =>
      [CreateAlert alertTypes.DB_CONNECTION_ERROR
         {| AlertManager.data_component := Some "database";
            AlertManager.data_message :=
              Some ("Database connection error: " +:+ message);
            AlertManager.data_severity := Some CRITICAL;
            AlertManager.data_threshold := None;
            AlertManager.data_value := None;
            AlertManager.data_metadata := [("error", message)] |};
       SetLastCheck "database" "down"]
  end.

(** How the [PING] ends, with [used_memory] and [maxmemory] when the memory
    info could be read. *)
Inductive PingProbe : Type :=
| PingDone (responseTime : Z) (memory : option (Z * Z))
| PingFailed (message : string).

(** The body of the loop of [startRedisMonitoring]. *)
Definition checkRedis (cfg : Config.t) (probe : PingProbe) : list Action :=
  match probe with
  | PingDone responseTime memory =>
      [RecordMetric "redis_response_time" (inject_Z responseTime)
         {| MetricsStore.opt_unit := Some "ms";
            MetricsStore.opt_component := Some "redis";
            MetricsStore.opt_tags := None;
            MetricsStore.opt_severity := None |}]
      ++ (if bool_decide (redis_responseTime cfg < responseTime) then
            [CreateAlert alertTypes.REDIS_SLOW
               {| AlertManager.data_component := Some "redis";
                  AlertManager.data_message :=
                    Some ("Redis slow: " +:+ ms responseTime
                          +:+ " (threshold: " +:+ ms (redis_responseTime cfg) +:+ ")");
                  AlertManager.data_severity := None;
                  AlertManager.data_threshold := Some (inject_Z (redis_responseTime cfg));
                  AlertManager.data_value := Some (inject_Z responseTime);
                  AlertManager.data_metadata := [] |}]
          else [])
      ++ match memory with
         | Some (usedMemory, maxMemory) =>
             if bool_decide (0 < maxMemory) then
               [RecordMetric "redis_memory_usage"
                  (inject_Z usedMemory / inject_Z maxMemory * 100)%Q
                  {| MetricsStore.opt_unit := Some "%";
                     MetricsStore.opt_component := Some "redis";
                     MetricsStore.opt_tags := None;
                     MetricsStore.opt_severity := None |}]
             else []
         | None => []
         end
      ++ [SetLastCheck "redis" "healthy"]
  | PingFailed message =>
      [CreateAlert alertTypes.REDIS_DOWN
         {| AlertManager.data_component := Some "redis";
            AlertManager.data_message :=
              Some ("Redis connection error: " +:+ message);
            AlertManager.data_severity := Some HIGH;
            AlertManager.data_threshold := None;
            AlertManager.data_value := None;
            AlertManager.data_metadata := [("error", message)] |};
       SetLastCheck "redis" "down"]
  end.

(** How the [HEAD] request to an external service ends. The request carries
    its own [.catch(() => null)]: a service that cannot be reached, or that
    is aborted at its timeout, yields [null] and no exception. [CheckThrew]
    is an exception thrown elsewhere in the [try] block. *)
Inductive ExternalProbe : Type :=
| Answered (responseTime : Z)
| NoAnswer (responseTime : Z)
| CheckThrew (message : string).

(** [String.prototype.toLowerCase] on the letters A to Z. *)
Definition lower (c : ascii) : ascii :=
  let n := nat_of_ascii c in
  if bool_decide (65 ≤ n ≤ 90)%nat then ascii_of_nat (n + 32) else c.

Fixpoint toLowerCase (s : string) : string :=
  match s with
  | EmptyString => EmptyString
  | String c rest => String (lower c) (toLowerCase rest)
  end.

(** The body of the loop of [startExternalAPIMonitoring] for one service. *)
Definition checkExternal (serviceName : string) (probe : ExternalProbe)
  : list Action :=
  let recorded responseTime status :=
    [RecordMetric ("external_api_" +:+ toLowerCase serviceName)
       (inject_Z responseTime)
       (metricOptions "ms" "external" [("service", serviceName)]);
     SetLastCheck ("external:" +:+ serviceName) status] in
  match probe with
  | Answered responseTime => recorded responseTime "healthy"
  | NoAnswer responseTime => recorded responseTime "degraded"
  | CheckThrew message =>
      [CreateAlert alertTypes.EXTERNAL_API_DOWN
         {| AlertManager.data_component := Some "external";
            AlertManager.data_message :=
              Some ("External API " +:+ serviceName +:+ " may be unreachable");
            AlertManager.data_severity := Some MEDIUM;
            AlertManager.data_threshold := None;
            AlertManager.data_value := None;
            AlertManager.data_metadata :=
              [("service", serviceName); ("error", message)] |};
       SetLastCheck ("external:" +:+ serviceName) "down"]
  end.

(** One tick of each loop. [running] is [this.running]; the database and
    Redis loops also return at once without their client. *)
Definition apiPass (running : bool) (cfg : Config.t) (requests : string → Settled)
  : list Action :=
  if running then
    mjoin ((λ endpoint, checkEndpoint cfg endpoint (requests endpoint))
             <$> monitor_endpoints cfg)
  else [].

Definition databasePass (running hasDb : bool) (cfg : Config.t)
    (probe : QueryProbe) : list Action :=
  if running && hasDb then checkDatabase cfg probe else [].

Definition redisPass (running hasRedis : bool) (cfg : Config.t)
    (probe : PingProbe) : list Action :=
  if running && hasRedis then checkRedis cfg probe else [].

Definition externalPass (running : bool) (cfg : Config.t)
    (probes : string → ExternalProbe) : list Action :=
  if running then
    mjoin ((λ service, checkExternal service.1 (probes service.1))
             <$> monitor_externalServices cfg)
  else [].

(** The alerts a pass raises, each with the severity [AlertManager.create]
    gives it. *)
Definition raised (actions : list Action) : list (string * Severity) :=
  omap (λ a, match a with
             | CreateAlert alertType data =>
                 Some (alertType, AlertManager.assignedSeverity alertType data)
             | _ => None
             end) actions.

End MonitorAgent.

(** ** agents/DiagnosticAgent.js : DiagnosticAgent *)

Module DiagnosticAgent.
Import Config.

(** A diagnosis. [rootCause] is [None] when the answer of the reasoning
    backend carries no string under that name; [confidence] is taken to be a
    number and [autoFixable] is read for its truthiness. *)
Record Diagnosis : Type := mkDiagnosis
  { rootCause : option string;
    suggestedFix : string;
    fixType : string;
    autoFixable : bool;
    confidence : Q;
    severity : Severity;
    estimatedFixTime : string;
    affectedUsers : Z;
    preventionAdvice : string;
    diagnosedBy : string;
    fromCache : bool;
    timestamp : Z }.

(** The entries of the rule table: what [rules[alert.type]] holds. *)
Record Rule : Type := mkRule
  { rule_rootCause : string;
    rule_suggestedFix : string;
    rule_fixType : string;
    rule_autoFixable : bool;
    rule_confidence : Q }.

Definition rules : list (string * Rule) :=
  [("API_SLOW", mkRule "API response time exceeded threshold"
      "Check database queries, increase resources, or enable caching"
      "CACHE_CLEAR" true (7 # 10));
   ("API_DOWN", mkRule "API endpoint not responding" "Restart the service"
      "SERVICE_RESTART" true (8 # 10));
   ("DB_SLOW", mkRule "Database queries taking too long"
      "Add missing indexes or optimize queries" "DATABASE_INDEX" true (75 # 100));
   ("DB_CONNECTION_ERROR", mkRule "Database connection failed"
      "Check database status and connection pool" "CONNECTION_POOL_EXPAND" true
      (8 # 10));
   ("MEMORY_HIGH", mkRule "Memory usage exceeded threshold"
      "Clear caches and restart services if needed" "MEMORY_CLEANUP" true
      (85 # 100));
   ("CPU_HIGH", mkRule "CPU usage exceeded threshold"
      "Scale resources or optimize heavy processes" "MANUAL" false (6 # 10));
   ("REDIS_SLOW", mkRule "Redis response time exceeded threshold"
      "Clear Redis cache or check memory" "CACHE_CLEAR" true (7 # 10));
   ("REDIS_DOWN", mkRule "Redis not responding" "Restart Redis service"
      "SERVICE_RESTART" true (8 # 10));
   ("SECURITY_THREAT", mkRule "Security threat detected"
      "Block suspicious IP and review logs" "MANUAL" false (9 # 10))].

(** [ruleDiagnose(alert, evidence)] *)
Definition ruleDiagnose (alert : AlertManager.Alert) (now : Z) : Diagnosis :=
  let rule :=
    default
      (mkRule ("Alert triggered: " +:+ AlertManager.alert_type alert)
         "Manual investigation required" "MANUAL" false (5 # 10))
      (EventBus.map_get rules (AlertManager.alert_type alert)) in
  {| rootCause := Some (rule_rootCause rule);
     suggestedFix := rule_suggestedFix rule;
     fixType := rule_fixType rule;
     autoFixable := rule_autoFixable rule;
     confidence := rule_confidence rule;
     severity := AlertManager.alert_severity alert;
     estimatedFixTime := if rule_autoFixable rule then "60" else "unknown";
     affectedUsers := 0;
     preventionAdvice := "Monitor thresholds and set up proactive alerts";
     diagnosedBy := "rules";
     fromCache := false;
     timestamp := now |}.

(** What the call to the reasoning backend yields: the object parsed from
    its answer, or a failure (no answer, or an answer that does not parse). *)
Inductive AiOutcome : Type :=
| AiAnswered (answer : Diagnosis)
| AiFailed.

(** [aiDiagnose(alert, evidence)]: the parsed answer stamped as diagnosed by
    the backend, the rule table on any failure. *)
Definition aiDiagnose (alert : AlertManager.Alert) (ai : AiOutcome) (now : Z)
  : Diagnosis :=
  match ai with
  | AiAnswered answer =>
      {| rootCause := rootCause answer;
         suggestedFix := suggestedFix answer;
         fixType := fixType answer;
         autoFixable := autoFixable answer;
         confidence := confidence answer;
         severity := severity answer;
         estimatedFixTime := estimatedFixTime answer;
         affectedUsers := affectedUsers answer;
         preventionAdvice := preventionAdvice answer;
         diagnosedBy := "ai";
         fromCache := fromCache answer;
         timestamp := now |}
  | AiFailed => ruleDiagnose alert now
  end.

(** What the agent does to the outside, in order. The calls are taken to
    return. *)
Inductive Effect : Type :=
| StoreDiagnosis (alertId : string) (diagnosis : Diagnosis)
| PublishDiagnosis (channel : string) (alertId : string) (diagnosis : Diagnosis)
| PublishError (message : string) (alertId : string)
| CreateAlert (alertType : string) (data : AlertManager.AlertData).

Record t : Type := mk
  { running : bool;
    anthropic : bool;   (* a client of the reasoning backend is set *)
    hasDb : bool;
    diagnosisCache : gmap string (Diagnosis * Z);
    pendingDiagnoses : gset string }.

Section WithHash.

(** [generateHash({ type, component })] of helpers.js, a truncated SHA-256
    of the serialised object: any function of the two strings. *)
Variable generateHash : string → string → string.

Variable cfg : Config.t.

(** [checkCache(alert, evidence)]: a diagnosis cached less than five minutes
    ago for the type and component, marked as coming from the cache. *)
Definition checkCache (ag : t) (alert : AlertManager.Alert) (now : Z)
  : option Diagnosis :=
  let cacheKey :=
    generateHash (AlertManager.alert_type alert) (AlertManager.alert_component alert) in
  match diagnosisCache ag !! cacheKey with
  | Some (diagnosis, cachedAt) =>
      if bool_decide (now - cachedAt < 300000) then
        Some {| rootCause := rootCause diagnosis;
                suggestedFix := suggestedFix diagnosis;
                fixType := fixType diagnosis;
                autoFixable := autoFixable diagnosis;
                confidence := confidence diagnosis;
                severity := severity diagnosis;
                estimatedFixTime := estimatedFixTime diagnosis;
                affectedUsers := affectedUsers diagnosis;
                preventionAdvice := preventionAdvice diagnosis;
                diagnosedBy := diagnosedBy diagnosis;
                fromCache := true;
                timestamp := timestamp diagnosis |}
      else None
  | None => None
  end.

(** [diagnose(alert)]. Collecting the evidence changes nothing and catches
    its own failures. The closing log line truncates [diagnosis.rootCause]
    and throws a [TypeError] when that is not a string, after the diagnosis
    was stored and cached. *)
Definition diagnose (ag : t) (alert : AlertManager.Alert) (ai : AiOutcome)
    (now : Z) : t * list Effect * Js.result Diagnosis :=
  match checkCache ag alert now with
  | Some cachedDiagnosis => (ag, [], Js.Ok cachedDiagnosis)
  | None =>
      let diagnosis :=
        if anthropic ag then aiDiagnose alert ai now else ruleDiagnose alert now in
      let stored :=
        if hasDb ag then [StoreDiagnosis (AlertManager.alert_id alert) diagnosis]
        else [] in
      let cacheKey :=
        generateHash (AlertManager.alert_type alert)
          (AlertManager.alert_component alert) in
      let ag' :=
        {| running := running ag; anthropic := anthropic ag; hasDb := hasDb ag;
           diagnosisCache := <[cacheKey := (diagnosis, now)]> (diagnosisCache ag);
           pendingDiagnoses := pendingDiagnoses ag |} in
      match rootCause diagnosis with
      | Some _ => (ag', stored, Js.Ok diagnosis)
      | None =>
          (ag', stored,
           Js.Throw "Cannot read properties of undefined (reading 'length')")
      end
  end.

(** [escalate(alert, diagnosis)] *)
Definition escalate (alert : AlertManager.Alert) (diagnosis : Diagnosis) : Effect :=
  CreateAlert "ESCALATION"
    {| AlertManager.data_component := Some "diagnostic";
       AlertManager.data_message :=
         Some ("Low confidence diagnosis for " +:+ AlertManager.alert_type alert
               +:+ ": " +:+ default "undefined" (rootCause diagnosis));
       AlertManager.data_severity := Some HIGH;
       AlertManager.data_threshold := None;
       AlertManager.data_value := None;
       AlertManager.data_metadata :=
         [("reason", "Low confidence - requires human review")] |}.

(** The branch of [handleAlert] on the diagnosis (lines 111-121). *)
Definition followUp (alert : AlertManager.Alert) (diagnosis : Diagnosis)
  : list Effect :=
  if Qle_bool (diagnostic_confidenceThreshold cfg) (confidence diagnosis)
     && autoFixable diagnosis then
    [PublishDiagnosis EventBus.CHANNELS.REPAIR_REQUEST (AlertManager.alert_id alert)
       diagnosis]
  else if negb (Qle_bool (5 # 10) (confidence diagnosis)) then
    [escalate alert diagnosis]
  else [].

Definition set_pending (ag : t) (pending : gset string) : t :=
  {| running := running ag; anthropic := anthropic ag; hasDb := hasDb ag;
     diagnosisCache := diagnosisCache ag; pendingDiagnoses := pending |}.

(** [handleAlert(event)], [alert] being [event.data.alert || event.data]. *)
Definition handleAlert (ag : t) (alert : AlertManager.Alert) (ai : AiOutcome)
    (now : Z) : t * list Effect :=
  if negb (running ag) then (ag, [])
  else if bool_decide (AlertManager.alert_id alert ∈ pendingDiagnoses ag) then (ag, [])
  else if bool_decide (AlertManager.alert_severity alert = INFO)
          || bool_decide (AlertManager.alert_severity alert = LOW) then (ag, [])
  else
    let ag := set_pending ag ({[AlertManager.alert_id alert]} ∪ pendingDiagnoses ag) in
    match diagnose ag alert ai now with
    | (ag, stored, Js.Ok diagnosis) =>
        (set_pending ag (pendingDiagnoses ag ∖ {[AlertManager.alert_id alert]}),
         stored
         ++ [PublishDiagnosis EventBus.CHANNELS.DIAGNOSIS (AlertManager.alert_id alert)
               diagnosis]
         ++ followUp alert diagnosis)
    | (ag, stored, Js.Throw message) =>
        (set_pending ag (pendingDiagnoses ag ∖ {[AlertManager.alert_id alert]}),
         stored ++ [PublishError message (AlertManager.alert_id alert)])
    end.

End WithHash.

(** Whether the effects hold a repair request, an escalation alert. *)
Definition requestsRepair (effects : list Effect) : bool :=
  existsb (λ e, match e with
                | PublishDiagnosis channel _ _ =>
                    bool_decide (channel = EventBus.CHANNELS.REPAIR_REQUEST)
                | _ => false
                end) effects.

Definition escalates (effects : list Effect) : bool :=
  existsb (λ e, match e with
                | CreateAlert alertType _ => bool_decide (alertType = "ESCALATION")
                | _ => false
                end) effects.

(** A stand-in for the hash, to evaluate examples. *)
Definition joinHash (type component : string) : string :=
  type +:+ "/" +:+ component.

(** An agent with a reasoning backend and an empty cache. *)
Definition withBackend : t :=
  {| running := true; anthropic := true; hasDb := false;
     diagnosisCache := ∅; pendingDiagnoses := ∅ |}.

(** An answer of the backend with confidence 0.3 that calls the fix safe. *)
Definition unsureAnswer : Diagnosis :=
  {| rootCause := Some "Possibly a missing index";
     suggestedFix := "Add an index";
     fixType := "DATABASE_INDEX";
     autoFixable := true;
     confidence := 3 # 10;
     severity := HIGH;
     estimatedFixTime := "60";
     affectedUsers := 0;
     preventionAdvice := "";
     diagnosedBy := "";
     fromCache := false;
     timestamp := 0 |}.

(** The environment sets [DIAGNOSTIC_CONFIDENCE_THRESHOLD=0.2]. *)
Definition lowThreshold : Config.t :=
  {| api_responseTime := api_responseTime defaults;
     api_timeout := api_timeout defaults;
     database_queryTime := database_queryTime defaults;
     redis_responseTime := redis_responseTime defaults;
     monitor_endpoints := monitor_endpoints defaults;
     monitor_externalServices := monitor_externalServices defaults;
     diagnostic_confidenceThreshold := 2 # 10;
     learning_minSuccessRate := learning_minSuccessRate defaults;
     learning_minOccurrences := learning_minOccurrences defaults;
     learning_patternExpiry := learning_patternExpiry defaults;
     security_maxFailedLogins := security_maxFailedLogins defaults;
     security_lockoutDuration := security_lockoutDuration defaults;
     security_ipBlockDuration := security_ipBlockDuration defaults |}.

(** A slow-query alert of critical severity. *)
Definition slowQueryAlert : AlertManager.Alert :=
  AlertManager.newAlert alertTypes.DB_SLOW AlertManager.slowQuery "a-1" 10.

End DiagnosticAgent.

(** ** agents/LearningAgent.js : LearningAgent *)

Module LearningAgent.
Import Config.

(** The pattern signature. *)
Record Symptoms : Type := mkSymptoms
  { alertType : string;
    component : string;
    fixType : string;
    severity : string }.

(** The properties of a diagnosis that the agent reads. *)
Record Diagnosis : Type := mkDiagnosis
  { diag_alertType : option string;
    diag_component : option string;
    diag_fixType : string;
    diag_severity : string;
    diag_rootCause : string;
    diag_suggestedFix : string }.

(** The repair result: [success] and, when given, [duration] in ms. *)
Record RepairResult : Type := mkResult
  { success : bool;
    duration : option Z }.

(** A pattern. The counts are natural numbers; [avgFixTimeSeconds] is [None]
    when the number is not finite (a division by a zero count). *)
Record Pattern : Type := mkPattern
  { id : string;
    patternHash : string;
    symptoms : Symptoms;
    rootCause : string;
    solution : string;
    successCount : N;
    failureCount : N;
    successRate : Q;
    avgFixTimeSeconds : option Z;
    autoFixEnabled : bool;
    lastAppliedAt : Z;
    createdAt : Z;
    updatedAt : Z }.

Record QueueEntry : Type := mkQueueEntry
  { entry_alertId : string;
    entry_diagnosis : Diagnosis;
    entry_result : RepairResult;
    entry_timestamp : Z }.

(** The agent: the pattern map by hash, the learning queue, and what was
    published on the pattern-learned channel (action and pattern). The copy
    of a pattern to Redis catches its own failure and is not part of the
    state. *)
Record t : Type := mk
  { running : bool;
    patterns : gmap string Pattern;
    learningQueue : list QueueEntry;
    published : list (string * Pattern) }.

(** [Math.round] of a finite number. *)
Definition round (x : Q) : Z := Qfloor (x + (1 # 2)).

(** [result.duration || 60000] *)
Definition fixTime (result : RepairResult) : Z :=
  match duration result with
  | Some d => if bool_decide (d = 0) then 60000 else d
  | None => 60000
  end.

Section WithHash.

(** [generateHash(symptoms)] of helpers.js, a truncated SHA-256 of the
    serialised signature: any function of the signature. *)
Variable generateHash : Symptoms → string.

Variable cfg : Config.t.

Definition symptomsOf (diagnosis : Diagnosis) : Symptoms :=
  {| alertType := Js.str_or (diag_alertType diagnosis) "unknown";
     component := Js.str_or (diag_component diagnosis) "unknown";
     fixType := diag_fixType diagnosis;
     severity := diag_severity diagnosis |}.

(** The update of an existing pattern (lines 196-224). *)
Definition reinforce (pattern : Pattern) (result : RepairResult) (now : Z)
  : Pattern :=
  let successCount' :=
    if success result then (successCount pattern + 1)%N else successCount pattern in
  let failureCount' :=
    if success result then failureCount pattern else (failureCount pattern + 1)%N in
  let successRate' :=
    (inject_Z (Z.of_N successCount')
     / inject_Z (Z.of_N (successCount' + failureCount')))%Q in
  let avg' :=
    match avgFixTimeSeconds pattern with
    | Some avg =>
        if bool_decide (successCount' = 0%N) then None
        else
          Some (round ((inject_Z avg * inject_Z (Z.of_N successCount' - 1)
                        + inject_Z (fixTime result) / 1000)
                       / inject_Z (Z.of_N successCount')))
    | None => None
    end in
  let autoFixEnabled' :=
    if Qle_bool (learning_minSuccessRate cfg) successRate'
       && bool_decide (learning_minOccurrences cfg ≤ Z.of_N successCount')
    then true
    else autoFixEnabled pattern in
  {| id := id pattern;
     patternHash := patternHash pattern;
     symptoms := symptoms pattern;
     rootCause := rootCause pattern;
     solution := solution pattern;
     successCount := successCount';
     failureCount := failureCount';
     successRate := successRate';
     avgFixTimeSeconds := avg';
     autoFixEnabled := autoFixEnabled';
     lastAppliedAt := now;
     createdAt := createdAt pattern;
     updatedAt := now |}.

(** The pattern created for a signature seen for the first time (lines
    227-242). *)
Definition firstSeen (hash : string) (diagnosis : Diagnosis)
    (result : RepairResult) (newId : string) (now : Z) : Pattern :=
  {| id := newId;
     patternHash := hash;
     symptoms := symptomsOf diagnosis;
     rootCause := diag_rootCause diagnosis;
     solution := diag_suggestedFix diagnosis;
     successCount := if success result then 1 else 0;
     failureCount := if success result then 0 else 1;
     successRate := if success result then 1 else 0;
     avgFixTimeSeconds := Some (round (inject_Z (fixTime result) / 1000));
     autoFixEnabled := false;
     lastAppliedAt := now;
     createdAt := now;
     updatedAt := now |}.

(** [learnFromRepair(alertId, diagnosis, result)] *)
Definition learnFromRepair (ag : t) (alertId : string) (diagnosis : Diagnosis)
    (result : RepairResult) (newId : string) (now : Z) : t * Pattern :=
  let hash := generateHash (symptomsOf diagnosis) in
  let pattern :=
    match patterns ag !! hash with
    | Some pattern => reinforce pattern result now
    | None => firstSeen hash diagnosis result newId now
    end in
  ({| running := running ag;
      patterns := <[hash := pattern]> (patterns ag);
      learningQueue := learningQueue ag;
      published :=
        published ag
        ++ [(if success result then "PATTERN_REINFORCED" else "PATTERN_WEAKENED",
             pattern)] |},
   pattern).

(** [handleRepairComplete(event)], the event carrying [alertId], [diagnosis]
    and [result]. *)
Definition handleRepairComplete (ag : t) (alertId : string)
    (diagnosis : Diagnosis) (result : RepairResult) (newId : string) (now : Z) : t :=
  if negb (running ag) then ag
  else
    let ag :=
      {| running := running ag;
         patterns := patterns ag;
         learningQueue :=
           learningQueue ag
           ++ [{| entry_alertId := alertId; entry_diagnosis := diagnosis;
                  entry_result := result; entry_timestamp := now |}];
         published := published ag |} in
    if success result then (learnFromRepair ag alertId diagnosis result newId now).1
    else ag.

(** The pruning of [consolidatePatterns()]: a pattern goes when it was last
    applied more than the expiry window ago and its success rate is below
    one half. *)
Definition prunable (now : Z) (pattern : Pattern) : bool :=
  bool_decide (learning_patternExpiry cfg * 24 * 60 * 60 * 1000
               < now - lastAppliedAt pattern)
  && negb (Qle_bool (1 # 2) (successRate pattern)).

Definition consolidatePatterns (ag : t) (now : Z) : t :=
  {| running := running ag;
     patterns := filter (λ kv, prunable now kv.2 = false) (patterns ag);
     learningQueue := learningQueue ag;
     published := published ag |}.

End WithHash.

(** A stand-in for the hash, to evaluate examples. *)
Definition joinHash (s : Symptoms) : string :=
  alertType s +:+ "/" +:+ component s +:+ "/" +:+ fixType s +:+ "/" +:+ severity s.

Definition indexDiagnosis : Diagnosis :=
  {| diag_alertType := Some "DB_SLOW"; diag_component := Some "database";
     diag_fixType := "DATABASE_INDEX"; diag_severity := "high";
     diag_rootCause := "Database queries taking too long";
     diag_suggestedFix := "Add missing indexes or optimize queries" |}.

(** A running agent that has learned nothing yet. *)
Definition fresh : t :=
  {| running := true; patterns := ∅; learningQueue := []; published := [] |}.

(** One successful repair learned by a fresh agent, then a failed one. *)
Definition afterSuccess : t :=
  handleRepairComplete joinHash defaults fresh "a-1" indexDiagnosis
    {| success := true; duration := Some 1200 |} "p-1" 50.

Definition afterFailure : t :=
  handleRepairComplete joinHash defaults afterSuccess "a-2" indexDiagnosis
    {| success := false; duration := Some 900 |} "p-2" 60.

End LearningAgent.

(** ** JavaScript strings and regular expressions, as the Security agent
    uses them

    The text that the threat signatures scan is a sequence of UTF-16 code
    units. The matcher below is the backtracking matcher of the language on
    the constructs that the four signatures use: alternatives are tried in
    order, [+] and [*] are greedy, [\b] is the word boundary, and with the
    [i] flag two characters are the same when they canonicalise to the same
    character. *)

Module Regex.

Definition jsstring : Type := list N.

(** A string literal as code units. *)
Fixpoint js (s : string) : jsstring :=
  match s with
  | EmptyString => []
  | String a rest => N_of_ascii a :: js rest
  end.

Definition ch (a : ascii) : N := N_of_ascii a.

(** Canonicalisation under the [i] flag (without [u]): a letter a to z
    becomes its capital. A code unit above 127 never canonicalises to one
    below 128, so against the ASCII characters of the signatures it can be
    left as it is. *)
Definition canon (c : N) : N :=
  if bool_decide (97 ≤ c ≤ 122)%N then (c - 32)%N else c.

(** [\w] *)
Definition is_word (c : N) : bool :=
  bool_decide ((48 ≤ c ≤ 57) ∨ (65 ≤ c ≤ 90) ∨ (97 ≤ c ≤ 122) ∨ c = 95)%N.

(** [\s]: white space and line terminators. *)
Definition is_space (c : N) : bool :=
  bool_decide (c ∈ [9; 10; 11; 12; 13; 32; 160; 5760; 8232; 8233; 8239; 8287;
                    12288; 65279]%N
               ∨ (8192 ≤ c ≤ 8202)%N).

Inductive t : Type :=
| Eps
| Lit (c : N)
| Class (p : N → bool)
| Cat (r1 r2 : t)
| Or (r1 r2 : t)
| Plus (r : t)
| Star (r : t)
| WordBoundary.

(** A position in the input: the code unit before it, if any, and the rest. *)
Record Pos : Type := mkPos
  { prev : option N;
    rest : jsstring }.

Section Exec.

Variable ignoreCase : bool.

Definition same (c p : N) : bool :=
  if ignoreCase then bool_decide (canon c = canon p) else bool_decide (c = p).

(** The greedy loop of a quantifier: one more iteration first, which has to
    consume input, the continuation otherwise. *)
Fixpoint loop (fuel : nat)
    (step : Pos → (Pos → option jsstring) → option jsstring)
    (pos : Pos) (k : Pos → option jsstring) : option jsstring :=
  match fuel with
  | O => k pos
  | S fuel' =>
      match step pos (λ pos',
                if bool_decide (length (rest pos') < length (rest pos))%nat
                then loop fuel' step pos' k else None) with
      | Some m => Some m
      | None => k pos
      end
  end.

Definition at_boundary (pos : Pos) : bool :=
  xorb (from_option is_word false (prev pos))
       (from_option is_word false (head (rest pos))).

(** [exec r pos k]: match [r] at [pos] and pass the position after the match
    to the continuation [k]; backtrack when [k] fails. *)
Fixpoint exec (r : t) (pos : Pos) (k : Pos → option jsstring)
  : option jsstring :=
  match r with
  | Eps => k pos
  | Lit p =>
      match rest pos with
      | c :: s => if same c p then k {| prev := Some c; rest := s |} else None
      | [] => None
      end
  | Class f =>
      match rest pos with
      | c :: s => if f c then k {| prev := Some c; rest := s |} else None
      | [] => None
      end
  | Cat r1 r2 => exec r1 pos (λ pos', exec r2 pos' k)
  | Or r1 r2 =>
      match exec r1 pos k with
      | Some m => Some m
      | None => exec r2 pos k
      end
  | Plus r1 =>
      exec r1 pos (λ pos', loop (length (rest pos')) (exec r1) pos' k)
  | Star r1 => loop (length (rest pos)) (exec r1) pos k
  | WordBoundary => if at_boundary pos then k pos else None
  end.

(** The text matched at [pos], if the expression matches there. *)
Definition match_at (r : t) (pos : Pos) : option jsstring :=
  (λ remaining, take (length (rest pos) - length remaining) (rest pos))
    <$> exec r pos (λ pos', Some (rest pos')).

(** The first match, scanning the start positions from left to right. *)
Fixpoint search_from (r : t) (before : option N) (s : jsstring)
  : option jsstring :=
  match match_at r {| prev := before; rest := s |} with
  | Some m => Some m
  | None =>
      match s with
      | [] => None
      | c :: s' => search_from r (Some c) s'
      end
  end.

End Exec.

(** [str.match(regex)] for a regex without the [g] flag: [match[0]], or
    [None] for [null]. *)
Definition match_ (ignoreCase : bool) (r : t) (s : jsstring) : option jsstring :=
  search_from ignoreCase r None s.

(** [regex.test(str)] *)
Definition test (ignoreCase : bool) (r : t) (s : jsstring) : bool :=
  bool_decide (is_Some (match_ ignoreCase r s)).

(** The characters of a literal in sequence. *)
Fixpoint str (s : string) : t :=
  match s with
  | EmptyString => Eps
  | String a rest => Cat (Lit (ch a)) (str rest)
  end.

(** [r1|r2|...] *)
Fixpoint alt (first : t) (others : list t) : t :=
  match others with
  | [] => first
  | r :: others' => Or first (alt r others')
  end.

(** Whether the expression can match the empty string. *)
Fixpoint nullable (r : t) : bool :=
  match r with
  | Eps | Star _ | WordBoundary => true
  | Lit _ | Class _ => false
  | Cat r1 r2 => nullable r1 && nullable r2
  | Or r1 r2 => nullable r1 || nullable r2
  | Plus r1 => nullable r1
  end.

(** What a successful run of a matcher tells about its continuation. *)
Definition consumes (strict : bool)
    (m : Pos → (Pos → option jsstring) → option jsstring) : Prop :=
  ∀ pos k x, m pos k = Some x →
    ∃ pos', k pos' = Some x
      ∧ (length (rest pos') ≤ length (rest pos))%nat
      ∧ (strict = true → (length (rest pos') < length (rest pos))%nat).

(** A matcher looks at its continuation only on positions that are not
    further back in the input. *)
Definition local (m : Pos → (Pos → option jsstring) → option jsstring) : Prop :=
  ∀ pos k1 k2,
    (∀ p, (length (rest p) ≤ length (rest pos))%nat → k1 p = k2 p) →
    m pos k1 = m pos k2.

(** [hay] holds [needle] as a substring. *)
Definition includes (hay needle : jsstring) : Prop :=
  ∃ before after, hay = before ++ needle ++ after.

End Regex.

(** ** The built-in [decodeURIComponent] *)

Module Uri.
Import Regex.
Local Open Scope N_scope.

Definition hex_digit (c : N) : option N :=
  if bool_decide (48 ≤ c ≤ 57) then Some (c - 48)
  else if bool_decide (65 ≤ c ≤ 70) then Some (c - 55)
  else if bool_decide (97 ≤ c ≤ 102) then Some (c - 87)
  else None.

(** An escape [%XX] at the head of the input: its octet and what follows. *)
Definition read_octet (s : jsstring) : option (N * jsstring) :=
  match s with
  | 37 :: h1 :: h2 :: rest =>
      match hex_digit h1, hex_digit h2 with
      | Some a, Some b => Some (16 * a + b, rest)
      | _, _ => None
      end
  | _ => None
  end.

(** [n] further escapes, each an octet of the form 10xxxxxx. *)
Fixpoint read_continuations (n : nat) (s : jsstring) : option (list N * jsstring) :=
  match n with
  | O => Some ([], s)
  | S n' =>
      match read_octet s with
      | Some (b, rest) =>
          if bool_decide (128 ≤ b < 192) then
            match read_continuations n' rest with
            | Some (octets, rest') => Some (b :: octets, rest')
            | None => None
            end
          else None
      | None => None
      end
  end.

(** The code point of a multi-octet sequence, when the sequence is valid
    UTF-8 (shortest form, no surrogate, at most U+10FFFF). *)
Definition utf8_value (lead : N) (continuations : list N) : option N :=
  match continuations with
  | [c1] =>
      let v := (lead - 192) * 64 + (c1 - 128) in
      if bool_decide (192 ≤ lead < 224 ∧ 128 ≤ v) then Some v else None
  | [c1; c2] =>
      let v := (lead - 224) * 4096 + (c1 - 128) * 64 + (c2 - 128) in
      if bool_decide (224 ≤ lead < 240 ∧ 2048 ≤ v ∧ ¬ (55296 ≤ v ≤ 57343))
      then Some v else None
  | [c1; c2; c3] =>
      let v := (lead - 240) * 262144 + (c1 - 128) * 4096 + (c2 - 128) * 64
               + (c3 - 128) in
      if bool_decide (240 ≤ lead < 248 ∧ 65536 ≤ v ≤ 1114111) then Some v else None
  | _ => None
  end.

(** The code units of a code point. *)
Definition utf16 (v : N) : jsstring :=
  if bool_decide (v < 65536) then [v]
  else [55296 + (v - 65536) / 1024; 56320 + (v - 65536) mod 1024].

(** The number of octets that a leading octet above 127 announces. *)
Definition sequence_length (lead : N) : option nat :=
  if bool_decide (lead < 192) then None
  else if bool_decide (lead < 224) then Some 2%nat
  else if bool_decide (lead < 240) then Some 3%nat
  else if bool_decide (lead < 248) then Some 4%nat
  else None.

Fixpoint decode (fuel : nat) (s : jsstring) : option jsstring :=
  match s with
  | [] => Some []
  | c :: rest =>
      match fuel with
      | O => None
      | S fuel' =>
          if bool_decide (c = 37) then
            match read_octet s with
            | Some (b, rest1) =>
                if bool_decide (b < 128) then (λ r, b :: r) <$> decode fuel' rest1
                else
                  match sequence_length b with
                  | Some n =>
                      match read_continuations (n - 1) rest1 with
                      | Some (octets, rest2) =>
                          match utf8_value b octets with
                          | Some v => (λ r, utf16 v ++ r) <$> decode fuel' rest2
                          | None => None
                          end
                      | None => None
                      end
                  | None => None
                  end
            | None => None
            end
          else (λ r, c :: r) <$> decode fuel' rest
      end
  end.

(** [decodeURIComponent(s)]; [None] when it throws a [URIError]. Every step
    consumes input, so the length of the input is fuel enough. *)
Definition decodeURIComponent (s : jsstring) : option jsstring :=
  decode (length s) s.

End Uri.

(** ** agents/SecurityAgent.js : SecurityAgent *)

Module SecurityAgent.
Import Config Regex.

(** [THREAT_PATTERNS], of which [analyzeRequest] uses four. The first two
    carry the [i] flag. Code unit 34 is the double quote, 96 the backtick. *)
Definition SQL_INJECTION : Regex.t :=
  alt (Lit (ch "'"))
    [Lit 34; Lit (ch ";"); str "--";
     Cat WordBoundary
       (Cat (alt (str "SELECT")
               [str "INSERT"; str "UPDATE"; str "DELETE"; str "DROP";
                str "UNION"; str "ALTER"; str "EXEC"; str "EXECUTE"])
          WordBoundary)].

Definition XSS_ATTEMPT : Regex.t :=
  alt (str "<script")
    [str "javascript:";
     Cat (str "on") (Cat (Plus (Class is_word))
                       (Cat (Star (Class is_space)) (Lit (ch "="))));
     str "<iframe"; str "<object"; str "<embed"].

Definition PATH_TRAVERSAL : Regex.t := str "../".

Definition COMMAND_INJECTION : Regex.t :=
  alt (Lit (ch "|")) [Lit (ch ";"); Lit 96; str "$("; str "&&"].

(** A JavaScript value, as a request body holds it. An object, or an array,
    is the list of its own properties in the order of [Object.values]. *)
#[warnings="-register-all"]
Inductive Value : Type :=
| VUndefined
| VNull
| VBool (b : bool)
| VNumber (n : Q)
| VString (s : jsstring)
| VObject (props : list (string * Value)).

(** A string is truthy when it is not empty. *)
Definition truthy (m : option jsstring) : option jsstring :=
  match m with
  | Some (c :: s) => Some (c :: s)
  | _ => None
  end.

(** The loop [for (const value of Object.values(body))] with a check that
    returns a match or nothing: the first match wins. *)
Definition firstValue (check : Value → option jsstring)
  : list (string * Value) → option jsstring :=
  fix values (props : list (string * Value)) : option jsstring :=
    match props with
    | [] => None
    | (_, value) :: others =>
        match check value with
        | Some m => Some m
        | None => values others
        end
    end.

(** [detectSQLInjection(path, body)]: the path first, then the values of the
    body, strings by the signature and objects (and [null]) by a recursive
    call with the empty path. *)
Fixpoint detectSQLInjection (path : jsstring) (body : Value) {struct body}
  : option jsstring :=
  match truthy (match_ true SQL_INJECTION path) with
  | Some pathMatch => Some pathMatch
  | None =>
      match body with
      | VObject props =>
          firstValue
            (λ value,
               match value with
               | VString text => truthy (match_ true SQL_INJECTION text)
               | VObject _ | VNull => truthy (detectSQLInjection [] value)
               | _ => None
               end) props
      | _ => None
      end
  end.

(** The check of [detectXSS] and [detectCommandInjection] on a value of the
    body: strings only, no recursion. *)
Definition stringMatch (ignoreCase : bool) (r : Regex.t) (value : Value)
  : option jsstring :=
  match value with
  | VString text => truthy (match_ ignoreCase r text)
  | _ => None
  end.

(** [detectXSS(path, body)]; it throws when [decodeURIComponent] does. *)
Definition detectXSS (path : jsstring) (body : Value)
  : Js.result (option jsstring) :=
  match Uri.decodeURIComponent path with
  | None => Js.Throw "URI malformed"
  | Some decoded =>
      match truthy (match_ true XSS_ATTEMPT decoded) with
      | Some pathMatch => Js.Ok (Some pathMatch)
      | None =>
          match body with
          | VObject props => Js.Ok (firstValue (stringMatch true XSS_ATTEMPT) props)
          | _ => Js.Ok None
          end
      end
  end.

(** [detectCommandInjection(body)] *)
Definition detectCommandInjection (body : Value) : option jsstring :=
  match body with
  | VObject props => firstValue (stringMatch false COMMAND_INJECTION) props
  | _ => None
  end.

(** A detected threat, as passed to [handleThreat]. *)
Record Threat : Type := mkThreat
  { threat_type : string;
    threat_ip : string;
    threat_path : option jsstring;
    threat_payload : option jsstring;
    threat_userId : option string;
    threat_email : option string;
    threat_severity : Severity }.

(** The incident object: [{ id, ...threat, timestamp, mitigationAction,
    blocked }]. *)
Record Incident : Type := mkIncident
  { inc_id : string;
    inc_threat : Threat;
    inc_timestamp : Z;
    inc_mitigationAction : option string;
    inc_blocked : bool }.

Inductive Payload : Type :=
| MitigationEvent (action ip : string) (duration : Z)
| ThreatEvent (incident : Incident).

(** What the agent does to the outside, in order. The calls are taken to
    return. *)
Inductive Effect : Type :=
| RedisSet (key : string) (ttl : option Z)
| Publish (channel : string) (payload : Payload)
| LockAccount (userId : string)
| StoreIncident (incident : Incident)
| CreateAlert (alertType : string) (data : AlertManager.AlertData)
| RecordMetric (name : string) (value : Q) (options : MetricsStore.RecordOptions).

Record LoginAttempt : Type := mkLoginAttempt
  { attempt_timestamp : Z;
    attempt_userId : option string;
    attempt_email : option string }.

Record t : Type := mk
  { db : bool;       (* [this.db] is set *)
    redis : bool;    (* [this.redis] is set *)
    failedLogins : gmap string (list LoginAttempt);
    blockedIPs : gset string;
    loginLimiter : RateLimiter.t;
    effects : list Effect }.

Section WithConfig.

Variable cfg : Config.t.

(** [new SecurityAgent()], then [initialize({ db, redis })] with no blocked
    address to load. *)
Definition new (hasDb hasRedis : bool) : t :=
  {| db := hasDb; redis := hasRedis; failedLogins := ∅; blockedIPs := ∅;
     loginLimiter :=
       RateLimiter.new (security_maxFailedLogins cfg) (security_lockoutDuration cfg);
     effects := [] |}.

Definition emit (ag : t) (es : list Effect) : t :=
  {| db := db ag; redis := redis ag; failedLogins := failedLogins ag;
     blockedIPs := blockedIPs ag; loginLimiter := loginLimiter ag;
     effects := effects ag ++ es |}.

(** [blockIP(ip, duration)] *)
Definition blockIP (ag : t) (ip : string) (duration : Z) : t :=
  let ag :=
    {| db := db ag; redis := redis ag; failedLogins := failedLogins ag;
       blockedIPs := {[ip]} ∪ blockedIPs ag; loginLimiter := loginLimiter ag;
       effects := effects ag |} in
  emit ag
    ((if redis ag then
        [RedisSet ("blocked:ip:" +:+ ip)
           (if bool_decide (0 < duration) then Some duration else None)]
      else [])
     ++ [Publish EventBus.CHANNELS.MITIGATION (MitigationEvent "BLOCK_IP" ip duration)]).

(** [throttleIP(ip)] *)
Definition throttleIP (ag : t) (ip : string) : t :=
  emit ag
    (if redis ag then
       [RedisSet ("throttle:ip:" +:+ ip) (Some (security_lockoutDuration cfg))]
     else []).

(** [lockAccount(userId)] *)
Definition lockAccount (ag : t) (userId : string) : t :=
  emit ag (if db ag then [LockAccount userId] else []).

(** The [switch] of [handleThreat]: the mitigation, the agent after it, and
    whether the incident counts as blocked. *)
Definition mitigate (ag : t) (threat : Threat) : t * option string * bool :=
  let type := threat_type threat in
  if bool_decide (type = "SQL_INJECTION") || bool_decide (type = "COMMAND_INJECTION")
  then (blockIP ag (threat_ip threat) 0, Some "BLOCK_IP_PERMANENT", true)
  else if bool_decide (type = "XSS_ATTEMPT") || bool_decide (type = "PATH_TRAVERSAL")
  then (blockIP ag (threat_ip threat) (security_ipBlockDuration cfg),
        Some "BLOCK_IP_24H", true)
  else if bool_decide (type = "BRUTE_FORCE") then
    let ag := blockIP ag (threat_ip threat) (security_lockoutDuration cfg) in
    let ag :=
      match threat_userId threat with
      | Some userId => if bool_decide (userId = "") then ag else lockAccount ag userId
      | None => ag
      end in
    (ag, Some "BLOCK_IP_1H", true)
  else if bool_decide (type = "RATE_LIMIT_ABUSE") then
    (throttleIP ag (threat_ip threat), Some "THROTTLE_IP", false)
  else (ag, None, false).

(** [handleThreat(threat)]: [newId] is the identifier drawn for the
    incident. The alert carries the incident as its metadata, of which the
    identifier, the type and the address are kept here. *)
Definition handleThreat (ag : t) (threat : Threat) (newId : string) (now : Z)
  : t * Incident :=
  let '(ag, mitigationAction, blocked) := mitigate ag threat in
  let incident :=
    {| inc_id := newId; inc_threat := threat; inc_timestamp := now;
       inc_mitigationAction := mitigationAction; inc_blocked := blocked |} in
  (emit ag
     ((if db ag then [StoreIncident incident] else [])
      ++ [Publish EventBus.CHANNELS.THREAT_DETECTED (ThreatEvent incident);
          CreateAlert alertTypes.SECURITY_THREAT
            {| AlertManager.data_component := Some "security";
               AlertManager.data_message :=
                 Some ("Security threat detected: " +:+ threat_type threat
                       +:+ " from " +:+ threat_ip threat);
               AlertManager.data_severity := Some (threat_severity threat);
               AlertManager.data_threshold := None;
               AlertManager.data_value := None;
               AlertManager.data_metadata :=
                 [("id", newId); ("type", threat_type threat);
                  ("ip", threat_ip threat)] |};
          RecordMetric "security_incidents" 1
            {| MetricsStore.opt_unit := None;
               MetricsStore.opt_component := Some "security";
               MetricsStore.opt_tags := Some [("type", threat_type threat)];
               MetricsStore.opt_severity := None |}]),
   incident).

(** The request, as [analyzeRequest] reads it. *)
Record Request : Type := mkRequest
  { ip : string;
    path : jsstring;
    method : string;
    body : Value;
    userId : option string }.

(** What [analyzeRequest] returns. *)
Record Verdict : Type := mkVerdict
  { blocked : bool;
    reason : option string;
    threatType : option string }.

Definition threatOf (request : Request) (type : string)
    (payload : option jsstring) (severity : Severity) : Threat :=
  {| threat_type := type; threat_ip := ip request;
     threat_path := Some (path request); threat_payload := payload;
     threat_userId := userId request; threat_email := None;
     threat_severity := severity |}.

(** [analyzeRequest(request)] *)
Definition analyzeRequest (ag : t) (request : Request) (newId : string) (now : Z)
  : t * Js.result Verdict :=
  if bool_decide (ip request ∈ blockedIPs ag) then
    (ag, Js.Ok (mkVerdict true (Some "IP is blocked") (Some "BLOCKED_IP")))
  else
    match detectSQLInjection (path request) (body request) with
    | Some sqlInjection =>
        ((handleThreat ag
            (threatOf request "SQL_INJECTION" (Some sqlInjection) CRITICAL)
            newId now).1,
         Js.Ok (mkVerdict true (Some "SQL injection detected") (Some "SQL_INJECTION")))
    | None =>
        match detectXSS (path request) (body request) with
        | Js.Throw message => (ag, Js.Throw message)
        | Js.Ok (Some xssAttempt) =>
            ((handleThreat ag
                (threatOf request "XSS_ATTEMPT" (Some xssAttempt) HIGH) newId now).1,
             Js.Ok (mkVerdict true (Some "XSS attempt detected") (Some "XSS_ATTEMPT")))
        | Js.Ok None =>
            if test false PATH_TRAVERSAL (path request) then
              ((handleThreat ag (threatOf request "PATH_TRAVERSAL" None HIGH)
                  newId now).1,
               Js.Ok (mkVerdict true (Some "Path traversal detected")
                        (Some "PATH_TRAVERSAL")))
            else
              match detectCommandInjection (body request) with
              | Some cmdInjection =>
                  ((handleThreat ag
                      (threatOf request "COMMAND_INJECTION" (Some cmdInjection)
                         CRITICAL) newId now).1,
                   Js.Ok (mkVerdict true (Some "Command injection detected")
                            (Some "COMMAND_INJECTION")))
              | None => (ag, Js.Ok (mkVerdict false None None))
              end
        end
    end.

(** [recordFailedLogin(ip, userId, email)] *)
Definition recordFailedLogin (ag : t) (address : string)
    (user email : option string) (newId : string) (now : Z) : t :=
  let ipKey := "login:" +:+ address in
  let attempts :=
    default [] (failedLogins ag !! ipKey)
    ++ [{| attempt_timestamp := now; attempt_userId := user;
           attempt_email := email |}] in
  let '(allowed, limiter) := RateLimiter.isAllowed (loginLimiter ag) address now in
  let ag :=
    {| db := db ag; redis := redis ag;
       failedLogins := <[ipKey := attempts]> (failedLogins ag);
       blockedIPs := blockedIPs ag; loginLimiter := limiter;
       effects := effects ag |} in
  let ag :=
    if allowed then ag
    else
      (handleThreat ag
         {| threat_type := "BRUTE_FORCE"; threat_ip := address;
            threat_path := None; threat_payload := None;
            threat_userId := user; threat_email := email;
            threat_severity := HIGH |} newId now).1 in
  emit ag
    [RecordMetric "failed_logins" 1
       {| MetricsStore.opt_unit := None;
          MetricsStore.opt_component := Some "security";
          MetricsStore.opt_tags := Some [("ip", address)];
          MetricsStore.opt_severity := None |}].

(** One failed login, by the arguments of the call, the identifier it may
    draw and its clock reading. *)
Record Login : Type := mkLogin
  { login_userId : option string;
    login_email : option string;
    login_newId : string;
    login_now : Z }.

Definition recordFailedLogins (ag : t) (address : string) (logins : list Login)
  : t :=
  foldl (λ ag l, recordFailedLogin ag address (login_userId l) (login_email l)
                   (login_newId l) (login_now l)) ag logins.

End WithConfig.





(** One step of the agent only adds to the block list and to the effects. *)
Definition grows (ag ag' : t) : Prop :=
  blockedIPs ag ⊆ blockedIPs ag'
  ∧ db ag' = db ag
  ∧ ∃ es, effects ag' = effects ag ++ es.








End SecurityAgent.

(** ** utils/helpers.js : retry

    [retry(fn, options)] calls [fn] up to [maxRetries] times with exponential
    backoff. The calls of [fn] are given by their outcomes, attempt by
    attempt; [onRetry] and [sleep] are taken to return and are recorded in
    the trace. *)

Module Retry.

Record Options : Type := mkOptions
  { maxRetries : Z;
    initialDelay : Q;
    maxDelay : Q;
    factor : Q }.

(** The defaults of the destructuring: [3], [1000], [30000], [2]. *)
Definition defaultOptions : Options :=
  {| maxRetries := 3; initialDelay := 1000; maxDelay := 30000; factor := 2 |}.

(** What [retry] does, in order. *)
Inductive Event : Type :=
| Called (attempt : Z)
| OnRetry (error : string) (attempt : Z)
| Slept (ms : Q).

(** How [retry] ends: with the value of [fn], or by throwing [lastError],
    which is [undefined] when the loop made no attempt. *)
Inductive Outcome (A : Type) : Type :=
| Returned (a : A)
| Rethrown (error : string)
| ThrewUndefined.
Arguments Returned {A} a.
Arguments Rethrown {A} error.
Arguments ThrewUndefined {A}.

Section Loop.
Context {A : Type}.

(** [fn attempt]: how the call of [fn] made by attempt number [attempt]
    settles. *)
Variable fn : Z → Js.result A.
Variable options : Options.

(** [Math.min(delay, maxDelay)] *)
Definition capped (delay : Q) : Q :=
  if Qle_bool delay (maxDelay options) then delay else maxDelay options.

(** The [for] loop from [attempt] on, [remaining] being the number of
    iterations left until [attempt] exceeds [maxRetries]. *)
Fixpoint loop (remaining : nat) (attempt : Z) (delay : Q)
    (lastError : option string) : list Event * Outcome A :=
  match remaining with
  | O =>
      ([], match lastError with
           | Some error => Rethrown error
           | None => ThrewUndefined
           end)
  | S remaining' =>
      match fn attempt with
      | Js.Ok a => ([Called attempt], Returned a)
      | Js.Throw error =>
          if bool_decide (attempt < maxRetries options) then
            let '(trace, outcome) :=
              loop remaining' (attempt + 1) (delay * factor options)%Q (Some error) in
            (Called attempt :: OnRetry error attempt :: Slept (capped delay) :: trace,
             outcome)
          else
            let '(trace, outcome) :=
              loop remaining' (attempt + 1) delay (Some error) in
            (Called attempt :: trace, outcome)
      end
  end.

(** [retry(fn, options)] *)
Definition retry : list Event * Outcome A :=
  loop (Z.to_nat (maxRetries options)) 1 (initialDelay options) None.

(** The call of [fn] made by the attempt fails. *)
Definition throws (attempt : Z) : Prop := ∃ error, fn attempt = Js.Throw error.

End Loop.

(** The calls of [fn] in a trace, and the pauses. *)
Definition calls (trace : list Event) : list Z :=
  omap (λ e, match e with Called attempt => Some attempt | _ => None end) trace.

Definition pauses (trace : list Event) : list Q :=
  omap (λ e, match e with Slept ms => Some ms | _ => None end) trace.

(** A function that fails on its first two calls and then answers. *)
Definition thirdTimeLucky (attempt : Z) : Js.result string :=
  if bool_decide (attempt < 3) then Js.Throw "ECONNRESET" else Js.Ok "pong".

End Retry.

(** ** utils/helpers.js : CircuitBreaker *)

Module CircuitBreaker.

Inductive State : Type := CLOSED | OPEN | HALF_OPEN.

#[global] Instance State_eq_dec : EqDecision State.
Proof. solve_decision. Defined.

Record t : Type := mk
  { failureThreshold : Z;
    resetTimeout : Z;
    state : State;
    failures : Z;
    lastFailure : option Z;
    successCount : Z }.

(** [options.x || d] for a number. *)
Definition num_or (o : option Z) (d : Z) : Z :=
  match o with
  | Some n => if bool_decide (n = 0) then d else n
  | None => d
  end.

(** [new CircuitBreaker(options)] *)
Definition new (failureThreshold resetTimeout : option Z) : t :=
  {| failureThreshold := num_or failureThreshold 5;
     resetTimeout := num_or resetTimeout 30000;
     state := CLOSED;
     failures := 0;
     lastFailure := None;
     successCount := 0 |}.

Definition set_state (cb : t) (s : State) : t :=
  {| failureThreshold := failureThreshold cb; resetTimeout := resetTimeout cb;
     state := s; failures := failures cb; lastFailure := lastFailure cb;
     successCount := successCount cb |}.

(** [recordFailure()], [now] being its clock reading. *)
Definition recordFailure (cb : t) (now : Z) : t :=
  let failures' := failures cb + 1 in
  {| failureThreshold := failureThreshold cb; resetTimeout := resetTimeout cb;
     state := if bool_decide (failureThreshold cb ≤ failures') then OPEN else state cb;
     failures := failures';
     lastFailure := Some now;
     successCount := successCount cb |}.

(** [reset()] *)
Definition reset (cb : t) : t :=
  {| failureThreshold := failureThreshold cb; resetTimeout := resetTimeout cb;
     state := CLOSED; failures := 0; lastFailure := None; successCount := 0 |}.

(** The entry check of [execute] (lines 365-371): the breaker to go on with,
    or [None] when the call is refused. In [Date.now() - this.lastFailure] a
    [null] counts as [0]. *)
Definition entry (cb : t) (now : Z) : option t :=
  if bool_decide (state cb = OPEN) then
    if bool_decide (resetTimeout cb < now - default 0 (lastFailure cb))
    then Some (set_state cb HALF_OPEN)
    else None
  else Some cb.

(** The bookkeeping after [fn] returned (lines 376-381). *)
Definition recordSuccess (cb : t) : t :=
  if bool_decide (state cb = HALF_OPEN) then
    let successCount' := successCount cb + 1 in
    let cb :=
      {| failureThreshold := failureThreshold cb; resetTimeout := resetTimeout cb;
         state := state cb; failures := failures cb; lastFailure := lastFailure cb;
         successCount := successCount' |} in
    if bool_decide (3 ≤ successCount') then reset cb else cb
  else cb.

(** [execute(fn)]: [fn] is given by how its call settles if it is made, [now]
    is the clock reading on entry, [later] the one of [recordFailure]. The
    result tells whether [fn] was called. *)
Definition execute {A : Type} (cb : t) (fn : Js.result A) (now later : Z)
  : t * bool * Js.result A :=
  match entry cb now with
  | None => (cb, false, Js.Throw "Circuit breaker is OPEN")
  | Some cb =>
      match fn with
      | Js.Ok a => (recordSuccess cb, true, Js.Ok a)
      | Js.Throw error => (recordFailure cb later, true, Js.Throw error)
      end
  end.

(** [getState()] *)
Definition getState (cb : t) : State * Z * option Z :=
  (state cb, failures cb, lastFailure cb).

(** One call of [execute], by the outcome of [fn] and the two clock
    readings. *)
Record Call (A : Type) : Type := mkCall
  { call_fn : Js.result A;
    call_now : Z;
    call_later : Z }.
Arguments mkCall {A} call_fn call_now call_later.
Arguments call_fn {A} c.
Arguments call_now {A} c.
Arguments call_later {A} c.

Definition run {A : Type} (cb : t) (calls : list (Call A)) : t :=
  foldl (λ cb c, (execute cb (call_fn c) (call_now c) (call_later c)).1.1) cb calls.

(** Whether [fn] fails in a call. *)
Definition fails {A : Type} (c : Call A) : bool :=
  match call_fn c with Js.Throw _ => true | Js.Ok _ => false end.

(** How many of the calls fail. *)
Definition failed {A : Type} (calls : list (Call A)) : Z :=
  Z.of_nat (length (filter (λ c, fails c = true) calls)).

(** What holds of a breaker with a positive threshold at any time: it is
    closed exactly when fewer failures than the threshold are on record, and
    the count of half-open successes stays below three. *)
Definition consistent (cb : t) : Prop :=
  0 < failureThreshold cb
  ∧ (state cb = CLOSED ↔ failures cb < failureThreshold cb)
  ∧ 0 ≤ failures cb
  ∧ 0 ≤ successCount cb ≤ 2.

(** The call is refused at [now]: the breaker is open and the reset timeout
    has not passed since the last failure. *)
Definition refused (cb : t) (now : Z) : Prop :=
  state cb = OPEN ∧ now - default 0 (lastFailure cb) ≤ resetTimeout cb.

(** [n] calls in which [fn] returns, at the given clock readings. *)
Definition successes (times : list Z) : list (Call string) :=
  (λ now, mkCall (Js.Ok "ok") now now) <$> times.

(** Five failed calls, one per millisecond, and the breaker with the default
    options after them. *)
Definition fiveFailures : list (Call string) :=
  (λ i, mkCall (Js.Throw "ETIMEDOUT") (Z.of_nat i) (Z.of_nat i)) <$> seq 1 5.

Definition afterFiveFailures : t := run (new None None) fiveFailures.

(** The step that closes the cases of a proof of [consistent]. *)
Ltac consistency :=
  split_and!; first [lia | done | split; intros; first [lia | done | congruence]].

End CircuitBreaker.

(** ** utils/helpers.js : truncate *)

Module Text.
Import Regex.

(** [str.substring(0, n)] for an integer [n]: a negative [n] counts as 0. *)
Definition substring0 (str : jsstring) (n : Z) : jsstring :=
  take (Z.to_nat n) str.

(** [truncate(str, maxLength = 100)] *)
Definition truncate (str : jsstring) (maxLength : Z) : jsstring :=
  if bool_decide (Z.of_nat (length str) ≤ maxLength) then str
  else substring0 str (maxLength - 3) ++ js "...".

End Text.

(** ** shared/MetricsStore.js : a store to evaluate the statistics on *)

Module MetricsExamples.
Import MetricsStore.

(** Three response times recorded under one name. *)
Definition threeSamples : t :=
  record_all new
    [{| call_name := "api_response_time"; call_value := 120;
        call_options := noOptions; call_id := "m-1"; call_now := 10 |};
     {| call_name := "api_response_time"; call_value := 80;
        call_options := noOptions; call_id := "m-2"; call_now := 20 |};
     {| call_name := "api_response_time"; call_value := 450;
        call_options := noOptions; call_id := "m-3"; call_now := 30 |}].

End MetricsExamples.

(** ** shared/EventBus.js : the history of the bus *)

Module EventBusQueries.
Import EventBus.

(** [array.slice(-limit)]: the last [limit] elements for a positive [limit],
    the whole array for [slice(-0)], and the array from the index [-limit] on
    for a negative [limit]. *)
Definition slice_last {A : Type} (limit : Z) (l : list A) : list A :=
  if bool_decide (0 < limit) then drop (length l - Z.to_nat limit) l
  else drop (Z.to_nat (- limit)) l.

Section Bus.
Context {Payload W : Type}.

(** [getHistory(channel = null, limit = 100)]: an argument left out is
    [None]; the empty string is falsy as a channel. *)
Definition getHistory (bus : t Payload W) (channel : option string)
    (limit : option Z) : list (Event Payload) :=
  let history :=
    match channel with
    | Some c =>
        if bool_decide (c = "") then eventHistory bus
        else filter (λ event, ev_channel event = c) (eventHistory bus)
    | None => eventHistory bus
    end in
  slice_last (default 100 limit) history.

(** [clearHistory()] *)
Definition clearHistory (bus : t Payload W) : t Payload W :=
  {| subscriptions := subscriptions bus; listeners := listeners bus;
     eventHistory := []; maxHistorySize := maxHistorySize bus |}.

(** The history holds no more than [maxHistorySize] events. *)
Definition bounded (bus : t Payload W) : Prop :=
  (length (eventHistory bus) ≤ maxHistorySize bus)%nat.

(** No subscription is stored under the identifier. *)
Definition unused (bus : t Payload W) (subscriptionId : string) : Prop :=
  map_get (subscriptions bus) subscriptionId = None.

End Bus.

(** An [async] handler over a log of received event ids, as the agents
    subscribe them. *)
Definition logging (name : string) : Handler string (list string) :=
  {| fn_id := name; is_async := true;
     body := λ ev now w, Returned (w ++ [name +:+ ":" +:+ ev_id ev]) |}.

End EventBusQueries.

(** ** shared/AlertManager.js : queries, notifications and cleanup *)

Module AlertQueries.
Import Config AlertManager.

(** The [options] of [getActiveAlerts]; a property left out is [None]. *)
Record ActiveOptions : Type := mkActiveOptions
  { act_severity : option Severity;
    act_component : option string;
    act_limit : option Z }.

Definition defaultActive : ActiveOptions :=
  {| act_severity := None; act_component := None; act_limit := None |}.

(** [severityOrder] *)
Definition severityOrder (s : Severity) : Z :=
  match s with
  | CRITICAL => 0
  | HIGH => 1
  | MEDIUM => 2
  | LOW => 3
  | INFO => 4
  end.

(** The comparator of the sort: by severity, then the newest first. *)
Definition compareAlerts (a b : Alert) : Z :=
  let severityDiff :=
    severityOrder (alert_severity a) - severityOrder (alert_severity b) in
  if bool_decide (severityDiff ≠ 0) then severityDiff
  else alert_createdAt b - alert_createdAt a.

(** [Array.prototype.sort] is stable: elements that compare equal keep their
    order. An insertion sort that puts an element before the first one it
    does not compare greater than is such a sort. *)
Fixpoint insert_by {A : Type} (compare : A → A → Z) (x : A) (sorted : list A)
  : list A :=
  match sorted with
  | [] => [x]
  | y :: rest =>
      if bool_decide (compare x y ≤ 0) then x :: y :: rest
      else y :: insert_by compare x rest
  end.

Definition sort_by {A : Type} (compare : A → A → Z) (arr : list A) : list A :=
  foldr (insert_by compare) [] arr.

(** [array.slice(0, limit)]: a negative [limit] counts from the end. *)
Definition slice_first {A : Type} (limit : Z) (l : list A) : list A :=
  if bool_decide (0 ≤ limit) then take (Z.to_nat limit) l
  else take (length l - Z.to_nat (- limit)) l.

(** The filters of [getActiveAlerts]: unresolved, of the severity and of the
    component when these are given (the empty string is falsy). *)
Definition selected (options : ActiveOptions) (alert : Alert) : Prop :=
  alert_resolved alert = false
  ∧ (∀ s, act_severity options = Some s → alert_severity alert = s)
  ∧ (∀ c, act_component options = Some c → c ≠ "" → alert_component alert = c).

(** [getActiveAlerts(options = {})] *)
Definition getActiveAlerts (am : t) (options : ActiveOptions) : list Alert :=
  let alerts := filter (λ alert, alert_resolved alert = false) (alerts am).*2 in
  let alerts :=
    match act_severity options with
    | Some severity => filter (λ alert, alert_severity alert = severity) alerts
    | None => alerts
    end in
  let alerts :=
    match act_component options with
    | Some component =>
        if bool_decide (component = "") then alerts
        else filter (λ alert, alert_component alert = component) alerts
    | None => alerts
    end in
  slice_first (default 100 (act_limit options)) (sort_by compareAlerts alerts).

(** The alerts that pass the filters, in the order of the store. *)
Definition candidates (am : t) (options : ActiveOptions) : list Alert :=
  let alerts := filter (λ alert, alert_resolved alert = false) (alerts am).*2 in
  let alerts :=
    match act_severity options with
    | Some severity => filter (λ alert, alert_severity alert = severity) alerts
    | None => alerts
    end in
  match act_component options with
  | Some component =>
      if bool_decide (component = "") then alerts
      else filter (λ alert, alert_component alert = component) alerts
  | None => alerts
  end.

(** [a] comes no later than [b] in the listing. *)
Definition before (a b : Alert) : Prop := compareAlerts a b ≤ 0.

(** [cleanup(retentionDays)]: [cutoff] is the date that [setDate] computes,
    [retentionDays] days before now. An alert goes when it is resolved and
    was resolved before the cutoff. *)
Definition expired (cutoff : Z) (alert : Alert) : bool :=
  alert_resolved alert
  && match alert_resolvedAt alert with
     | Some resolvedAt => bool_decide (resolvedAt < cutoff)
     | None => false
     end.

Definition cleanup (am : t) (cutoff : Z) : t * Z :=
  (set_alerts am (filter (λ entry, expired cutoff entry.2 = false) (alerts am)),
   Z.of_nat (length (filter (λ entry, expired cutoff entry.2 = true) (alerts am)))).

(** *** The notification queue

    [config.notifications]: which channels are enabled. *)
Record Channels : Type := mkChannels
  { slack_enabled : bool;
    pagerDuty_enabled : bool;
    email_enabled : bool }.

(** An item of the queue: the alert object and the attempts made. *)
Record Item : Type := mkItem
  { item_alert : Alert;
    item_attempts : Z }.

(** The requests made and the lines logged for the e-mail channel, in order;
    [ok] tells whether the request was answered with a success status. *)
Inductive Sent : Type :=
| SlackPost (alertId : string) (ok : bool)
| PagerDutyPost (alertId : string) (ok : bool)
| EmailLogged (alertId : string).

Section Processor.

Variable channels : Channels.

(** [responds n]: whether the [n]-th request made is answered with a success
    status; a request that is rejected or answered with another status makes
    the sender throw. *)
Variable responds : nat → bool.

(** [sendSlackNotification(alert)]: what was sent, the number of requests
    made so far, and whether the method returned (rather than threw). *)
Definition sendSlackNotification (alert : Alert) (n : nat) : list Sent * nat * bool :=
  if slack_enabled channels then ([SlackPost (alert_id alert) (responds n)], S n, responds n)
  else ([], n, true).

(** [sendPagerDutyNotification(alert)] *)
Definition sendPagerDutyNotification (alert : Alert) (n : nat)
  : list Sent * nat * bool :=
  if pagerDuty_enabled channels then
    ([PagerDutyPost (alert_id alert) (responds n)], S n, responds n)
  else ([], n, true).

(** [sendEmailNotification(alert)] *)
Definition sendEmailNotification (alert : Alert) : list Sent :=
  if email_enabled channels then [EmailLogged (alert_id alert)] else [].

(** The [try] block of [processNotifications] for one item. *)
Definition notify (alert : Alert) (n : nat) : list Sent * nat * bool :=
  let '(sent, n, returned) :=
    if bool_decide (alert_severity alert = CRITICAL) then
      let '(slack, n, returned) := sendSlackNotification alert n in
      if returned then
        let '(pager, n, returned) := sendPagerDutyNotification alert n in
        (slack ++ pager, n, returned)
      else (slack, n, false)
    else if bool_decide (alert_severity alert = HIGH) then
      sendSlackNotification alert n
    else ([], n, true) in
  if returned then
    (sent ++ (if email_enabled channels then sendEmailNotification alert else []),
     n, true)
  else (sent, n, false).

(** The queue after one round of the loop. *)
Definition requeue (item : Item) (rest : list Item) (returned : bool) : list Item :=
  if returned then rest
  else if bool_decide (item_attempts item < 3) then
    rest ++ [{| item_alert := item_alert item;
                item_attempts := item_attempts item + 1 |}]
  else rest.

(** [processNotifications()] on a queue to which nothing is added while it
    runs: [None] when the fuel runs out before the queue is empty. *)
Fixpoint processNotifications (fuel : nat) (queue : list Item) (n : nat)
  : option (list Sent * nat) :=
  match queue with
  | [] => Some ([], n)
  | item :: rest =>
      match fuel with
      | O => None
      | S fuel' =>
          let '(sent, n', returned) := notify (item_alert item) n in
          match processNotifications fuel' (requeue item rest returned) n' with
          | Some (more, n'') => Some (sent ++ more, n'')
          | None => None
          end
      end
  end.

End Processor.

(** The rounds an item can still take: one per attempt left. *)
Definition rounds (item : Item) : nat :=
  if bool_decide (item_attempts item < 3) then Z.to_nat (4 - item_attempts item) else 1.

Definition budget (queue : list Item) : nat := sum_list_with rounds queue.

(** The requests of the trace that went to Slack. *)
Definition slackPosts (sent : list Sent) : list string :=
  omap (λ s, match s with SlackPost alertId _ => Some alertId | _ => None end) sent.

Definition pagerDutyPosts (sent : list Sent) : list string :=
  omap (λ s, match s with PagerDutyPost alertId _ => Some alertId | _ => None end) sent.

(** Every channel enabled. *)
Definition allChannels : Channels :=
  {| slack_enabled := true; pagerDuty_enabled := true; email_enabled := true |}.

(** An endpoint-down alert, which is critical. *)
Definition apiDown : Alert :=
  newAlert alertTypes.API_DOWN
    {| data_component := Some "api"; data_message := None; data_severity := None;
       data_threshold := None; data_value := None; data_metadata := [] |} "a-9" 10.

End AlertQueries.

(** ** agents/SecurityAgent.js : the periodic scan and the block list *)

Module SecurityScan.
Import Config Regex SecurityAgent.

(** [str.replace(needle, '')] for a string [needle]: the first occurrence
    goes. *)
Fixpoint remove_first (needle s : string) : string :=
  if String.prefix needle s then
    String.substring (String.length needle)
      (String.length s - String.length needle) s
  else
    match s with
    | EmptyString => EmptyString
    | String c rest => String c (remove_first needle rest)
    end.

(** One entry met by the loop of [detectBruteForce]: the key, and the
    identifier and the clock reading of the incident if one is raised. *)
Record ScanEntry : Type := mkScanEntry
  { scan_key : string;
    scan_newId : string;
    scan_stamp : Z }.

Section WithConfig.

Variable cfg : Config.t.

(** The body of the loop of [detectBruteForce] for one key of
    [failedLogins], [now] being the clock reading made before the loop. *)
Definition scanKey (ag : t) (entry : ScanEntry) (now : Z) : t :=
  match failedLogins ag !! scan_key entry with
  | None => ag
  | Some attempts =>
      let recentAttempts :=
        filter (λ a, now - attempt_timestamp a < security_lockoutDuration cfg)
          attempts in
      let ag :=
        {| db := db ag; redis := redis ag;
           failedLogins := <[scan_key entry := recentAttempts]> (failedLogins ag);
           blockedIPs := blockedIPs ag; loginLimiter := loginLimiter ag;
           effects := effects ag |} in
      if bool_decide (security_maxFailedLogins cfg ≤ Z.of_nat (length recentAttempts))
      then
        let address := remove_first "login:" (scan_key entry) in
        if bool_decide (address ∈ blockedIPs ag) then ag
        else
          (handleThreat cfg ag
             {| threat_type := "BRUTE_FORCE"; threat_ip := address;
                threat_path := None; threat_payload := None;
                threat_userId := None; threat_email := None;
                threat_severity := HIGH |}
             (scan_newId entry) (scan_stamp entry)).1
      else ag
  end.

(** [detectBruteForce()]: [entries] lists the keys of [failedLogins] in the
    order of the map. *)
Definition detectBruteForce (ag : t) (entries : list ScanEntry) (now : Z) : t :=
  foldl (λ ag entry, scanKey ag entry now) ag entries.

(** [cleanupExpiredBlocks()]: [redisKeys] is what [redis.keys] answers,
    [now] the clock reading of the limiter's cleanup. Without Redis the
    method returns at once. *)
Definition cleanupExpiredBlocks (ag : t) (redisKeys : list string) (now : Z) : t :=
  if redis ag then
    let currentBlocked := remove_first "blocked:ip:" <$> redisKeys in
    {| db := db ag; redis := redis ag; failedLogins := failedLogins ag;
       blockedIPs := filter (λ address, address ∈ currentBlocked) (blockedIPs ag);
       loginLimiter := RateLimiter.cleanup (loginLimiter ag) now;
       effects := effects ag |}
  else ag.

(** [runSecurityScan()] *)
Definition runSecurityScan (ag : t) (entries : list ScanEntry)
    (redisKeys : list string) (now later : Z) : t :=
  let ag := detectBruteForce ag entries now in
  let ag := cleanupExpiredBlocks ag redisKeys later in
  emit ag
    [RecordMetric "blocked_ips" (inject_Z (Z.of_nat (size (blockedIPs ag))))
       {| MetricsStore.opt_unit := None;
          MetricsStore.opt_component := Some "security";
          MetricsStore.opt_tags := None;
          MetricsStore.opt_severity := None |}].

(** [isIPBlocked(ip)] *)
Definition isIPBlocked (ag : t) (address : string) : bool :=
  bool_decide (address ∈ blockedIPs ag).

(** One call on the agent. *)
Inductive Op : Type :=
| Analyze (request : Request) (newId : string) (now : Z)
| FailedLogin (address : string) (user email : option string) (newId : string)
    (now : Z)
| Scan (entries : list ScanEntry) (redisKeys : list string) (now later : Z).

Definition step (ag : t) (o : Op) : t :=
  match o with
  | Analyze request newId now => (analyzeRequest cfg ag request newId now).1
  | FailedLogin address user email newId now =>
      recordFailedLogin cfg ag address user email newId now
  | Scan entries redisKeys now later =>
      runSecurityScan ag entries redisKeys now later
  end.

Definition run (ag : t) (ops : list Op) : t := foldl step ag ops.

End WithConfig.

(** From [ag] to [ag'] the agent only added to its block list and to its
    effects, and kept its connections. *)
Definition keeps (ag ag' : t) : Prop :=
  grows ag ag' ∧ redis ag' = redis ag.

(** The attempts on record for an address that are recent at [now]. *)
Definition recentAttempts (cfg : Config.t) (ag : t) (address : string) (now : Z)
  : list LoginAttempt :=
  filter (λ a, now - attempt_timestamp a < security_lockoutDuration cfg)
    (default [] (failedLogins ag !! ("login:" +:+ address))).

(** Texts that the SQL signature matches: a quote, a double quote, a
    semicolon, two hyphens, and an SQL keyword as a word of its own. *)
Definition flagged : list jsstring :=
  [js "'"; [34%N]; js ";"; js "--";
   js " select "; js " insert "; js " update "; js " delete "; js " drop ";
   js " union "; js " alter "; js " exec "; js " execute "].

(** A sign-up request with an Irish surname. *)
Definition signup : Request :=
  {| ip := "198.51.100.4"; path := js "/api/v1/signup"; method := "POST";
     body := VObject [("name", VString (js "Siobhan O'Brien"))];
     userId := None |}.

(** A request whose path ends in a lone percent sign. *)
Definition percentPath : Request :=
  {| ip := "198.51.100.4"; path := js "/search/100%"; method := "GET";
     body := VUndefined; userId := None |}.

(** Five failed logins from one address within a minute. *)
Definition fiveLogins : list Login :=
  (λ i, {| login_userId := None; login_email := Some "a@b.c";
           login_newId := "incident"; login_now := 1000 + 10000 * Z.of_nat i |})
    <$> seq 0 5.

End SecurityScan.

(** ** agents/DiagnosticAgent.js : runs of the agent on the rule table *)

Module DiagnosticRuns.
Import Config DiagnosticAgent.

(** The property names that every object inherits from [Object.prototype]:
    a lookup [rules[alert.type]] under one of them finds the inherited
    property instead of a rule. *)
Definition inheritedNames : list string :=
  ["constructor"; "toString"; "toLocaleString"; "valueOf"; "hasOwnProperty";
   "isPrototypeOf"; "propertyIsEnumerable"; "__proto__"; "__defineGetter__";
   "__defineSetter__"; "__lookupGetter__"; "__lookupSetter__"].

(** One alert event handled by the agent: the alert, what the reasoning
    backend would answer, and the clock reading. *)
Record Call : Type := mkCall
  { call_alert : AlertManager.Alert;
    call_ai : AiOutcome;
    call_now : Z }.

Section WithHash.
Variable generateHash : string → string → string.
Variable cfg : Config.t.

(** The alert events handled one after the other; the effects of all of
    them, in order. *)
Definition handleAlerts (ag : t) (calls : list Call) : t * list Effect :=
  foldl (λ '(ag, effects) c,
           let '(ag', more) :=
             handleAlert generateHash cfg ag (call_alert c) (call_ai c) (call_now c) in
           (ag', effects ++ more))
    (ag, []) calls.

End WithHash.

(** Every diagnosis in the cache has a confidence of one half or more. *)
Definition cacheConfident (ag : t) : Prop :=
  map_Forall (λ _ entry, (5 # 10 <= confidence entry.1)%Q) (diagnosisCache ag).

(** The alert types for which the rule table gives an auto-fixable diagnosis
    of confidence 0.8 or more. *)
Definition repairedByRules : list string :=
  ["API_DOWN"; "DB_CONNECTION_ERROR"; "MEMORY_HIGH"; "REDIS_DOWN"].

(** An agent without a reasoning backend and with an empty cache. *)
Definition rulesOnly : t :=
  {| running := true; anthropic := false; hasDb := false;
     diagnosisCache := ∅; pendingDiagnoses := ∅ |}.

(** An endpoint-down alert as the Monitor agent raises it. *)
Definition endpointDown : AlertManager.Alert :=
  AlertManager.newAlert alertTypes.API_DOWN
    {| AlertManager.data_component := Some "api";
       AlertManager.data_message := Some "API endpoint /health is down: timeout";
       AlertManager.data_severity := Some CRITICAL;
       AlertManager.data_threshold := None;
       AlertManager.data_value := None;
       AlertManager.data_metadata := [] |} "a-7" 10.

(** A second endpoint-down alert, raised a minute later for the same
    component, this time with high severity. *)
Definition endpointDownAgain : AlertManager.Alert :=
  AlertManager.newAlert alertTypes.API_DOWN
    {| AlertManager.data_component := Some "api";
       AlertManager.data_message := Some "API endpoint /api/v1/health is down: 503";
       AlertManager.data_severity := Some HIGH;
       AlertManager.data_threshold := None;
       AlertManager.data_value := None;
       AlertManager.data_metadata := [] |} "a-8" 60010.

(** The diagnosis an agent makes on a cache miss. *)
Definition fresh (ag : t) (alert : AlertManager.Alert) (ai : AiOutcome) (now : Z)
  : Diagnosis :=
  if anthropic ag then aiDiagnose alert ai now else ruleDiagnose alert now.

End DiagnosticRuns.

(** ** agents/DiagnosticAgent.js, lines 493-1069 : RepairAgent

    The commands the agent sends to the database and to Redis are recorded
    in the order they are issued, and what each of them answers is given by
    [Services]. Publishing on the bus is taken to return. *)

Module RepairAgent.
Import Config.

(** [config.fixTypes] *)
Module fixTypes.
Definition DATABASE_INDEX : string := "DATABASE_INDEX".
Definition SERVICE_RESTART : string := "SERVICE_RESTART".
Definition CACHE_CLEAR : string := "CACHE_CLEAR".
Definition EMAIL_FAILOVER : string := "EMAIL_FAILOVER".
Definition MEMORY_CLEANUP : string := "MEMORY_CLEANUP".
Definition CONNECTION_POOL_EXPAND : string := "CONNECTION_POOL_EXPAND".
Definition RATE_LIMIT_ADJUST : string := "RATE_LIMIT_ADJUST".
End fixTypes.

(** [config.agents.repair.allowedFixes] *)
Definition allowedFixes : list string :=
  ["DATABASE_INDEX"; "SERVICE_RESTART"; "CACHE_CLEAR"; "EMAIL_FAILOVER";
   "MEMORY_CLEANUP"; "CONNECTION_POOL_EXPAND"; "RATE_LIMIT_ADJUST"].

(** [event.data] of a repair request: the alert id, the diagnosis the
    Diagnostic agent published, and [diagnosis.component], a property that
    the rule table never sets. *)
Record Request : Type := mkRequest
  { req_alertId : string;
    req_diagnosis : DiagnosticAgent.Diagnosis;
    req_component : option string }.

(** The properties of a fix result that are read afterwards. *)
Record Result : Type := mkResult
  { success : bool;
    action : option string;
    reason : option string;
    verified : option bool }.

Definition succeeded (action : string) : Result :=
  {| success := true; action := Some action; reason := None; verified := None |}.

Definition failed (reason : string) : Result :=
  {| success := false; action := None; reason := Some reason; verified := None |}.

(** The commands sent to the database and to Redis. *)
Inductive Command : Type :=
| Analyze                              (* db.$executeRaw`ANALYZE` *)
| Keys (pattern : string)              (* redis.keys(pattern) *)
| Del (keys : list string)             (* redis.del(...keys) *)
| SetRateLimit (newLimit : Z)          (* redis.set('config:ratelimit', newLimit, 'EX', 3600) *)
| RepairHistoryCreate (diagnosticId repairType fixApplied : string)
    (fixCode : option string) (success : bool) (timeToFixSeconds : Z).

(** What the commands answer, and the settings of the process. *)
Record Services : Type := mkServices
  { analyze : Js.result unit;
    keys : string → Js.result (list string);
    del : list string → Js.result unit;
    setRateLimit : Js.result unit;
    gc : bool;                 (* [global.gc] is defined *)
    railway : bool;            (* [process.env.RAILWAY_ENVIRONMENT] is set *)
    rateLimitRequests : Z      (* config.agents.security.rateLimitRequests *) }.

Inductive Step : Type :=
| REBUILD_CACHE
| RESTORE_RATE_LIMIT (value : Z)
| MANUAL_INTERVENTION.

Record RollbackPlan : Type := mkPlan
  { plan_id : string;
    plan_fixType : string;
    plan_createdAt : Z;
    plan_steps : list Step }.

(** What the agent does to the outside, in order. *)
Inductive Effect : Type :=
| Issued (c : Command)
| CollectedGarbage
| Slept (ms : Z)
| PublishedComplete (alertId : string) (diagnosis : DiagnosticAgent.Diagnosis)
    (result : Result)
| PublishedRollback (plan : RollbackPlan)
| PublishedError (message : string) (alertId : string).

(** An entry of [repairHistory]. *)
Record Repair : Type := mkRepair
  { repair_id : string;
    repair_alertId : string;
    repairType : string;
    fixApplied : string;
    repair_success : bool;
    timeToFix : Z;
    verificationResult : Result;
    repair_createdAt : Z }.

Record t : Type := mk
  { running : bool;
    hasDb : bool;
    hasRedis : bool;
    activeRepairs : gmap string (DiagnosticAgent.Diagnosis * Z);
    repairHistory : list Repair }.

(** A computation that issues commands and returns or throws. *)
Definition Run (A : Type) : Type := list Effect * Js.result A.

Definition ret {A : Type} (a : A) : Run A := ([], Js.Ok a).

Definition bind {A B : Type} (m : Run A) (f : A → Run B) : Run B :=
  match m with
  | (effects, Js.Ok a) => let '(more, r) := f a in (effects ++ more, r)
  | (effects, Js.Throw message) => (effects, Js.Throw message)
  end.

Definition issue {A : Type} (c : Command) (answer : Js.result A) : Run A :=
  ([Issued c], answer).

Notation "'let!' x ':=' m 'in' f" := (bind m (λ x, f))
  (at level 10, x binder, m at level 100, f at level 200).

(** [try { ... } catch (error) { return { success: false, reason:
    error.message } }] *)
Definition caught (m : Run Result) : list Effect * Result :=
  match m with
  | (effects, Js.Ok result) => (effects, result)
  | (effects, Js.Throw message) => (effects, failed message)
  end.

Section WithServices.
Variable sv : Services.

(** [fixDatabaseIndex(diagnosis)] *)
Definition fixDatabaseIndex (ag : t) : list Effect * Result :=
  if negb (hasDb ag) then ([], failed "Database not available")
  else caught (let! _ := issue Analyze (analyze sv) in ret (succeeded "ANALYZE")).

(** [fixServiceRestart(diagnosis)] *)
Definition fixServiceRestart : list Effect * Result :=
  if railway sv then ([], succeeded "RESTART_SCHEDULED")
  else ([], succeeded "RESTART_RECOMMENDED").

(** The deletion both cache fixes make: the keys of a pattern are listed
    and, when there are some, deleted. *)
Definition clear (pattern : string) : Run (list string) :=
  let! found := issue (Keys pattern) (keys sv pattern) in
  if bool_decide (0 < length found)%nat then
    let! _ := issue (Del found) (del sv found) in ret found
  else ret found.

(** [fixCacheClear(diagnosis)] *)
Definition fixCacheClear (ag : t) (diagnosisComponent : option string)
  : list Effect * Result :=
  if negb (hasRedis ag) then ([], failed "Redis not available")
  else
    let component := Js.str_or diagnosisComponent "*" in
    caught
      (let! _ := clear ("cache:" +:+ component +:+ ":*") in
       let! _ := if bool_decide (component = "api") then clear "ratelimit:*"
                 else ret [] in
       ret (succeeded "CACHE_CLEARED")).

(** [fixEmailFailover(diagnosis)] *)
Definition fixEmailFailover : list Effect * Result :=
  ([], succeeded "EMAIL_FAILOVER").

(** [fixMemoryCleanup(diagnosis)] *)
Definition fixMemoryCleanup (ag : t) : list Effect * Result :=
  caught
    (let! _ := ((if gc sv then [CollectedGarbage] else []), Js.Ok tt) in
     let! _ := if hasRedis ag then clear "temp:*" else ret [] in
     ret (succeeded "MEMORY_CLEANUP")).

(** [fixConnectionPool(diagnosis)] *)
Definition fixConnectionPool : list Effect * Result :=
  ([], succeeded "POOL_EXPAND_RECOMMENDED").

(** [fixRateLimit(diagnosis)]; [Math.floor(n * 1.5)] of an integer [n]. *)
Definition fixRateLimit (ag : t) : list Effect * Result :=
  if negb (hasRedis ag) then ([], failed "Redis not available")
  else
    let newLimit := (3 * rateLimitRequests sv) `div` 2 in
    caught
      (let! _ := issue (SetRateLimit newLimit) (setRateLimit sv) in
       ret (succeeded "RATE_LIMIT_INCREASED")).

(** [createRollbackPlan(diagnosis)] *)
Definition createRollbackPlan (diagnosis : DiagnosticAgent.Diagnosis)
    (planId : string) (now : Z) : RollbackPlan :=
  {| plan_id := planId;
     plan_fixType := DiagnosticAgent.fixType diagnosis;
     plan_createdAt := now;
     plan_steps :=
       if bool_decide (DiagnosticAgent.fixType diagnosis = fixTypes.CACHE_CLEAR)
       then [REBUILD_CACHE]
       else if bool_decide (DiagnosticAgent.fixType diagnosis
                            = fixTypes.RATE_LIMIT_ADJUST)
       then [RESTORE_RATE_LIMIT (rateLimitRequests sv)]
       else [MANUAL_INTERVENTION] |}.

(** [executeRollback(rollbackPlan)]: a failing step is caught and logged. *)
Definition executeRollback (ag : t) (rollbackPlan : RollbackPlan) : list Effect :=
  flat_map (λ step,
              match step with
              | RESTORE_RATE_LIMIT _ =>
                  if hasRedis ag then [Issued (Del ["config:ratelimit"])] else []
              | _ => []
              end) (plan_steps rollbackPlan)
  ++ [PublishedRollback rollbackPlan].

(** [verifyFix(diagnosis)] *)
Definition verifyFix : list Effect * bool := ([Slept 2000], true).

(** [logRepair(alertId, diagnosis, result, duration)] *)
Definition logRepair (ag : t) (alertId : string)
    (diagnosis : DiagnosticAgent.Diagnosis) (result : Result) (duration : Z)
    (repairId : string) (now : Z) : t * list Effect * Repair :=
  let repair :=
    {| repair_id := repairId;
       repair_alertId := alertId;
       repairType := DiagnosticAgent.fixType diagnosis;
       fixApplied := DiagnosticAgent.suggestedFix diagnosis;
       repair_success := success result;
       timeToFix := duration;
       verificationResult := result;
       repair_createdAt := now |} in
  let pushed := repairHistory ag ++ [repair] in
  let history :=
    if bool_decide (1000 < length pushed)%nat then drop 1 pushed else pushed in
  ({| running := running ag; hasDb := hasDb ag; hasRedis := hasRedis ag;
      activeRepairs := activeRepairs ag; repairHistory := history |},
   if hasDb ag then
     [Issued (RepairHistoryCreate alertId (DiagnosticAgent.fixType diagnosis)
                (DiagnosticAgent.suggestedFix diagnosis) (action result)
                (success result) (duration `div` 1000))]
   else [],
   repair).

(** The [switch] of [executeRepair]. *)
Definition applyFix (ag : t) (request : Request) : list Effect * Result :=
  let fixType := DiagnosticAgent.fixType (req_diagnosis request) in
  if bool_decide (fixType = fixTypes.DATABASE_INDEX) then fixDatabaseIndex ag
  else if bool_decide (fixType = fixTypes.SERVICE_RESTART) then fixServiceRestart
  else if bool_decide (fixType = fixTypes.CACHE_CLEAR)
  then fixCacheClear ag (req_component request)
  else if bool_decide (fixType = fixTypes.EMAIL_FAILOVER) then fixEmailFailover
  else if bool_decide (fixType = fixTypes.MEMORY_CLEANUP) then fixMemoryCleanup ag
  else if bool_decide (fixType = fixTypes.CONNECTION_POOL_EXPAND)
  then fixConnectionPool
  else if bool_decide (fixType = fixTypes.RATE_LIMIT_ADJUST) then fixRateLimit ag
  else ([], failed "Unknown fix type").

(** [executeRepair(alertId, diagnosis)]: [now] is the clock when the repair
    starts, [later] when it is logged. None of the calls in the [try] block
    throws, so its [catch] block is not reached. *)
Definition executeRepair (ag : t) (request : Request) (planId repairId : string)
    (now later : Z) : t * list Effect * Result :=
  let rollbackPlan := createRollbackPlan (req_diagnosis request) planId now in
  let '(fixing, result) := applyFix ag request in
  let '(verifying, result) :=
    if success result then
      let '(waiting, verified) := verifyFix in
      let result :=
        {| success := success result; action := action result;
           reason := reason result; verified := Some verified |} in
      if negb verified then
        (waiting ++ executeRollback ag rollbackPlan,
         {| success := false; action := action result;
            reason := Some "Verification failed"; verified := Some verified |})
      else (waiting, result)
    else ([], result) in
  let '(ag, logging, _) :=
    logRepair ag (req_alertId request) (req_diagnosis request) result (later - now)
      repairId later in
  (ag, fixing ++ verifying ++ logging, result).

Definition set_active (ag : t)
    (active : gmap string (DiagnosticAgent.Diagnosis * Z)) : t :=
  {| running := running ag; hasDb := hasDb ag; hasRedis := hasRedis ag;
     activeRepairs := active; repairHistory := repairHistory ag |}.

(** [handleRepairRequest(event)], acting on the alert manager [am]. *)
Definition handleRepairRequest (ag : t) (am : AlertManager.t) (request : Request)
    (planId repairId : string) (now later : Z)
  : t * AlertManager.t * list Effect :=
  let alertId := req_alertId request in
  let diagnosis := req_diagnosis request in
  if negb (running ag) then (ag, am, [])
  else if bool_decide (is_Some (activeRepairs ag !! alertId)) then (ag, am, [])
  else if negb (bool_decide (DiagnosticAgent.fixType diagnosis ∈ allowedFixes))
  then (ag, am, [])
  else
    let ag := set_active ag (<[alertId := (diagnosis, now)]> (activeRepairs ag)) in
    let '(ag, effects, result) := executeRepair ag request planId repairId now later in
    let published := [PublishedComplete alertId diagnosis result] in
    let '(am, failure) :=
      if success result then
        match AlertManager.resolve am alertId
                {| AlertManager.opt_autoResolved := Some true;
                   AlertManager.opt_resolution :=
                     Some ("Auto-fixed: " +:+ DiagnosticAgent.fixType diagnosis) |}
                later with
        | (am, Js.Ok _) => (am, [])
        | (am, Js.Throw message) => (am, [PublishedError message alertId])
        end
      else (am, []) in
    (set_active ag (delete alertId (activeRepairs ag)), am,
     effects ++ published ++ failure).

End WithServices.

(** What a repair that applies no fix does, in order: the pause of the
    verification, the entry written to the repair history of the database
    when the agent has one, and the event that reports the repair as
    successful and verified. *)
Definition reportOnly (ag : t) (request : Request) (action : string)
    (now later : Z) : list Effect :=
  Slept 2000
  :: (if hasDb ag then
        [Issued (RepairHistoryCreate (req_alertId request)
                   (DiagnosticAgent.fixType (req_diagnosis request))
                   (DiagnosticAgent.suggestedFix (req_diagnosis request))
                   (Some action) true ((later - now) `div` 1000))]
      else [])
  ++ [PublishedComplete (req_alertId request) (req_diagnosis request)
        {| success := true; action := Some action; reason := None;
           verified := Some true |}].

(** The effects a fix function can have. *)
Definition fixing (e : Effect) : Prop :=
  match e with Issued _ | CollectedGarbage => True | _ => False end.

Definition rollsBack (e : Effect) : bool :=
  match e with PublishedRollback _ => true | _ => false end.

(** The fix types whose fix function reports success without doing
    anything. *)
Definition recommendations : list string :=
  [fixTypes.SERVICE_RESTART; fixTypes.CONNECTION_POOL_EXPAND;
   fixTypes.EMAIL_FAILOVER].

(** The alert types that the rule table answers with one of them at a
    confidence of 0.8. *)
Definition downTypes : list string :=
  [alertTypes.API_DOWN; alertTypes.DB_CONNECTION_ERROR; alertTypes.REDIS_DOWN].

(** A running agent with a database and Redis, and services that fail every
    command. *)
Definition connected : t :=
  {| running := true; hasDb := true; hasRedis := true;
     activeRepairs := ∅; repairHistory := [] |}.

Definition unreachable : Services :=
  {| analyze := Js.Throw "connection refused";
     keys := λ _, Js.Throw "connection refused";
     del := λ _, Js.Throw "connection refused";
     setRateLimit := Js.Throw "connection refused";
     gc := false; railway := false; rateLimitRequests := 100 |}.

(** The alert manager holding the endpoint-down alert, and the repair
    request for it under the rule table's diagnosis. *)
Definition holdingEndpointDown : AlertManager.t :=
  {| AlertManager.alerts :=
       [(AlertManager.alert_id DiagnosticRuns.endpointDown,
         DiagnosticRuns.endpointDown)];
     AlertManager.db := Some [];
     AlertManager.notificationQueue := [] |}.

Definition restartRequest : Request :=
  {| req_alertId := AlertManager.alert_id DiagnosticRuns.endpointDown;
     req_diagnosis := DiagnosticAgent.ruleDiagnose DiagnosticRuns.endpointDown 100;
     req_component := None |}.

End RepairAgent.

(** ** agents/LearningAgent.js : runs of the agent *)

Module LearningRuns.
Import Config LearningAgent.

(** What happens to the agent: a repair-complete event is handled, or the
    periodic consolidation runs. *)
Inductive Op : Type :=
| Completed (alertId : string) (diagnosis : Diagnosis) (result : RepairResult)
    (newId : string) (now : Z)
| Consolidate (now : Z).

Section WithHash.
Variable generateHash : Symptoms → string.
Variable cfg : Config.t.

Definition step (ag : t) (op : Op) : t :=
  match op with
  | Completed alertId diagnosis result newId now =>
      handleRepairComplete generateHash cfg ag alertId diagnosis result newId now
  | Consolidate now => consolidatePatterns cfg ag now
  end.

Definition run (ag : t) (ops : list Op) : t := foldl step ag ops.

End WithHash.

(** A pattern that records no failure. *)
Definition unblemished (pattern : Pattern) : Prop :=
  failureCount pattern = 0%N ∧ (successRate pattern == 1)%Q.

Definition isCompleted (op : Op) : bool :=
  match op with Completed _ _ _ _ _ => true | Consolidate _ => false end.

(** A failed repair, a successful one, and a consolidation a year later. *)
Definition aYear : list Op :=
  [Completed "a-1" indexDiagnosis {| success := false; duration := Some 900 |} "p-1" 50;
   Completed "a-2" indexDiagnosis {| success := true; duration := None |} "p-2" 60;
   Consolidate 31536000000].

End LearningRuns.

(** ** utils/helpers.js : RateLimiter, calls on one key *)

Module RateLimiterRuns.
Import RateLimiter.

(** Calls of [isAllowed(key)] at the given clock readings. *)
Definition callsAt (key : string) (times : list Z) : list op :=
  IsAllowed key <$> times.

(** A limiter of three requests per ten milliseconds that has used up the
    quota of one address. *)
Definition exhausted : t :=
  after (new 3 10) (callsAt "10.0.0.1" [0; 1; 2]).

End RateLimiterRuns.

(** * Properties *)

Module RateLimiterFacts.
Import RateLimiter.

Lemma recent_app c l1 l2 : recent c (l1 ++ l2) = recent c l1 ++ recent c l2.
Proof. apply filter_app. Qed.

Lemma recent_recent c1 c2 l :
  c1 ≤ c2 → recent c2 (recent c1 l) = recent c2 l.
Proof.
  intros Hc. unfold recent. induction l as [|x l IH]; [done|].
  rewrite !filter_cons. repeat case_decide; try lia.
  - rewrite filter_cons. case_decide; [|lia]. by rewrite IH.
  - rewrite filter_cons. case_decide; [lia|]. done.
  - done.
Qed.

Lemma isAllowed_fields rl k now :
  maxRequests (isAllowed rl k now).2 = maxRequests rl
  ∧ windowMs (isAllowed rl k now).2 = windowMs rl.
Proof. unfold isAllowed. by case_bool_decide. Qed.

Lemma step_fields rl o :
  maxRequests (step rl o) = maxRequests rl ∧ windowMs (step rl o) = windowMs rl.
Proof. destruct o; [apply isAllowed_fields | done]. Qed.

Lemma isAllowed_denied_unchanged rl k now :
  (isAllowed rl k now).1 = false → (isAllowed rl k now).2 = rl.
Proof. unfold isAllowed. by case_bool_decide. Qed.

Lemma isAllowed_true_iff rl k now :
  (isAllowed rl k now).1 = true
  ↔ Z.of_nat (length (recent (now - windowMs rl) (stored rl k))) < maxRequests rl.
Proof.
  unfold isAllowed, stored. case_bool_decide; simpl; split; intros; (done || lia).
Qed.

Lemma stored_isAllowed_same rl k now :
  (isAllowed rl k now).1 = true →
  stored (isAllowed rl k now).2 k = recent (now - windowMs rl) (stored rl k) ++ [now].
Proof.
  unfold isAllowed, stored. case_bool_decide; [done|]. simpl.
  by rewrite lookup_insert_eq.
Qed.

Lemma stored_isAllowed_other rl k key now :
  k ≠ key → stored (isAllowed rl k now).2 key = stored rl key.
Proof.
  intros Hne. unfold isAllowed, stored. case_bool_decide; [done|]. simpl.
  by rewrite lookup_insert_ne.
Qed.

Lemma stored_cleanup rl key c :
  stored (cleanup rl c) key = recent (c - windowMs rl) (stored rl key).
Proof.
  unfold cleanup, stored. simpl. rewrite lookup_omap.
  destruct (requests rl !! key) as [reqs|]; simpl; [|done].
  by destruct (recent (c - windowMs rl) reqs).
Qed.

Lemma after_fields ops : ∀ rl,
  maxRequests (after rl ops) = maxRequests rl
  ∧ windowMs (after rl ops) = windowMs rl.
Proof.
  induction ops as [|o ops IH]; intros rl; [done|].
  unfold after in *. simpl. destruct (IH (step rl o)) as [-> ->].
  apply step_fields.
Qed.

Lemma inWindow_app w t l1 l2 :
  inWindow w t (l1 ++ l2) = (inWindow w t l1 + inWindow w t l2)%nat.
Proof. unfold inWindow. by rewrite filter_app, length_app. Qed.

Lemma inWindow_le_recent w t now G :
  now ≤ t → (inWindow w t G ≤ length (recent (now - w) G))%nat.
Proof.
  intros Hle. unfold inWindow, recent. induction G as [|g G IH]; [done|].
  rewrite !filter_cons. repeat case_decide; simpl; lia.
Qed.

Lemma inWindow_recent w now G :
  Forall (λ g, g ≤ now) G → inWindow w now G = length (recent (now - w) G).
Proof.
  unfold inWindow, recent. induction 1 as [|g G Hg HG IH]; [done|].
  rewrite !filter_cons. repeat case_decide; simpl; lia.
Qed.

Lemma tracks_step rl key G T o :
  tracks rl key G T → bounded rl G → T ≤ op_time o →
  let G' := G ++ grants rl [o] key in
  tracks (step rl o) key G' (op_time o) ∧ bounded (step rl o) G'.
Proof.
  intros [Hrec Hle] Hb HT. simpl. rewrite app_nil_r.
  assert (HleT : Forall (λ g, g ≤ op_time o) G).
  { eapply Forall_impl; [exact Hle|]. simpl. intros; lia. }
  destruct (step_fields rl o) as [Hmax Hwin].
  unfold tracks, bounded. rewrite Hmax, Hwin.
  destruct o as [k now | c]; simpl in *.
  - destruct (decide (k = key)) as [->|Hne].
    + rewrite bool_decide_eq_true_2 by done. simpl.
      destruct (isAllowed rl key now).1 eqn:Hres.
      * rewrite stored_isAllowed_same by done.
        split; [split|].
        -- intros n Hn. rewrite !recent_app, recent_recent by lia.
           by rewrite Hrec by lia.
        -- apply Forall_app. split; [done|]. by apply Forall_singleton.
        -- intros t. rewrite inWindow_app.
           apply isAllowed_true_iff in Hres. rewrite (Hrec now) in Hres by lia.
           unfold inWindow at 2. rewrite filter_cons, filter_nil.
           case_decide; simpl.
           ++ pose proof (inWindow_le_recent (windowMs rl) t now G). lia.
           ++ specialize (Hb t). lia.
      * rewrite isAllowed_denied_unchanged by done. rewrite app_nil_r.
        split; [split|]; [|done|done].
        intros n Hn. apply Hrec. lia.
    + rewrite bool_decide_eq_false_2 by done. simpl. rewrite app_nil_r.
      rewrite stored_isAllowed_other by done.
      split; [split|]; [|done|done].
      intros n Hn. apply Hrec. lia.
  - rewrite app_nil_r, stored_cleanup.
    split; [split|]; [|done|done].
    intros n Hn. rewrite recent_recent by lia. apply Hrec. lia.
Qed.

Lemma grants_cons rl o ops key :
  grants rl (o :: ops) key = grants rl [o] key ++ grants (step rl o) ops key.
Proof. simpl. by rewrite app_nil_r. Qed.

Lemma tracks_run ops : ∀ rl key G T,
  tracks rl key G T → bounded rl G → clock_from T ops →
  ∃ T', T ≤ T'
    ∧ tracks (after rl ops) key (G ++ grants rl ops key) T'
    ∧ bounded (after rl ops) (G ++ grants rl ops key)
    ∧ (∀ n, clock_from T (ops ++ [IsAllowed key n]) → T' ≤ n).
Proof.
  induction ops as [|o ops IH]; intros rl key G T Htr Hb Hclk.
  - exists T. simpl. rewrite app_nil_r. split_and!; try done.
    intros n Hc. simpl in Hc. by destruct Hc as [Hn _].
  - destruct Hclk as [HT Hclk].
    destruct (tracks_step rl key G T o Htr Hb HT) as [Htr' Hb'].
    destruct (IH _ _ _ _ Htr' Hb' Hclk) as (T' & HT' & Htr'' & Hb'' & Hn).
    exists T'. rewrite grants_cons, app_assoc.
    split_and!; try done; try lia.
    intros n Hc. simpl in Hc. destruct Hc as [_ Hc]. by apply Hn.
Qed.

Lemma alike_isAllowed T rl1 rl2 k now :
  alike T rl1 rl2 → T ≤ now →
  (isAllowed rl1 k now).1 = (isAllowed rl2 k now).1
  ∧ alike now (isAllowed rl1 k now).2 (isAllowed rl2 k now).2.
Proof.
  intros (Hmax & Hwin & Hrec) HT.
  assert (Hres : (isAllowed rl1 k now).1 = (isAllowed rl2 k now).1).
  { destruct (isAllowed rl2 k now).1 eqn:H2.
    - apply isAllowed_true_iff. apply isAllowed_true_iff in H2.
      rewrite Hrec, Hwin, Hmax by lia. done.
    - destruct (isAllowed rl1 k now).1 eqn:H1; [|done].
      apply isAllowed_true_iff in H1. rewrite Hrec, Hwin, Hmax in H1 by lia.
      apply isAllowed_true_iff in H1. congruence. }
  split; [done|].
  destruct (isAllowed_fields rl1 k now) as [Hm1 Hw1].
  destruct (isAllowed_fields rl2 k now) as [Hm2 Hw2].
  split_and!; [congruence | congruence |].
  intros k' n Hn. rewrite Hw1.
  destruct (decide (k = k')) as [<-|Hne].
  - destruct (isAllowed rl2 k now).1 eqn:H2.
    + rewrite !stored_isAllowed_same by congruence.
      rewrite !recent_app, <- Hwin, !recent_recent by lia.
      by rewrite Hrec by lia.
    + rewrite !isAllowed_denied_unchanged by congruence. apply Hrec. lia.
  - rewrite !stored_isAllowed_other by done. apply Hrec. lia.
Qed.

Lemma alike_cleanup T rl1 rl2 c :
  alike T rl1 rl2 → T ≤ c → alike c (cleanup rl1 c) rl2.
Proof.
  intros (Hmax & Hwin & Hrec) HT. split_and!; [done | done |].
  intros k n Hn. simpl. rewrite stored_cleanup, recent_recent by lia.
  apply Hrec. lia.
Qed.

Lemma grants_calls_only ops : ∀ T rl1 rl2 key,
  alike T rl1 rl2 → clock_from T ops →
  grants rl1 ops key = grants rl2 (calls_only ops) key.
Proof.
  induction ops as [|o ops IH]; intros T rl1 rl2 key Hal Hclk; [done|].
  destruct Hclk as [HT Hclk]. unfold calls_only. rewrite filter_cons.
  destruct o as [k now | c]; simpl in *.
  - destruct (alike_isAllowed T rl1 rl2 k now Hal HT) as [Hres Hal'].
    rewrite Hres. f_equal. by apply (IH now).
  - apply (IH c); [|done]. by apply (alike_cleanup T).
Qed.

Lemma alike_refl T rl : alike T rl rl.
Proof. by split_and!. Qed.

(** C10. From a fresh limiter and along any run of calls whose clock
    readings never go back, the calls granted to a key within any window of
    [windowMs] milliseconds number at most [maxRequests]; a denied call
    leaves the limiter as it was; the next call on the key is granted
    exactly when fewer than [maxRequests] of its granted timestamps lie in
    the window ending at that call; and leaving every [cleanup()] out of
    the run changes no answer. *)
Theorem sliding_window_limit
    (maxReq window : Z) (ops : list op) (key : string) (t0 : Z) :
  0 ≤ maxReq →
  clock_from t0 ops →
  (∀ t, Z.of_nat (inWindow window t (grants (new maxReq window) ops key)) ≤ maxReq)
  ∧ (∀ k now,
       (isAllowed (after (new maxReq window) ops) k now).1 = false →
       (isAllowed (after (new maxReq window) ops) k now).2
       = after (new maxReq window) ops)
  ∧ (∀ now,
       clock_from t0 (ops ++ [IsAllowed key now]) →
       ((isAllowed (after (new maxReq window) ops) key now).1 = true
        ↔ Z.of_nat (inWindow window now (grants (new maxReq window) ops key))
          < maxReq))
  ∧ grants (new maxReq window) ops key
    = grants (new maxReq window) (calls_only ops) key.
Proof.
  intros Hmax Hclk.
  assert (Htr0 : tracks (new maxReq window) key [] t0) by (split; done).
  assert (Hb0 : bounded (new maxReq window) []) by (intros t; unfold inWindow; simpl; lia).
  destruct (tracks_run ops _ key [] t0 Htr0 Hb0 Hclk)
    as (T' & HT' & [Hrec Hle] & Hb & Hnext).
  simpl in Hb, Hrec, Hle.
  destruct (after_fields ops (new maxReq window)) as [Hm Hw].
  simpl in Hm, Hw. unfold bounded in Hb. rewrite Hm, Hw in Hb.
  split_and!.
  - exact Hb.
  - intros k now. apply isAllowed_denied_unchanged.
  - intros now Hclk'. rewrite isAllowed_true_iff, Hm, Hw.
    specialize (Hnext now Hclk').
    rewrite Hw in Hrec. rewrite (Hrec now) by lia.
    rewrite inWindow_recent; [done|].
    eapply Forall_impl; [exact Hle|]. simpl. intros; lia.
  - apply (grants_calls_only ops t0); [apply alike_refl | done].
Qed.

Example sample_run_grants :
  grants (new 2 10) sample_run "10.0.0.1" = [0; 1; 11].
Proof. vm_compute. reflexivity. Qed.

Lemma sliding_window_limit_witness :
  0 ≤ 2
  ∧ clock_from 0 sample_run
  ∧ (∀ t, Z.of_nat (inWindow 10 t (grants (new 2 10) sample_run "10.0.0.1")) ≤ 2)
  ∧ grants (new 2 10) sample_run "10.0.0.1"
    = grants (new 2 10) (calls_only sample_run) "10.0.0.1".
Proof.
  split; [lia|]. split; [simpl; lia|].
  destruct (sliding_window_limit 2 10 sample_run "10.0.0.1" 0) as (H1 & _ & _ & H4);
    [lia | simpl; lia | ].
  split; [exact H1 | exact H4].
Defined.

End RateLimiterFacts.

Module EventBusFacts.
Import EventBus.

Section Bus.
Context {Payload W : Type}.
Implicit Types (ls : list (Handler Payload W)) (ev : Event Payload) (w : W).

(** Handlers that do not throw into [emit] are all called. *)
Lemma run_listeners_no_throw ls ev now w :
  Forall (λ h, is_async h = true) ls →
  (∃ w', run_listeners ls ev now w = Returned w')
  ∧ called ls ev now w = fn_id <$> ls.
Proof.
  intros Hall. revert w. induction Hall as [|h ls Hh _ IH]; intros w.
  - split; [by eexists|done].
  - simpl. unfold call. rewrite Hh.
    destruct (body h ev now w) as [w'|w' m];
      destruct (IH w') as [Hr Hc]; by rewrite Hc.
Qed.

(** A handler that throws into [emit] ends the loop: the handlers after it
    are not called and the exception leaves [emit]. *)
Lemma run_listeners_throw ls1 h ls2 ev now w w' m :
  Forall (λ h, is_async h = true) ls1 →
  (∀ w0, body h ev now w0 = Threw w' m) →
  is_async h = false →
  (∃ w'', run_listeners (ls1 ++ h :: ls2) ev now w = Threw w'' m)
  ∧ called (ls1 ++ h :: ls2) ev now w = (fn_id <$> ls1) ++ [fn_id h].
Proof.
  intros Hall Hthrow Hsync. revert w.
  induction Hall as [|h1 ls1 Hh _ IH]; intros w.
  - simpl. unfold call. rewrite Hthrow, Hsync. split; [by eexists|done].
  - simpl. unfold call. rewrite Hh.
    destruct (body h1 ev now w) as [w1|w1 m1];
      destruct (IH w1) as [Hr Hc]; by rewrite Hc.
Qed.

End Bus.

(** C2, evaluated on the code. With a throwing and a recording handler
    subscribed to the same channel in this order, [publish] fails with the
    exception of the first handler and the second handler is never called,
    whereas the Redis callback of [subscribe] contains the exception of the
    same handler. *)
Theorem publish_stops_at_throwing_handler :
  (publish (λ _, None) two_subscribers [] "alert" "payload" "e-1" 5).2
  = Js.Throw "boom"
  ∧ (publish (λ _, None) two_subscribers [] "alert" "payload" "e-1" 5).1.2 = []
  ∧ listeners_of two_subscribers "alert" = [throwing; recording]
  ∧ called (listeners_of two_subscribers "alert")
      (mkEvent "e-1" "alert" "payload" 5 "unknown") 5 [] = ["throwing"]
  ∧ on_redis_message throwing (mkEvent "e-1" "alert" "payload" 5 "unknown") 5 []
    = [].
Proof. vm_compute. auto. Qed.

End EventBusFacts.

Module AlertManagerFacts.
Import Config AlertManager.

Lemma value_zero_ratio (value threshold : Q) :
  (value == 0)%Q → ¬ (1 < value / threshold)%Q.
Proof.
  intros Hv Hlt. assert (Hz : (value / threshold == 0)%Q).
  { unfold Qdiv. rewrite Hv. apply Qmult_0_l. }
  rewrite Hz in Hlt. discriminate Hlt.
Qed.

Lemma determineSeverity_table alertType data :
  determineSeverity alertType data = severityTable alertType data.
Proof.
  unfold determineSeverity, severityTable, ratio, Js.num_truthy.
  destruct (includes criticalTypes alertType); [done|].
  destruct (includes highTypes alertType); [done|].
  destruct (data_value data) as [value|]; [|done].
  destruct (data_threshold data) as [threshold|]; [|done].
  destruct (Qeq_bool threshold 0) eqn:Ht; simpl.
  { by rewrite andb_false_r. }
  rewrite andb_true_r.
  destruct (Qeq_bool value 0) eqn:Hv; simpl; [|done].
  apply Qeq_bool_iff in Hv. pose proof (value_zero_ratio value threshold Hv) as Hn.
  destruct (Qlt_le_dec 2 _) as [H2|_].
  { exfalso. apply Hn. eapply Qlt_trans; [|exact H2]. reflexivity. }
  destruct (Qlt_le_dec (3 # 2) _) as [H3|_].
  { exfalso. apply Hn. eapply Qlt_trans; [|exact H3]. reflexivity. }
  destruct (Qlt_le_dec 1 _) as [H1|_]; [|done].
  exfalso. by apply Hn.
Qed.

(** C9. An alert created without an explicit severity gets the severity of
    the priority table: critical for the types hard-coded as critical, high
    for the types hard-coded as high, whatever the values; otherwise, with
    [ratio] the actual value divided by the threshold, critical above 2, high
    above 1.5, medium above 1, and low in every other case (also when there
    is no ratio). *)
Theorem severity_follows_priority_table
    (alertType : string) (data : AlertData) (id : string) (now : Z) :
  data_severity data = None →
  alert_severity (newAlert alertType data id now) = severityTable alertType data
  ∧ (alertType ∈ criticalTypes →
     alert_severity (newAlert alertType data id now) = CRITICAL)
  ∧ (alertType ∉ criticalTypes → alertType ∈ highTypes →
     alert_severity (newAlert alertType data id now) = HIGH)
  ∧ (alertType ∉ criticalTypes → alertType ∉ highTypes →
     match ratio data with
     | Some r =>
         ((2 < r)%Q → alert_severity (newAlert alertType data id now) = CRITICAL)
         ∧ ((r <= 2)%Q → (3 # 2 < r)%Q →
            alert_severity (newAlert alertType data id now) = HIGH)
         ∧ ((r <= 3 # 2)%Q → (1 < r)%Q →
            alert_severity (newAlert alertType data id now) = MEDIUM)
         ∧ ((r <= 1)%Q → alert_severity (newAlert alertType data id now) = LOW)
     | None => alert_severity (newAlert alertType data id now) = LOW
     end).
Proof.
  intros Hnone.
  assert (Heq : alert_severity (newAlert alertType data id now)
                = severityTable alertType data).
  { simpl. unfold assignedSeverity. rewrite Hnone. apply determineSeverity_table. }
  rewrite Heq. unfold severityTable, includes. split_and!.
  - done.
  - intros Hc. by rewrite bool_decide_eq_true_2.
  - intros Hc Hh. rewrite bool_decide_eq_false_2 by done.
    by rewrite bool_decide_eq_true_2.
  - intros Hc Hh. rewrite !bool_decide_eq_false_2 by done.
    destruct (ratio data) as [r|]; [|done].
    destruct (Qlt_le_dec 2 r) as [H2|H2];
      [split_and!; intros; (done || (exfalso; lra))|].
    destruct (Qlt_le_dec (3 # 2) r) as [H3|H3];
      [split_and!; intros; (done || (exfalso; lra))|].
    destruct (Qlt_le_dec 1 r) as [H1|H1];
      split_and!; intros; (done || (exfalso; lra)).
Qed.

Lemma map_get_set_eq {V} (m : list (string * V)) k v :
  EventBus.map_get (EventBus.map_set m k v) k = Some v.
Proof.
  induction m as [|[k' v'] m IH]; simpl.
  - by rewrite bool_decide_eq_true_2.
  - case_bool_decide; simpl.
    + by rewrite bool_decide_eq_true_2.
    + by rewrite bool_decide_eq_false_2.
Qed.

Lemma map_get_set_ne {V} (m : list (string * V)) k k' v :
  k ≠ k' → EventBus.map_get (EventBus.map_set m k v) k' = EventBus.map_get m k'.
Proof.
  intros Hne. induction m as [|[k0 v0] m IH]; simpl.
  - by rewrite bool_decide_eq_false_2.
  - case_bool_decide as Hk0; simpl.
    + subst k0. by rewrite !bool_decide_eq_false_2.
    + by rewrite IH.
Qed.

Lemma map_set_fresh {V} (m : list (string * V)) k v :
  EventBus.map_get m k = None → EventBus.map_set m k v = m ++ [(k, v)].
Proof.
  induction m as [|[k' v'] m IH]; simpl; [done|].
  case_bool_decide; [done|]. intros Hnone. by rewrite IH.
Qed.

Lemma findRelatedAlert_published m source alert :
  findRelatedAlert m (AlertPublished source alert) = None.
Proof. induction m as [|[k a] m IH]; [done|]. simpl. exact IH. Qed.

(** The handler of the manager leaves the store as it is on what [create]
    publishes: the published object has no [type] and no [component]. *)
Lemma processAlert_published am source alert now :
  processAlert am (AlertPublished source alert) now = (am, None).
Proof. unfold processAlert. by rewrite findRelatedAlert_published. Qed.

Lemma create_initialised bus am alertType data id eventId now :
  initialised bus →
  ∃ bus',
    create bus am alertType data id eventId now
    = (bus',
       queueNotification
         (db_call
            (set_alerts am
               (EventBus.map_set (alerts am) id (newAlert alertType data id now)))
            (SystemAlertCreate (newAlert alertType data id now)))
         (newAlert alertType data id now) now,
       Js.Ok (newAlert alertType data id now))
    ∧ initialised bus'.
Proof.
  intros Hinit. unfold create, EventBus.publish, EventBus.emit.
  unfold initialised in *. unfold EventBus.listeners_of in *. simpl.
  rewrite Hinit. simpl. unfold EventBus.call. simpl.
  rewrite processAlert_published. simpl.
  rewrite map_get_set_eq. simpl.
  eexists. split; [reflexivity|]. simpl. exact Hinit.
Qed.

Lemma severity_follows_priority_table_witness :
  data_severity slowQuery = None
  ∧ alert_severity (newAlert alertTypes.DB_SLOW slowQuery "a-1" 10)
    = severityTable alertTypes.DB_SLOW slowQuery
  ∧ severityTable alertTypes.DB_SLOW slowQuery = CRITICAL.
Proof.
  split; [reflexivity|]. split.
  - destruct (severity_follows_priority_table alertTypes.DB_SLOW slowQuery "a-1" 10)
      as [Htable _]; [reflexivity | exact Htable].
  - reflexivity.
Defined.

Lemma started_initialised : initialised started.1.
Proof. reflexivity. Qed.

(** Supporting C1: in a started system every [create] under a fresh
    identifier adds one more unresolved record for its pair. *)
Lemma create_adds_record bus am alertType data id eventId now :
  initialised bus →
  EventBus.map_get (alerts am) id = None →
  let am' := (create bus am alertType data id eventId now).1.2 in
  unresolvedOf am' alertType (Js.str_or (data_component data) "system")
  = unresolvedOf am alertType (Js.str_or (data_component data) "system")
    ++ [newAlert alertType data id now].
Proof.
  intros Hinit Hfresh.
  destruct (create_initialised bus am alertType data id eventId now Hinit)
    as (bus' & -> & _).
  simpl. unfold unresolvedOf. simpl.
  rewrite map_set_fresh by done. rewrite fmap_app, filter_app. simpl.
  rewrite filter_cons, filter_nil. by rewrite decide_True.
Qed.

(** C1, evaluated on the code. Two slow-query alerts created for the same
    pair, the first still unresolved: the store holds two unresolved records
    for the pair and neither carries an occurrence count. *)
Theorem two_creates_two_records :
  alert_id <$> unresolvedOf createdTwice.2 alertTypes.DB_SLOW "database"
  = ["a-1"; "a-2"]
  ∧ alert_count <$> unresolvedOf createdTwice.2 alertTypes.DB_SLOW "database"
    = [None; None]
  ∧ length (alerts createdTwice.2) = 2%nat.
Proof. vm_compute. auto. Qed.

(** C7 as amended. Acknowledging or resolving an unknown alert fails with
    the not-found error and changes nothing; resolving an alert of the store
    after acknowledging it yields [resolved = true]; resolving an alert that
    is already resolved raises no error and leaves it resolved, and it writes
    [autoResolved], [resolution], [resolvedAt] and [updatedAt] again from the
    second call and issues the database update again. *)
Theorem acknowledge_resolve_lifecycle
    (am : t) (alertId : string) (userId : option string)
    (options : ResolveOptions) (now later : Z) :
  (getAlert am alertId = None →
     acknowledge am alertId userId now = (am, Js.Throw (not_found alertId))
     ∧ resolve am alertId options now = (am, Js.Throw (not_found alertId)))
  ∧ (∀ alert, getAlert am alertId = Some alert →
       ∃ acked final,
         (acknowledge am alertId userId now).2 = Js.Ok acked
         ∧ resolve (acknowledge am alertId userId now).1 alertId options later
           = ((resolve (acknowledge am alertId userId now).1 alertId options later).1,
              Js.Ok final)
         ∧ alert_resolved final = true
         ∧ getAlert
             (resolve (acknowledge am alertId userId now).1 alertId options later).1
             alertId = Some final)
  ∧ (∀ alert, getAlert am alertId = Some alert → alert_resolved alert = true →
       resolve am alertId options now
       = (db_call
            (set_alerts am
               (EventBus.map_set (alerts am) alertId
                  (resolved_with (default false (opt_autoResolved options))
                     (default "" (opt_resolution options)) now alert)))
            (SystemAlertResolve alertId (default false (opt_autoResolved options)) now),
          Js.Ok (resolved_with (default false (opt_autoResolved options))
                   (default "" (opt_resolution options)) now alert))).
Proof.
  unfold getAlert. split_and!.
  - intros Hnone. unfold acknowledge, resolve. by rewrite Hnone.
  - intros alert Hsome. unfold acknowledge. rewrite Hsome. simpl.
    unfold resolve. simpl. rewrite map_get_set_eq. simpl.
    do 2 eexists. split_and!; try reflexivity.
    by rewrite map_get_set_eq.
  - intros alert Hsome _. unfold resolve. by rewrite Hsome.
Qed.

Lemma acknowledge_resolve_lifecycle_witness :
  ∃ final,
    (resolve (acknowledge createdOnce.2 "a-1" (Some "admin") 30).1 "a-1"
       {| opt_autoResolved := None; opt_resolution := None |} 40).2 = Js.Ok final
    ∧ alert_resolved final = true.
Proof.
  destruct (acknowledge_resolve_lifecycle createdOnce.2 "a-1" (Some "admin")
              {| opt_autoResolved := None; opt_resolution := None |} 30 40)
    as (_ & Hack & _).
  destruct (Hack _ eq_refl) as (acked & final & _ & Hres & Hfinal & _).
  exists final. rewrite Hres. split; [reflexivity | exact Hfinal].
Defined.

(** C7 as stated fails: a second [resolve] on the resolved alert raises no
    error, yet it changes the alert again (here [autoResolved] goes back to
    [false], the resolution text is erased, [resolvedAt] moves) and the
    database update is issued a second time. *)
Lemma second_resolve_changes_state :
  (∃ a, (resolve resolvedOnce "a-1"
           {| opt_autoResolved := None; opt_resolution := None |} 40).2 = Js.Ok a)
  ∧ alert_autoResolved <$> getAlert resolvedOnce "a-1" = Some true
  ∧ alert_autoResolved <$> getAlert resolvedTwice "a-1" = Some false
  ∧ alert_resolution <$> getAlert resolvedOnce "a-1" = Some (Some "index added")
  ∧ alert_resolution <$> getAlert resolvedTwice "a-1" = Some (Some "")
  ∧ alert_resolvedAt <$> getAlert resolvedOnce "a-1" = Some (Some 30)
  ∧ alert_resolvedAt <$> getAlert resolvedTwice "a-1" = Some (Some 40)
  ∧ length <$> db resolvedOnce = Some 2%nat
  ∧ length <$> db resolvedTwice = Some 3%nat.
Proof. split; [eexists; vm_compute; reflexivity|]. vm_compute. auto 10. Qed.

End AlertManagerFacts.

Module MetricsStoreFacts.
Import MetricsStore.

Lemma newest_all {A} k (l : list A) : (length l ≤ k)%nat → newest k l = l.
Proof. intros H. unfold newest. by replace (length l - k)%nat with 0%nat by lia. Qed.

Lemma newest_length {A} k (l : list A) : (length (newest k l) ≤ k)%nat.
Proof. unfold newest. rewrite length_drop. lia. Qed.

Lemma newest_app_newest {A} k (l1 l2 : list A) :
  newest k (newest k l1 ++ l2) = newest k (l1 ++ l2).
Proof.
  destruct (decide (length l1 ≤ k)%nat) as [Hle|Hgt].
  - by rewrite (newest_all k l1).
  - unfold newest at 1 3. rewrite !length_app.
    unfold newest. rewrite length_drop.
    replace (length l1 - (length l1 - k) + length l2 - k)%nat with (length l2) by lia.
    replace (length l1 + length l2 - k)%nat
      with ((length l1 - k) + length l2)%nat by lia.
    rewrite <- drop_drop. f_equal.
    rewrite drop_app_le by lia. done.
Qed.

Lemma newest_newest {A} k1 k2 (l : list A) :
  newest k1 (newest k2 l) = newest (k1 `min` k2) l.
Proof.
  unfold newest. rewrite length_drop, drop_drop. f_equal. lia.
Qed.

Lemma elem_of_newest {A} k (l1 l2 : list A) x :
  (length l2 < k)%nat → x ∈ newest k (l1 ++ x :: l2).
Proof.
  intros Hk. unfold newest. rewrite length_app. simpl.
  rewrite drop_app_le by lia. apply elem_of_app. right. apply list_elem_of_here.
Qed.

Lemma push_bounded_newest cap s x :
  0 < cap → Z.of_nat (length s) ≤ cap →
  push_bounded cap s x = newest (Z.to_nat cap) (s ++ [x]).
Proof.
  intros Hcap Hlen. unfold push_bounded, newest. rewrite length_app. simpl.
  case_bool_decide.
  - replace (length s + 1 - Z.to_nat cap)%nat with 1%nat by lia.
    by destruct s.
  - by replace (length s + 1 - Z.to_nat cap)%nat with 0%nat by lia.
Qed.

Lemma series_record st n v options newId now n' :
  series (record st n v options newId now).1 n'
  = if decide (n = n') then
      push_bounded (maxInMemoryPoints st) (series st n) (sample n v options newId now)
    else series st n'.
Proof.
  unfold series, record. simpl. case_decide.
  - subst. by rewrite lookup_insert_eq.
  - by rewrite lookup_insert_ne.
Qed.

Lemma record_all_cap calls : ∀ st,
  maxInMemoryPoints (record_all st calls) = maxInMemoryPoints st.
Proof.
  induction calls as [|c calls IH]; intros st; [done|].
  unfold record_all in *. simpl. by rewrite IH.
Qed.

Lemma series_record_all calls : ∀ st n,
  0 < maxInMemoryPoints st →
  Z.of_nat (length (series st n)) ≤ maxInMemoryPoints st →
  series (record_all st calls) n
  = newest (Z.to_nat (maxInMemoryPoints st)) (series st n ++ samples_of n calls).
Proof.
  induction calls as [|c calls IH]; intros st n Hcap Hlen.
  - unfold samples_of. simpl. rewrite app_nil_r, newest_all; [done|lia].
  - change (record_all st (c :: calls))
      with (record_all (record st (call_name c) (call_value c) (call_options c)
                          (call_id c) (call_now c)).1 calls).
    set (x := sample (call_name c) (call_value c) (call_options c)
                (call_id c) (call_now c)).
    set (st' := (record st (call_name c) (call_value c) (call_options c)
                   (call_id c) (call_now c)).1).
    assert (Hcap' : maxInMemoryPoints st' = maxInMemoryPoints st) by reflexivity.
    assert (Hs : series st' n
                 = if decide (call_name c = n) then
                     newest (Z.to_nat (maxInMemoryPoints st)) (series st n ++ [x])
                   else series st n).
    { unfold st'. rewrite series_record. case_decide; [|done]. subst n.
      by rewrite push_bounded_newest. }
    rewrite IH; rewrite Hcap'; [|done|].
    + rewrite Hs. unfold samples_of. rewrite filter_cons.
      case_decide as Hn; [|done]. simpl. fold x.
      rewrite newest_app_newest, <- app_assoc. done.
    + rewrite Hs. case_decide; [|done].
      pose proof (newest_length (Z.to_nat (maxInMemoryPoints st))
                    (series st n ++ [x])). lia.
Qed.

Lemma getStats_empty ar st n options :
  series st n = [] → getStats ar st n options = None.
Proof.
  intros Hs. unfold getStats, get. rewrite Hs.
  destruct (get_startTime options), (get_endTime options); simpl;
    unfold slice_neg; case_bool_decide; by rewrite ?filter_nil, drop_nil.
Qed.

Lemma newest_split {A} k (l1 l2 : list A) x :
  (length l2 < k)%nat →
  newest k (l1 ++ x :: l2) = newest (k - 1 - length l2) l1 ++ x :: l2.
Proof.
  intros Hk. unfold newest. rewrite length_app. simpl.
  rewrite drop_app_le by lia. f_equal. f_equal. lia.
Qed.

Lemma series_after_record st n v options newId now calls :
  0 < maxInMemoryPoints st →
  Z.of_nat (length (series st n)) ≤ maxInMemoryPoints st →
  series (record_all (record st n v options newId now).1 calls) n
  = newest (Z.to_nat (maxInMemoryPoints st))
      (series st n ++ sample n v options newId now :: samples_of n calls).
Proof.
  intros Hcap Hlen.
  assert (Hs : series (record st n v options newId now).1 n
               = newest (Z.to_nat (maxInMemoryPoints st))
                   (series st n ++ [sample n v options newId now])).
  { rewrite series_record, decide_True by done. by apply push_bounded_newest. }
  rewrite series_record_all;
    change (maxInMemoryPoints (record st n v options newId now).1)
      with (maxInMemoryPoints st); [| done |].
  - rewrite Hs, newest_app_newest, <- app_assoc. done.
  - rewrite Hs.
    pose proof (newest_length (Z.to_nat (maxInMemoryPoints st))
                  (series st n ++ [sample n v options newId now])). lia.
Qed.

Lemma samples_of_length n calls : length (samples_of n calls) = count_name n calls.
Proof. unfold samples_of, count_name. by rewrite length_fmap. Qed.

Lemma get_retained st n query m : m ∈ get st n query → m ∈ series st n.
Proof.
  unfold get, slice_neg. intros Hm.
  assert (Hin : m ∈ match get_endTime query with
                    | Some endTime =>
                        filter (λ m, timestamp m ≤ endTime)
                          match get_startTime query with
                          | Some startTime =>
                              filter (λ m, startTime ≤ timestamp m) (series st n)
                          | None => series st n
                          end
                    | None =>
                        match get_startTime query with
                        | Some startTime =>
                            filter (λ m, startTime ≤ timestamp m) (series st n)
                        | None => series st n
                        end
                    end).
  { case_bool_decide; by apply (subseteq_drop _ _ _ Hm). }
  destruct (get_endTime query), (get_startTime query);
    repeat (apply list_elem_of_filter in Hin as [_ Hin]); done.
Qed.

(** C8. A sample recorded under a name is retrievable by a query of that
    name until it is evicted. The series of the name keeps the newest
    [maxInMemoryPoints] samples (oldest evicted first), and a query returns
    samples of the series only. A query is bounded to the newest samples by
    its limit (100 when none is given): as long as fewer than
    [maxInMemoryPoints] later samples were recorded under the name, a query
    whose time bounds include the sample and whose limit is 0 or exceeds the
    number of later samples returns it, with the name, value and tags it was
    recorded with. And statistics over a name with no retained sample are
    [null], whatever the arithmetic ([getStats] is total, it has no failing
    case). *)
Theorem recorded_sample_retrievable
    (ar : Helpers.Arithmetic)
    (st : t) (n : string) (v : Q) (options : RecordOptions) (newId : string)
    (now : Z) (calls : list Call) (query : GetOptions) :
  0 < maxInMemoryPoints st →
  Z.of_nat (length (series st n)) ≤ maxInMemoryPoints st →
  Z.of_nat (count_name n calls) < maxInMemoryPoints st →
  from_option (λ startTime, startTime ≤ now) True (get_startTime query) →
  from_option (λ endTime, now ≤ endTime) True (get_endTime query) →
  default 100 (get_limit query) = 0
  ∨ Z.of_nat (count_name n calls) < default 100 (get_limit query) →
  (record st n v options newId now).2
    ∈ get (record_all (record st n v options newId now).1 calls) n query
  ∧ name (record st n v options newId now).2 = n
  ∧ value (record st n v options newId now).2 = v
  ∧ tags (record st n v options newId now).2 = default [] (opt_tags options)
  ∧ series (record_all (record st n v options newId now).1 calls) n
    = newest (Z.to_nat (maxInMemoryPoints st))
        (series st n ++ (record st n v options newId now).2 :: samples_of n calls)
  ∧ (∀ any m,
       m ∈ get (record_all (record st n v options newId now).1 calls) n any →
       m ∈ series (record_all (record st n v options newId now).1 calls) n)
  ∧ (∀ other, series (record_all (record st n v options newId now).1 calls) other = [] →
       getStats ar (record_all (record st n v options newId now).1 calls) other query
       = None).
Proof.
  intros Hcap Hlen Hkept Hstart Hend Hlimit.
  split_and!; try done;
    [| by apply series_after_record | intros any m; apply get_retained
     | intros other; apply getStats_empty].
  unfold get. rewrite series_after_record by done. simpl.
  set (m := sample n v options newId now).
  pose proof (samples_of_length n calls) as Hxs.
  rewrite newest_split by lia.
  set (pre := newest _ (series st n)).
  assert (Hin : ∀ (P : Metric → Prop) `{∀ x, Decision (P x)} l1 l2,
            P m → ∃ l1' l2', filter P (l1 ++ m :: l2) = l1' ++ m :: l2'
                             ∧ (length l2' ≤ length l2)%nat).
  { intros P HP l1 l2 Hm. exists (filter P l1), (filter P l2).
    rewrite filter_app, filter_cons, decide_True by done.
    split; [done|]. apply length_filter. }
  assert (H1 : ∃ l1 l2,
            match get_startTime query with
            | Some startTime => filter (λ m, startTime ≤ timestamp m) (pre ++ m :: samples_of n calls)
            | None => pre ++ m :: samples_of n calls
            end = l1 ++ m :: l2 ∧ (length l2 ≤ count_name n calls)%nat).
  { destruct (get_startTime query) as [startTime|]; simpl in Hstart.
    - destruct (Hin (λ m, startTime ≤ timestamp m) _ pre (samples_of n calls))
        as (l1 & l2 & -> & Hl); [done|]. exists l1, l2. split; [done|lia].
    - exists pre, (samples_of n calls). split; [done|lia]. }
  destruct H1 as (l1 & l2 & -> & Hl2).
  assert (H2 : ∃ l1' l2',
            match get_endTime query with
            | Some endTime => filter (λ m, timestamp m ≤ endTime) (l1 ++ m :: l2)
            | None => l1 ++ m :: l2
            end = l1' ++ m :: l2' ∧ (length l2' ≤ count_name n calls)%nat).
  { destruct (get_endTime query) as [endTime|]; simpl in Hend.
    - destruct (Hin (λ m, timestamp m ≤ endTime) _ l1 l2)
        as (l1' & l2' & -> & Hl); [done|]. exists l1', l2'. split; [done|lia].
    - exists l1, l2. split; [done|lia]. }
  destruct H2 as (l1' & l2' & -> & Hl2').
  unfold slice_neg. case_bool_decide as Hpos.
  - apply (elem_of_newest (Z.to_nat (default 100 (get_limit query)))). lia.
  - replace (default 100 (get_limit query)) with 0 by lia. simpl.
    apply elem_of_app. right. apply list_elem_of_here.
Qed.

Lemma recorded_sample_retrievable_witness :
  (record new "db_query_time" 5 noOptions "first" 0).2
    ∈ get first_then_hundred "db_query_time"
        {| get_startTime := Some 0; get_endTime := None; get_limit := Some 101 |}
  ∧ getStats Helpers.unrounded first_then_hundred "cpu_usage"
      {| get_startTime := Some 0; get_endTime := None; get_limit := Some 101 |}
    = None.
Proof.
  destruct (recorded_sample_retrievable Helpers.unrounded new "db_query_time" 5
              noOptions "first" 0 hundred_later
              {| get_startTime := Some 0; get_endTime := None;
                 get_limit := Some 101 |})
    as (Hin & _ & _ & _ & _ & _ & Hstats);
    [ vm_compute; (done || auto) .. | ].
  split; [exact Hin | apply Hstats; reflexivity].
Defined.

(** The limit at work: a hundred samples after it was recorded, the first
    sample is still retained (101 samples of a cap of 10000); the query with
    the default limit returns the hundred newest, and a query with a limit
    of 0 or of 101 returns the first sample too. *)
Lemma default_query_returns_the_newest_hundred :
  id <$> filter (λ m, id m = "first") (series first_then_hundred "db_query_time")
  = ["first"]
  ∧ length (series first_then_hundred "db_query_time") = 101%nat
  ∧ maxInMemoryPoints first_then_hundred = 10000
  ∧ length (get first_then_hundred "db_query_time" defaultGet) = 100%nat
  ∧ filter (λ m, id m = "first") (get first_then_hundred "db_query_time" defaultGet)
    = []
  ∧ id <$> filter (λ m, id m = "first")
             (get first_then_hundred "db_query_time"
                {| get_startTime := None; get_endTime := None; get_limit := Some 0 |})
    = ["first"]
  ∧ id <$> filter (λ m, id m = "first")
             (get first_then_hundred "db_query_time"
                {| get_startTime := None; get_endTime := None; get_limit := Some 101 |})
    = ["first"].
Proof. vm_compute. auto 10. Qed.

End MetricsStoreFacts.

Module MonitorAgentFacts.
Import Config MonitorAgent.

(** C4 as amended. Whatever the thresholds, a failed probe of an internal
    endpoint (rejection or timeout) or of the datastore raises exactly one
    alert, of critical severity, and a failed probe of the cache exactly one
    alert of high severity; an external service that does not answer raises
    no alert (it is marked degraded), and an exception elsewhere in the
    external check raises one alert of medium severity. *)
Theorem failed_probe_alerts
    (cfg : Config.t) (endpoint : string) (request : Settled)
    (failure serviceName message : string) (responseTime : Z) :
  withTimeout request (api_timeout cfg) ("API timeout: " +:+ endpoint)
  = Js.Throw failure →
  raised (checkEndpoint cfg endpoint request) = [(alertTypes.API_DOWN, CRITICAL)]
  ∧ raised (checkDatabase cfg (QueryFailed message))
    = [(alertTypes.DB_CONNECTION_ERROR, CRITICAL)]
  ∧ raised (checkRedis cfg (PingFailed message)) = [(alertTypes.REDIS_DOWN, HIGH)]
  ∧ raised (checkExternal serviceName (NoAnswer responseTime)) = []
  ∧ raised (checkExternal serviceName (CheckThrew message))
    = [(alertTypes.EXTERNAL_API_DOWN, MEDIUM)].
Proof.
  intros Hthrow. split_and!; try reflexivity.
  unfold checkEndpoint. by rewrite Hthrow.
Qed.

Lemma failed_probe_alerts_witness :
  withTimeout Pending (api_timeout defaults) ("API timeout: " +:+ "/health")
  = Js.Throw "API timeout: /health"
  ∧ raised (checkEndpoint defaults "/health" Pending) = [(alertTypes.API_DOWN, CRITICAL)]
  ∧ raised (checkRedis defaults (PingFailed "ECONNREFUSED"))
    = [(alertTypes.REDIS_DOWN, HIGH)].
Proof.
  split; [reflexivity|].
  destruct (failed_probe_alerts defaults "/health" Pending "API timeout: /health"
              "OpenAI" "ECONNREFUSED" 0) as (Hapi & _ & Hredis & _);
    [reflexivity|].
  split; [exact Hapi | exact Hredis].
Defined.

(** C4 as stated fails: an external service that cannot be reached within
    its timeout raises no alert at all, and the alert of the external check
    is of medium severity. *)
Lemma unreachable_external_service_raises_no_alert :
  raised (externalPass true defaults (λ _, NoAnswer 5000)) = []
  ∧ raised (externalPass true defaults (λ _, CheckThrew "failed"))
    = [(alertTypes.EXTERNAL_API_DOWN, MEDIUM);
       (alertTypes.EXTERNAL_API_DOWN, MEDIUM);
       (alertTypes.EXTERNAL_API_DOWN, MEDIUM)].
Proof. split; reflexivity. Qed.

End MonitorAgentFacts.

Module DiagnosticAgentFacts.
Import Config DiagnosticAgent.

Section WithHash.
Variable generateHash : string → string → string.
Variable cfg : Config.t.

Lemma followUp_repair alert d :
  requestsRepair (followUp cfg alert d)
  = Qle_bool (diagnostic_confidenceThreshold cfg) (confidence d) && autoFixable d.
Proof.
  unfold followUp.
  destruct (Qle_bool _ _ && autoFixable d); simpl; [done|].
  by destruct (negb _).
Qed.

Lemma followUp_escalate alert d :
  escalates (followUp cfg alert d)
  = negb (Qle_bool (diagnostic_confidenceThreshold cfg) (confidence d) && autoFixable d)
    && negb (Qle_bool (5 # 10) (confidence d)).
Proof.
  unfold followUp.
  destruct (Qle_bool _ _ && autoFixable d); simpl; [done|].
  by destruct (negb _).
Qed.

(** The effects of [handleAlert] when the alert is diagnosed with [d]. *)
Lemma handleAlert_diagnosed ag alert ai now ag' stored d :
  running ag = true →
  AlertManager.alert_id alert ∉ pendingDiagnoses ag →
  AlertManager.alert_severity alert ≠ INFO →
  AlertManager.alert_severity alert ≠ LOW →
  diagnose generateHash
    (set_pending ag ({[AlertManager.alert_id alert]} ∪ pendingDiagnoses ag))
    alert ai now = (ag', stored, Js.Ok d) →
  (handleAlert generateHash cfg ag alert ai now).2
  = stored
    ++ [PublishDiagnosis EventBus.CHANNELS.DIAGNOSIS (AlertManager.alert_id alert) d]
    ++ followUp cfg alert d.
Proof.
  intros Hrun Hpend Hinfo Hlow Hdiag. unfold handleAlert.
  rewrite Hrun. simpl.
  rewrite bool_decide_eq_false_2 by done.
  rewrite !bool_decide_eq_false_2 by done. simpl.
  by rewrite Hdiag.
Qed.

Lemma stored_no_request ag alert ai now ag' stored d :
  diagnose generateHash ag alert ai now = (ag', stored, d) →
  requestsRepair stored = false ∧ escalates stored = false.
Proof.
  unfold diagnose. destruct (checkCache _ _ _ _).
  - intros [= <- <- <-]. done.
  - destruct (rootCause _); intros [= <- <- <-]; by destruct (hasDb ag).
Qed.

(** C5 as amended. For a diagnosed alert, a repair request is published
    exactly when the confidence reaches the configured threshold and the
    diagnosis is auto-fixable; an escalation alert is raised exactly when no
    repair request is and the confidence is below 0.5; and when the
    configured threshold is above 0.3, a diagnosis of confidence 0.3 raises
    the escalation alert and no repair request. *)
Theorem repair_or_escalate
    (ag : t) (alert : AlertManager.Alert) (ai : AiOutcome) (now : Z)
    (ag' : t) (stored : list Effect) (d : Diagnosis) :
  running ag = true →
  AlertManager.alert_id alert ∉ pendingDiagnoses ag →
  AlertManager.alert_severity alert ≠ INFO →
  AlertManager.alert_severity alert ≠ LOW →
  diagnose generateHash
    (set_pending ag ({[AlertManager.alert_id alert]} ∪ pendingDiagnoses ag))
    alert ai now = (ag', stored, Js.Ok d) →
  (requestsRepair (handleAlert generateHash cfg ag alert ai now).2 = true
   ↔ (diagnostic_confidenceThreshold cfg <= confidence d)%Q ∧ autoFixable d = true)
  ∧ (escalates (handleAlert generateHash cfg ag alert ai now).2 = true
     ↔ requestsRepair (handleAlert generateHash cfg ag alert ai now).2 = false
       ∧ (confidence d < 5 # 10)%Q)
  ∧ ((3 # 10 < diagnostic_confidenceThreshold cfg)%Q →
     (confidence d == 3 # 10)%Q →
     requestsRepair (handleAlert generateHash cfg ag alert ai now).2 = false
     ∧ escalates (handleAlert generateHash cfg ag alert ai now).2 = true).
Proof.
  intros Hrun Hpend Hinfo Hlow Hdiag.
  rewrite (handleAlert_diagnosed ag alert ai now ag' stored d) by done.
  destruct (stored_no_request _ _ _ _ _ _ _ Hdiag) as [Hs1 Hs2].
  assert (Hrep : requestsRepair (stored
            ++ [PublishDiagnosis EventBus.CHANNELS.DIAGNOSIS
                  (AlertManager.alert_id alert) d] ++ followUp cfg alert d)
          = Qle_bool (diagnostic_confidenceThreshold cfg) (confidence d)
            && autoFixable d).
  { unfold requestsRepair in *. rewrite !existsb_app, Hs1. simpl.
    apply followUp_repair. }
  assert (Hesc : escalates (stored
            ++ [PublishDiagnosis EventBus.CHANNELS.DIAGNOSIS
                  (AlertManager.alert_id alert) d] ++ followUp cfg alert d)
          = negb (Qle_bool (diagnostic_confidenceThreshold cfg) (confidence d)
                  && autoFixable d)
            && negb (Qle_bool (5 # 10) (confidence d))).
  { unfold escalates in *. rewrite !existsb_app, Hs2. simpl.
    apply followUp_escalate. }
  rewrite Hrep, Hesc.
  assert (Hlt : negb (Qle_bool (5 # 10) (confidence d)) = true
                ↔ (confidence d < 5 # 10)%Q).
  { rewrite negb_true_iff. split.
    - intros Hf. apply Qnot_le_lt. intros Hle.
      apply Qle_bool_iff in Hle. congruence.
    - intros Hl. destruct (Qle_bool (5 # 10) (confidence d)) eqn:Hb; [|done].
      apply Qle_bool_iff in Hb. by apply Qlt_not_le in Hl. }
  split_and!.
  - rewrite andb_true_iff, Qle_bool_iff. done.
  - rewrite andb_true_iff, negb_true_iff, Hlt. done.
  - intros Hthr Hconf.
    assert (Hno : Qle_bool (diagnostic_confidenceThreshold cfg) (confidence d) = false).
    { destruct (Qle_bool _ _) eqn:Hb; [|done]. apply Qle_bool_iff in Hb.
      rewrite Hconf in Hb. by apply Qlt_not_le in Hthr. }
    rewrite Hno. simpl. split; [done|]. apply Hlt. rewrite Hconf. reflexivity.
Qed.

End WithHash.

Lemma repair_or_escalate_witness :
  requestsRepair
    (handleAlert joinHash defaults withBackend slowQueryAlert
       (AiAnswered unsureAnswer) 100).2 = false
  ∧ escalates
      (handleAlert joinHash defaults withBackend slowQueryAlert
         (AiAnswered unsureAnswer) 100).2 = true.
Proof.
  edestruct (repair_or_escalate joinHash defaults withBackend slowQueryAlert
               (AiAnswered unsureAnswer) 100) as (_ & _ & H);
    [ reflexivity | set_solver | done | done | vm_compute; reflexivity | ].
  apply H; reflexivity.
Defined.

(** C5 as stated fails: with the threshold configured at 0.2, a diagnosis of
    confidence 0.3 that is auto-fixable triggers a repair request and no
    escalation alert. *)
Lemma low_threshold_repairs_at_confidence_03 :
  confidence unsureAnswer = 3 # 10
  ∧ requestsRepair
      (handleAlert joinHash lowThreshold withBackend slowQueryAlert
         (AiAnswered unsureAnswer) 100).2 = true
  ∧ escalates
      (handleAlert joinHash lowThreshold withBackend slowQueryAlert
         (AiAnswered unsureAnswer) 100).2 = false.
Proof. vm_compute. auto. Qed.

End DiagnosticAgentFacts.

Module LearningAgentFacts.
Import Config LearningAgent.

Section WithHash.
Variable generateHash : Symptoms → string.
Variable cfg : Config.t.

Lemma reinforce_keeps_autoFix pattern result now :
  autoFixEnabled pattern = true →
  autoFixEnabled (reinforce cfg pattern result now) = true.
Proof. intros H. simpl. rewrite H. by destruct (_ && _). Qed.

Lemma learnFromRepair_lookup ag alertId diagnosis result newId now k :
  patterns (learnFromRepair generateHash cfg ag alertId diagnosis result newId now).1 !! k
  = if decide (generateHash (symptomsOf diagnosis) = k) then
      Some match patterns ag !! k with
           | Some pattern => reinforce cfg pattern result now
           | None => firstSeen k diagnosis result newId now
           end
    else patterns ag !! k.
Proof.
  unfold learnFromRepair. simpl. case_decide as Hk.
  - subst k. by rewrite lookup_insert_eq.
  - by rewrite lookup_insert_ne.
Qed.

Lemma handleRepairComplete_patterns ag alertId diagnosis result newId now :
  running ag = true →
  patterns (handleRepairComplete generateHash cfg ag alertId diagnosis result
              newId now)
  = if success result then
      patterns (learnFromRepair generateHash cfg ag alertId diagnosis result
                  newId now).1
    else patterns ag.
Proof.
  intros Hrun. unfold handleRepairComplete. rewrite Hrun. simpl.
  by destruct (success result).
Qed.

(** What the agent does with a repair outcome. While the agent runs, a
    successful outcome loads or creates the pattern under the hash of its
    signature, adds one to its success count, leaves its failure count, and
    sets the success rate to successCount / (successCount + failureCount);
    when the pattern existed and the new rate and count reach the configured
    minima, auto-fix is enabled. A failed outcome is queued and changes no
    pattern. No outcome disables auto-fix or removes a pattern; consolidation
    removes a pattern only if it is stale and its success rate is below one
    half, and leaves the others as they are. *)
Theorem learning_from_repairs
    (ag : t) (alertId : string) (diagnosis : Diagnosis) (result : RepairResult)
    (newId : string) (now : Z) :
  running ag = true →
  (success result = false →
     patterns (handleRepairComplete generateHash cfg ag alertId diagnosis result
                 newId now) = patterns ag)
  ∧ (success result = true →
       ∃ p',
         patterns (handleRepairComplete generateHash cfg ag alertId diagnosis
                     result newId now) !! generateHash (symptomsOf diagnosis)
         = Some p'
         ∧ successCount p'
           = (from_option successCount 0
                (patterns ag !! generateHash (symptomsOf diagnosis)) + 1)%N
         ∧ failureCount p'
           = from_option failureCount 0%N
               (patterns ag !! generateHash (symptomsOf diagnosis))
         ∧ (successRate p'
            == inject_Z (Z.of_N (successCount p'))
               / inject_Z (Z.of_N (successCount p' + failureCount p')))%Q
         ∧ (is_Some (patterns ag !! generateHash (symptomsOf diagnosis)) →
            (learning_minSuccessRate cfg <= successRate p')%Q →
            learning_minOccurrences cfg ≤ Z.of_N (successCount p') →
            autoFixEnabled p' = true))
  ∧ (∀ k p, patterns ag !! k = Some p → autoFixEnabled p = true →
       ∃ p',
         patterns (handleRepairComplete generateHash cfg ag alertId diagnosis
                     result newId now) !! k = Some p'
         ∧ autoFixEnabled p' = true)
  ∧ (∀ k p at_,
       patterns ag !! k = Some p →
       patterns (consolidatePatterns cfg ag at_) !! k = Some p
       ∨ (patterns (consolidatePatterns cfg ag at_) !! k = None
          ∧ at_ - lastAppliedAt p > learning_patternExpiry cfg * 24 * 60 * 60 * 1000
          ∧ (successRate p < 1 # 2)%Q)).
Proof.
  intros Hrun. rewrite handleRepairComplete_patterns by done.
  split_and!.
  - intros Hfail. by rewrite Hfail.
  - intros Hok. rewrite Hok. rewrite learnFromRepair_lookup.
    rewrite decide_True by done. simpl.
    destruct (patterns ag !! generateHash (symptomsOf diagnosis)) as [p|] eqn:Hp.
    + eexists. split; [reflexivity|]. simpl. rewrite Hok.
      split_and!; try reflexivity.
      intros _ Hrate Hocc. apply Qle_bool_iff in Hrate. rewrite Hrate.
      by rewrite bool_decide_eq_true_2.
    + eexists. split; [reflexivity|]. simpl. rewrite Hok.
      split_and!; try reflexivity. intros [? ?]. done.
  - intros k p Hk Hauto. destruct (success result).
    + rewrite learnFromRepair_lookup. simpl. case_decide as Hh.
      * rewrite Hk. eexists. split; [done|]. by apply reinforce_keeps_autoFix.
      * eauto.
    + eauto.
  - intros k p at_ Hk. unfold consolidatePatterns. simpl.
    destruct (prunable cfg at_ p) eqn:Hprune.
    + right. split.
      * apply map_lookup_filter_None. right. intros p0 Hp0. simpl.
        rewrite Hk in Hp0. injection Hp0 as <-. by rewrite Hprune.
      * unfold prunable in Hprune. apply andb_true_iff in Hprune as [Hage Hweak].
        apply bool_decide_eq_true in Hage. split; [lia|].
        apply negb_true_iff in Hweak. apply Qnot_le_lt. intros Hle.
        apply Qle_bool_iff in Hle. congruence.
    + left. apply map_lookup_filter_Some. done.
Qed.

End WithHash.

Lemma learning_from_repairs_witness :
  ∃ p',
    patterns afterSuccess !! joinHash (symptomsOf indexDiagnosis) = Some p'
    ∧ successCount p' = 1%N
    ∧ failureCount p' = 0%N.
Proof.
  destruct (learning_from_repairs joinHash defaults fresh "a-1" indexDiagnosis
              {| success := true; duration := Some 1200 |} "p-1" 50 eq_refl)
    as (_ & Hok & _).
  destruct (Hok eq_refl) as (p' & Hp & Hsc & Hfc & _).
  exists p'. split; [exact Hp|]. split; [exact Hsc | exact Hfc].
Defined.

(** Three successful repairs of the same signature in a row enable auto-fix
    under the default thresholds. *)
Example three_successes_enable_autoFix :
  autoFixEnabled <$>
    patterns
      (handleRepairComplete joinHash defaults
         (handleRepairComplete joinHash defaults afterSuccess "a-2" indexDiagnosis
            {| success := true; duration := None |} "p-2" 60)
         "a-3" indexDiagnosis {| success := true; duration := None |} "p-3" 70)
    !! joinHash (symptomsOf indexDiagnosis)
  = Some true.
Proof. vm_compute. reflexivity. Qed.

(** C3. The code departs from the claim on a failed repair outcome: it is
    put on the learning queue, which nothing reads, and [learnFromRepair],
    whose failure branch would count it, is not called. After one success
    and one failure of the same signature the pattern still counts no
    failure and keeps a success rate of 1, where the claim has a failure
    count of 1 and a rate of one half. *)
Lemma failed_repair_not_learned :
  failureCount <$> patterns afterFailure !! joinHash (symptomsOf indexDiagnosis)
  = Some 0%N
  ∧ successRate <$> patterns afterFailure !! joinHash (symptomsOf indexDiagnosis)
    = Some 1%Q
  ∧ patterns afterFailure = patterns afterSuccess
  ∧ length (learningQueue afterFailure) = 2%nat.
Proof. split_and!; reflexivity. Qed.

End LearningAgentFacts.

Module RegexFacts.
Import Regex.

Section Exec.
Variable ignoreCase : bool.

Lemma loop_consumes fuel step :
  consumes false step → consumes false (loop fuel step).
Proof.
  intros Hstep. induction fuel as [|fuel IH]; intros pos k x Hx; simpl in Hx.
  - exists pos. split_and!; [done | lia | done].
  - destruct (step pos _) as [m|] eqn:Hm.
    + injection Hx as ->. apply Hstep in Hm as (pos1 & Hk & Hle & _).
      case_bool_decide; [|done].
      apply IH in Hk as (pos2 & Hk2 & Hle2 & _).
      exists pos2. split_and!; [done | lia | done].
    + exists pos. split_and!; [done | lia | done].
Qed.

Lemma exec_consumes r : consumes (negb (nullable r)) (exec ignoreCase r).
Proof.
  induction r as [|c|f|r1 IH1 r2 IH2|r1 IH1 r2 IH2|r1 IH1|r1 IH1|];
    intros pos k x Hx; simpl in Hx.
  - exists pos. split_and!; [done | lia | done].
  - destruct pos as [before [|c0 s]]; simpl in *; [done|].
    destruct (same ignoreCase c0 c); [|done].
    eexists. split; [exact Hx|]. simpl. split; [lia|]. intros; lia.
  - destruct pos as [before [|c0 s]]; simpl in *; [done|].
    destruct (f c0); [|done].
    eexists. split; [exact Hx|]. simpl. split; [lia|]. intros; lia.
  - apply IH1 in Hx as (pos1 & Hx & Hle1 & Hlt1).
    apply IH2 in Hx as (pos2 & Hx & Hle2 & Hlt2).
    exists pos2. split_and!; [done | lia |]. simpl.
    rewrite negb_andb. intros [H|H]%orb_true_iff; [specialize (Hlt1 H) | specialize (Hlt2 H)]; lia.
  - simpl. rewrite negb_orb.
    destruct (exec ignoreCase r1 pos k) as [m|] eqn:Hm.
    + injection Hx as ->. apply IH1 in Hm as (pos1 & Hk & Hle & Hlt).
      exists pos1. split_and!; [done | done |]. intros [H _]%andb_true_iff. auto.
    + apply IH2 in Hx as (pos1 & Hk & Hle & Hlt).
      exists pos1. split_and!; [done | done |]. intros [_ H]%andb_true_iff. auto.
  - apply IH1 in Hx as (pos1 & Hx & Hle1 & Hlt1).
    apply loop_consumes in Hx as (pos2 & Hx & Hle2 & _).
    + exists pos2. split_and!; [done | lia |]. simpl. intros H.
      specialize (Hlt1 H). lia.
    + intros pos0 k0 x0 H0. apply IH1 in H0 as (pos3 & ? & ? & _).
      exists pos3. done.
  - apply loop_consumes in Hx as (pos2 & Hx & Hle2 & _).
    + exists pos2. split_and!; [done | lia | done].
    + intros pos0 k0 x0 H0. apply IH1 in H0 as (pos3 & ? & ? & _).
      exists pos3. done.
  - destruct (at_boundary pos); [|done].
    exists pos. split_and!; [done | lia | done].
Qed.

Lemma loop_local fuel step : local step → local (loop fuel step).
Proof.
  intros Hstep. induction fuel as [|fuel IH]; intros pos k1 k2 Hk; simpl.
  - apply Hk. lia.
  - rewrite (Hk pos) by lia.
    erewrite (Hstep pos); [reflexivity|].
    intros p Hp. simpl. case_bool_decide; [|done].
    apply IH. intros p' Hp'. apply Hk. lia.
Qed.

Lemma exec_local r : local (exec ignoreCase r).
Proof.
  induction r as [|c|f|r1 IH1 r2 IH2|r1 IH1 r2 IH2|r1 IH1|r1 IH1|];
    intros pos k1 k2 Hk; simpl.
  - apply Hk. lia.
  - destruct pos as [before [|c0 s]]; simpl in *; [done|].
    destruct (same ignoreCase c0 c); [|done]. apply Hk. simpl. lia.
  - destruct pos as [before [|c0 s]]; simpl in *; [done|].
    destruct (f c0); [|done]. apply Hk. simpl. lia.
  - apply IH1. intros p Hp. apply IH2. intros p' Hp'. apply Hk. lia.
  - rewrite (IH1 pos k1 k2 Hk), (IH2 pos k1 k2 Hk). done.
  - apply IH1. intros p Hp. apply loop_local; [exact IH1|].
    intros p' Hp'. apply Hk. lia.
  - apply loop_local; [exact IH1 | exact Hk].
  - destruct (at_boundary pos); [|done]. apply Hk. lia.
Qed.

(** The fuel of a quantifier loop, the length of the rest of the input, is
    enough: more fuel gives the same result. *)
Lemma loop_fuel step fuel1 : ∀ fuel2 pos k,
  local step → consumes false step →
  (length (rest pos) ≤ fuel1)%nat → (length (rest pos) ≤ fuel2)%nat →
  loop fuel1 step pos k = loop fuel2 step pos k.
Proof.
  assert (Hstop : ∀ fuel pos k,
            consumes false step → length (rest pos) = 0%nat →
            loop fuel step pos k = k pos).
  { intros [|fuel] pos k Hc Hlen; simpl; [done|].
    destruct (step pos _) as [x|] eqn:Hx; [|done].
    apply Hc in Hx as (p & Hp & _). case_bool_decide; [lia|done]. }
  induction fuel1 as [|fuel1 IH]; intros fuel2 pos k Hl Hc H1 H2.
  - rewrite !Hstop by (done || lia). done.
  - destruct fuel2 as [|fuel2].
    + rewrite !Hstop by (done || lia). done.
    + simpl. erewrite (Hl pos); [reflexivity|].
      intros p Hp. simpl. case_bool_decide; [|done].
      apply IH; (done || lia).
Qed.

(** An expression that cannot match the empty string only gives non-empty
    matches. *)
Lemma match_at_nonempty r pos m :
  nullable r = false → match_at ignoreCase r pos = Some m → m ≠ [].
Proof.
  intros Hnull. unfold match_at.
  destruct (exec ignoreCase r pos _) as [remaining|] eqn:Hexec; [|done].
  simpl. intros [= <-].
  apply exec_consumes in Hexec as (pos' & [= <-] & _ & Hlt).
  rewrite Hnull in Hlt. specialize (Hlt eq_refl).
  destruct (rest pos) as [|c s]; simpl in *; [lia|].
  destruct (S (length s) - length (rest pos'))%nat eqn:Hd; [lia|done].
Qed.

Lemma search_from_nonempty r before s m :
  nullable r = false → search_from ignoreCase r before s = Some m → m ≠ [].
Proof.
  intros Hnull. revert before. induction s as [|c s IH]; intros before; simpl.
  - destruct (match_at _ _ _) eqn:Hm; [|done].
    intros [= <-]. by eapply match_at_nonempty.
  - destruct (match_at _ _ _) eqn:Hm.
    + intros [= <-]. by eapply match_at_nonempty.
    + apply IH.
Qed.

(** A match somewhere later in the input is enough for [search_from] to
    find a match. *)
Lemma search_from_skip r before1 s1 s2 :
  (∀ before, is_Some (match_at ignoreCase r {| prev := before; rest := s2 |})) →
  is_Some (search_from ignoreCase r before1 (s1 ++ s2)).
Proof.
  intros Hhere. revert before1. induction s1 as [|c s1 IH]; intros before1.
  - simpl. destruct s2 as [|c2 s2'].
    + simpl. destruct (Hhere before1) as [m ->]. done.
    + simpl. destruct (Hhere before1) as [m ->]. done.
  - simpl. destruct (match_at _ _ _); [done|]. apply IH.
Qed.

End Exec.

Lemma read_octet_shorter s b remaining :
  Uri.read_octet s = Some (b, remaining) → length s = (length remaining + 3)%nat.
Proof.
  unfold Uri.read_octet. destruct s as [|c [|h1 [|h2 s]]]; try done;
    repeat case_match; try done. intros [= <- <-]. simpl. lia.
Qed.

Lemma read_continuations_shorter n : ∀ s octets remaining,
  Uri.read_continuations n s = Some (octets, remaining) →
  (length remaining ≤ length s)%nat.
Proof.
  induction n as [|n IH]; intros s octets remaining; simpl.
  - intros [= <- <-]. lia.
  - destruct (Uri.read_octet s) as [[b s1]|] eqn:Hr; [|done].
    case_bool_decide; [|done].
    destruct (Uri.read_continuations n s1) as [[os s2]|] eqn:Hc; [|done].
    intros [= <- <-]. apply IH in Hc. apply read_octet_shorter in Hr. lia.
Qed.

(** The fuel of [decodeURIComponent], the length of its input, is enough:
    more fuel gives the same result, so [None] always stands for the
    [URIError]. *)
Lemma decode_fuel fuel1 : ∀ fuel2 s,
  (length s ≤ fuel1)%nat → (length s ≤ fuel2)%nat →
  Uri.decode fuel1 s = Uri.decode fuel2 s.
Proof.
  induction fuel1 as [|fuel1 IH]; intros fuel2 s H1 H2.
  - destruct s; simpl in *; [by destruct fuel2 | lia].
  - destruct s as [|c s]; [by destruct fuel2|].
    destruct fuel2 as [|fuel2]; simpl in H1, H2; [lia|].
    cbn [Uri.decode].
    case_bool_decide.
    + destruct (Uri.read_octet (c :: s)) as [[b s1]|] eqn:Hr; [|done].
      apply read_octet_shorter in Hr as Hlen. simpl in Hlen.
      case_bool_decide.
      * rewrite (IH fuel2 s1) by lia. done.
      * destruct (Uri.sequence_length b) as [n|]; [|done].
        destruct (Uri.read_continuations (n - 1) s1) as [[octets s2]|] eqn:Hc;
          [|done].
        apply read_continuations_shorter in Hc.
        destruct (Uri.utf8_value b octets); [|done].
        rewrite (IH fuel2 s2) by lia. done.
    + rewrite (IH fuel2 s) by lia. done.
Qed.

End RegexFacts.

Module SecurityAgentFacts.
Import Config Regex RegexFacts SecurityAgent.

Lemma truthy_nonempty m c s : m = Some (c :: s) → truthy m = Some (c :: s).
Proof. by intros ->. Qed.

Lemma truthy_Some m x : truthy m = Some x → ∃ c s, x = c :: s.
Proof. destruct m as [[|c s]|]; simpl; [done| |done]. intros [= <-]. eauto. Qed.



Lemma firstValue_found check props key value c s :
  (key, value) ∈ props →
  check value = Some (c :: s) →
  (∀ v m, check v = Some m → ∃ c' s', m = c' :: s') →
  ∃ c' s', firstValue check props = Some (c' :: s').
Proof.
  intros Hin Hcheck Hne. induction props as [|[k v] props IH].
  - by apply elem_of_nil in Hin.
  - simpl. destruct (check v) as [m|] eqn:Hv.
    + destruct (Hne v m Hv) as (c' & s' & ->). eauto.
    + apply elem_of_cons in Hin as [[= <- <-]|Hin]; [congruence|]. by apply IH.
Qed.


Section WithConfig.
Variable cfg : Config.t.

Lemma grows_refl ag : grows ag ag.
Proof. split_and!; [done | done |]. exists []. by rewrite app_nil_r. Qed.

Lemma grows_trans ag1 ag2 ag3 : grows ag1 ag2 → grows ag2 ag3 → grows ag1 ag3.
Proof.
  intros (Hb1 & Hd1 & es1 & He1) (Hb2 & Hd2 & es2 & He2).
  split_and!; [set_solver | congruence |].
  exists (es1 ++ es2). by rewrite He2, He1, app_assoc.
Qed.

Lemma grows_emit ag es : grows ag (emit ag es).
Proof. split_and!; [done | done |]. by exists es. Qed.

Lemma grows_blockIP ag address duration : grows ag (blockIP ag address duration).
Proof.
  unfold blockIP. split_and!; simpl; [set_solver | done |]. eauto.
Qed.




Lemma mitigate_grows ag threat : grows ag (mitigate cfg ag threat).1.1.
Proof.
  unfold mitigate.
  repeat (case_match; simpl; try apply grows_blockIP; try apply grows_refl).
  - eapply grows_trans; [apply grows_blockIP|]. unfold lockAccount. apply grows_emit.
  - unfold throttleIP. apply grows_emit.
Qed.

Lemma handleThreat_grows ag threat newId now :
  grows ag (handleThreat cfg ag threat newId now).1.
Proof.
  unfold handleThreat.
  pose proof (mitigate_grows ag threat) as Hm.
  destruct (mitigate cfg ag threat) as [[ag1 action] blocked]. simpl in *.
  eapply grows_trans; [exact Hm|]. apply grows_emit.
Qed.



Lemma blockIP_blocks ag address duration :
  address ∈ blockedIPs (blockIP ag address duration).
Proof. unfold blockIP. simpl. set_solver. Qed.

Lemma mitigate_blocks ag threat :
  threat_type threat = "SQL_INJECTION" ∨ threat_type threat = "PATH_TRAVERSAL"
  ∨ threat_type threat = "BRUTE_FORCE" →
  threat_ip threat ∈ blockedIPs (mitigate cfg ag threat).1.1
  ∧ (mitigate cfg ag threat).2 = true
  ∧ (threat_type threat = "BRUTE_FORCE" →
     (mitigate cfg ag threat).1.2 = Some "BLOCK_IP_1H").
Proof.
  unfold mitigate. intros [-> | [-> | ->]];
    repeat first [ rewrite bool_decide_eq_true_2 by reflexivity
                 | rewrite bool_decide_eq_false_2 by discriminate ];
    cbn -[blockIP lockAccount].
  - split_and!; [apply blockIP_blocks | done | done].
  - split_and!; [apply blockIP_blocks | done | done].
  - split_and!; [|done|done].
    pose proof (blockIP_blocks ag (threat_ip threat) (security_lockoutDuration cfg)).
    destruct (threat_userId threat) as [u|]; [|done].
    case_bool_decide; [done|]. unfold lockAccount. cbn -[blockIP]. done.
Qed.

Lemma handleThreat_blocks ag threat newId now :
  threat_type threat = "SQL_INJECTION" ∨ threat_type threat = "PATH_TRAVERSAL"
  ∨ threat_type threat = "BRUTE_FORCE" →
  threat_ip threat ∈ blockedIPs (handleThreat cfg ag threat newId now).1.
Proof.
  intros Hty. unfold handleThreat.
  destruct (mitigate_blocks ag threat Hty) as (Hin & _).
  destruct (mitigate cfg ag threat) as [[ag1 action] blocked]. exact Hin.
Qed.




Lemma recordFailedLogin_grows ag address user email newId now :
  grows ag (recordFailedLogin cfg ag address user email newId now).
Proof.
  unfold recordFailedLogin.
  destruct (RateLimiter.isAllowed (loginLimiter ag) address now) as [allowed limiter].
  eapply grows_trans; [|apply grows_emit].
  destruct allowed.
  - split_and!; simpl; [done | done |]. exists []. by rewrite app_nil_r.
  - match goal with
    | |- grows _ (handleThreat _ ?a ?th _ _).1 =>
        eapply grows_trans; [|apply (handleThreat_grows a th newId now)]
    end.
    split_and!; simpl; [done | done |]. exists []. by rewrite app_nil_r.
Qed.






End WithConfig.



End SecurityAgentFacts.

Module RetryFacts.
Import Retry.

Section Loop.
Context {A : Type}.
Variable fn : Z → Js.result A.
Variable options : Options.

Lemma loop_first_success remaining : ∀ attempt delay lastError k a,
  attempt ≤ k < attempt + Z.of_nat remaining →
  (∀ j, attempt ≤ j < k → throws fn j) →
  fn k = Js.Ok a →
  (loop fn options remaining attempt delay lastError).2 = Returned a
  ∧ calls (loop fn options remaining attempt delay lastError).1
    = seqZ attempt (k - attempt + 1).
Proof.
  induction remaining as [|remaining IH]; intros attempt delay lastError k a Hk Hbefore Hok.
  - lia.
  - simpl. destruct (decide (attempt = k)) as [->|Hne].
    + rewrite Hok. simpl. replace (k - k + 1) with 1 by lia. done.
    + destruct (Hbefore attempt) as [error Herr]; [lia|]. rewrite Herr.
      assert (Hrest : attempt + 1 ≤ k < attempt + 1 + Z.of_nat remaining) by lia.
      assert (Hb : ∀ j, attempt + 1 ≤ j < k → throws fn j) by (intros; apply Hbefore; lia).
      replace (k - attempt + 1) with (Z.succ (k - (attempt + 1) + 1)) by lia.
      rewrite seqZ_cons by lia.
      replace (Z.pred (Z.succ (k - (attempt + 1) + 1))) with (k - (attempt + 1) + 1) by lia.
      replace (Z.succ attempt) with (attempt + 1) by lia.
      case_bool_decide.
      * destruct (IH (attempt + 1) (delay * factor options)%Q (Some error) k a Hrest Hb Hok)
          as [Hout Hcalls].
        destruct (loop fn options remaining _ _ _) as [trace outcome].
        simpl in *. by rewrite Hcalls.
      * destruct (IH (attempt + 1) delay (Some error) k a Hrest Hb Hok)
          as [Hout Hcalls].
        destruct (loop fn options remaining _ _ _) as [trace outcome].
        simpl in *. by rewrite Hcalls.
Qed.

Lemma loop_all_fail remaining : ∀ attempt delay lastError,
  (∀ j, attempt ≤ j < attempt + Z.of_nat remaining → throws fn j) →
  (loop fn options remaining attempt delay lastError).2
  = match remaining with
    | O => match lastError with Some e => Rethrown e | None => ThrewUndefined end
    | S n =>
        match fn (attempt + Z.of_nat n) with
        | Js.Throw e => Rethrown e
        | Js.Ok a => Returned a
        end
    end
  ∧ calls (loop fn options remaining attempt delay lastError).1
    = seqZ attempt (Z.of_nat remaining).
Proof.
  induction remaining as [|remaining IH]; intros attempt delay lastError Hall.
  - done.
  - simpl loop. destruct (Hall attempt) as [error Herr]; [lia|]. rewrite Herr.
    assert (Hb : ∀ j, attempt + 1 ≤ j < attempt + 1 + Z.of_nat remaining → throws fn j)
      by (intros; apply Hall; lia).
    rewrite seqZ_cons by lia.
    replace (Z.pred (Z.of_nat (S remaining))) with (Z.of_nat remaining) by lia.
    replace (Z.succ attempt) with (attempt + 1) by lia.
    assert (Hlast : match remaining with
                    | O => Rethrown error
                    | S n => match fn (attempt + 1 + Z.of_nat n) with
                             | Js.Throw e => Rethrown e
                             | Js.Ok a => Returned a
                             end
                    end
                    = match fn (attempt + Z.of_nat remaining) with
                      | Js.Throw e => Rethrown e
                      | Js.Ok a => Returned a
                      end :> Outcome A).
    { destruct remaining as [|n].
      - replace (attempt + Z.of_nat 0) with attempt by lia. by rewrite Herr.
      - by replace (attempt + 1 + Z.of_nat n) with (attempt + Z.of_nat (S n)) by lia. }
    case_bool_decide.
    + destruct (IH (attempt + 1) (delay * factor options)%Q (Some error) Hb)
        as [Hout Hcalls].
      destruct (loop fn options remaining _ _ _) as [trace outcome].
      simpl in *. rewrite Hcalls, Hout. done.
    + destruct (IH (attempt + 1) delay (Some error) Hb) as [Hout Hcalls].
      destruct (loop fn options remaining _ _ _) as [trace outcome].
      simpl in *. rewrite Hcalls, Hout. done.
Qed.

(** X1. [retry] returns the value of the first call of [fn] that succeeds,
    after calling [fn] exactly once per attempt up to that one; when every
    one of the [maxRetries] attempts fails it throws the error of the last
    attempt after exactly [maxRetries] calls; and with [maxRetries] at or
    below zero it calls nothing and throws [undefined]. *)
Theorem retry_result :
  (∀ k a, 1 ≤ k ≤ maxRetries options →
          (∀ j, 1 ≤ j < k → throws fn j) → fn k = Js.Ok a →
          (retry fn options).2 = Returned a
          ∧ calls (retry fn options).1 = seqZ 1 k)
  ∧ (∀ error, 1 ≤ maxRetries options →
              (∀ j, 1 ≤ j ≤ maxRetries options → throws fn j) →
              fn (maxRetries options) = Js.Throw error →
              (retry fn options).2 = Rethrown error
              ∧ calls (retry fn options).1 = seqZ 1 (maxRetries options))
  ∧ (maxRetries options ≤ 0 → retry fn options = ([], ThrewUndefined)).
Proof.
  unfold retry. split_and!.
  - intros k a Hk Hbefore Hok.
    destruct (loop_first_success (Z.to_nat (maxRetries options)) 1
                (initialDelay options) None k a) as [Hout Hcalls]; [lia|done|done|].
    split; [done|]. rewrite Hcalls. f_equal. lia.
  - intros error Hmax Hall Hlast.
    destruct (loop_all_fail (Z.to_nat (maxRetries options)) 1
                (initialDelay options) None) as [Hout Hcalls].
    { intros j Hj. apply Hall. lia. }
    split.
    + rewrite Hout. destruct (Z.to_nat (maxRetries options)) as [|n] eqn:Hn; [lia|].
      replace (1 + Z.of_nat n) with (maxRetries options) by lia.
      by rewrite Hlast.
    + rewrite Hcalls. f_equal. lia.
  - intros Hle. by replace (Z.to_nat (maxRetries options)) with 0%nat by lia.
Qed.

Lemma capped_le delay : (capped options delay <= maxDelay options)%Q.
Proof.
  unfold capped. destruct (Qle_bool delay (maxDelay options)) eqn:H.
  - by apply Qle_bool_iff.
  - apply Qle_refl.
Qed.

Lemma capped_proper d1 d2 :
  (d1 == d2)%Q → (capped options d1 == capped options d2)%Q.
Proof.
  intros Heq. unfold capped.
  destruct (Qle_bool d1 (maxDelay options)) eqn:H1,
           (Qle_bool d2 (maxDelay options)) eqn:H2; try done.
  - apply Qle_bool_iff in H1. rewrite Heq in H1. apply Qle_bool_iff in H1. congruence.
  - apply Qle_bool_iff in H2. rewrite <- Heq in H2. apply Qle_bool_iff in H2. congruence.
Qed.

Lemma Qpower_succ (q : Q) (i : nat) :
  (q ^ Z.of_nat (S i) == q * q ^ Z.of_nat i)%Q.
Proof.
  rewrite Nat2Z.inj_succ. unfold Z.succ.
  rewrite Qpower_plus' by lia. simpl. ring.
Qed.

Lemma loop_pauses remaining : ∀ attempt delay lastError i ms,
  pauses (loop fn options remaining attempt delay lastError).1 !! i = Some ms →
  (ms == capped options (delay * factor options ^ Z.of_nat i))%Q
  ∧ attempt + Z.of_nat i < maxRetries options.
Proof.
  induction remaining as [|remaining IH]; intros attempt delay lastError i ms; simpl.
  - done.
  - destruct (fn attempt) as [a|error]; [done|].
    case_bool_decide as Hlt.
    + specialize (IH (attempt + 1) (delay * factor options)%Q (Some error)).
      destruct (loop fn options remaining _ _ _) as [trace outcome]. simpl in *.
      destruct i as [|i]; simpl.
      * intros [= <-]. split; [|lia]. apply capped_proper. simpl. ring.
      * intros Hi. apply IH in Hi as [Hms Hbound]. split; [|lia].
        rewrite Hms. apply capped_proper.
        rewrite (Qpower_succ (factor options) i). ring.
    + specialize (IH (attempt + 1) delay (Some error)).
      destruct (loop fn options remaining _ _ _) as [trace outcome]. simpl in *.
      intros Hi. apply IH in Hi as [_ Hbound]. lia.
Qed.

(** X2. The pauses of [retry] back off exponentially under a cap: the pause
    after the failed attempt number [i + 1] lasts
    [min(initialDelay * factor^i, maxDelay)] milliseconds, no pause is longer
    than [maxDelay], and there is no pause after the last attempt. *)
Theorem retry_backoff (i : nat) (ms : Q) :
  pauses (retry fn options).1 !! i = Some ms →
  (ms == capped options (initialDelay options * factor options ^ Z.of_nat i))%Q
  ∧ (ms <= maxDelay options)%Q
  ∧ Z.of_nat i + 1 < maxRetries options.
Proof.
  intros Hi. apply loop_pauses in Hi as [Hms Hbound].
  split_and!; [done| |lia].
  rewrite Hms. apply capped_le.
Qed.

End Loop.

Lemma retry_backoff_witness :
  pauses (retry thirdTimeLucky defaultOptions).1 !! 1%nat = Some (1000 * 2)%Q
  ∧ (1000 * 2 <= 30000)%Q.
Proof.
  split; [reflexivity|].
  destruct (retry_backoff thirdTimeLucky defaultOptions 1 (1000 * 2)%Q) as (_ & H & _);
    [reflexivity | exact H].
Defined.

Lemma retry_result_witness :
  (retry thirdTimeLucky defaultOptions).2 = Returned "pong"
  ∧ calls (retry thirdTimeLucky defaultOptions).1 = [1; 2; 3].
Proof.
  destruct (retry_result thirdTimeLucky defaultOptions) as (H & _ & _).
  apply (H 3 "pong"); [done| |done].
  intros j Hj. exists "ECONNRESET". unfold thirdTimeLucky.
  rewrite bool_decide_eq_true_2 by lia. done.
Defined.

End RetryFacts.

Module CircuitBreakerFacts.
Import CircuitBreaker.

Section Calls.
Context {A : Type}.
Implicit Types (cb : t) (fn : Js.result A) (calls : list (Call A)).

Lemma failed_cons c calls :
  failed (c :: calls) = (if fails c then 1 else 0) + failed calls.
Proof.
  unfold failed. rewrite filter_cons.
  destruct (decide (fails c = true)) as [->|Hf]; simpl; [lia|].
  destruct (fails c); [done|lia].
Qed.

Lemma failed_nonneg calls : 0 ≤ failed calls.
Proof. unfold failed. lia. Qed.

Lemma execute_fields cb fn now later :
  failureThreshold (execute cb fn now later).1.1 = failureThreshold cb
  ∧ resetTimeout (execute cb fn now later).1.1 = resetTimeout cb.
Proof.
  unfold execute, entry, recordSuccess.
  repeat (case_bool_decide || destruct fn); done.
Qed.

(** X3. A closed breaker counts failures in total, not in a row: calls that
    succeed in between do not lower the count. While fewer failures than the
    threshold are on record it stays closed and every call goes through to
    [fn]; the failure that brings the count to the threshold opens it. *)
Theorem breaker_counts_failures cb calls error now later :
  state cb = CLOSED →
  failures cb + failed calls < failureThreshold cb →
  state (run cb calls) = CLOSED
  ∧ failures (run cb calls) = failures cb + failed calls
  ∧ (failureThreshold cb ≤ failures cb + failed calls + 1 →
     let '(cb', called, result) :=
       execute (run cb calls) (Js.Throw error : Js.result A) now later in
     state cb' = OPEN ∧ called = true ∧ lastFailure cb' = Some later
     ∧ result = Js.Throw error).
Proof.
  revert cb. induction calls as [|c calls IH]; intros cb Hclosed Hbelow.
  - unfold failed in *. simpl in *. split_and!; [done|lia|].
    intros Hreach. unfold execute, entry. rewrite Hclosed. simpl.
    rewrite bool_decide_eq_true_2 by lia. done.
  - rewrite failed_cons in *. pose proof (failed_nonneg calls) as Hnn.
    simpl.
    set (cb1 := (execute cb (call_fn c) (call_now c) (call_later c)).1.1).
    assert (Hstep : state cb1 = CLOSED
                    ∧ failures cb1 = failures cb + (if fails c then 1 else 0)
                    ∧ failureThreshold cb1 = failureThreshold cb).
    { unfold cb1, execute, entry, recordSuccess. unfold fails in *.
      rewrite Hclosed. simpl.
      destruct (call_fn c) as [a|e]; simpl.
      - rewrite Hclosed. simpl. split_and!; (done || lia).
      - rewrite bool_decide_eq_false_2 by lia. split_and!; (done || lia). }
    destruct Hstep as (Hc1 & Hf1 & Ht1).
    destruct (IH cb1) as (Hs & Hf & Hopen); [done|lia|].
    fold (run cb1 calls) in *.
    split_and!; [done|lia|].
    intros Hreach. rewrite Ht1 in Hopen. apply Hopen. lia.
Qed.

(** X4. An open breaker fails fast: until the reset timeout has passed since
    the last failure, [execute] throws without calling [fn] and leaves the
    breaker as it is, for any number of calls. The first call after the
    timeout goes through to [fn]; if that call fails, the breaker (whose
    failure count is already at the threshold) is open again with the timeout
    restarted. *)
Theorem open_breaker_fails_fast cb calls fn now later :
  consistent cb →
  Forall (λ c, refused cb (call_now c)) calls →
  run cb calls = cb
  ∧ Forall (λ c, execute cb (call_fn c) (call_now c) (call_later c)
                 = (cb, false, Js.Throw "Circuit breaker is OPEN")) calls
  ∧ (state cb = OPEN → resetTimeout cb < now - default 0 (lastFailure cb) →
     (execute cb fn now later).1.2 = true
     ∧ ∀ error, fn = Js.Throw error →
         state (execute cb fn now later).1.1 = OPEN
         ∧ lastFailure (execute cb fn now later).1.1 = Some later).
Proof.
  intros (Hpos & Hiff & Hf & Hs) Hall.
  assert (Hrefuse : ∀ c : Call A, refused cb (call_now c) →
            execute cb (call_fn c) (call_now c) (call_later c)
            = (cb, false, Js.Throw "Circuit breaker is OPEN")).
  { intros c [Hopen Hwin]. unfold execute, entry. rewrite Hopen. simpl.
    rewrite bool_decide_eq_false_2 by lia. done. }
  split_and!.
  - induction Hall as [|c calls Hc _ IH]; [done|].
    simpl. rewrite (Hrefuse c Hc). simpl. exact IH.
  - eapply Forall_impl; [exact Hall|]. intros c Hc. by apply Hrefuse.
  - intros Hopen Hpast. unfold execute, entry. rewrite Hopen. simpl.
    rewrite bool_decide_eq_true_2 by lia.
    destruct fn as [a|e]; simpl; [split; [done|]; by intros|].
    split; [done|]. intros error _.
    assert (failureThreshold cb ≤ failures cb).
    { destruct (decide (failures cb < failureThreshold cb)) as [Hlt|]; [|lia].
      apply Hiff in Hlt. congruence. }
    rewrite bool_decide_eq_true_2 by lia. done.
Qed.

Lemma execute_consistent cb fn now later :
  consistent cb → consistent (execute cb fn now later).1.1.
Proof.
  intros (Hpos & Hiff & Hf & Hs).
  assert (Hlt : state cb = CLOSED → failures cb < failureThreshold cb)
    by apply Hiff.
  assert (Hge : state cb ≠ CLOSED → failureThreshold cb ≤ failures cb).
  { intros Hne. destruct (decide (failures cb < failureThreshold cb)) as [H|]; [|lia].
    by apply Hiff in H. }
  clear Hiff.
  unfold execute, entry, recordSuccess, consistent.
  destruct (state cb) eqn:Hst; simpl.
  - specialize (Hlt eq_refl). destruct fn as [a|e]; simpl.
    + rewrite Hst. simpl. rewrite Hst. consistency.
    + case_bool_decide; simpl; rewrite ?Hst; consistency.
  - specialize (Hge ltac:(done)).
    case_bool_decide; simpl; [|rewrite Hst; consistency].
    destruct fn as [a|e]; simpl.
    + case_bool_decide; simpl; consistency.
    + rewrite bool_decide_eq_true_2 by lia. simpl. consistency.
  - specialize (Hge ltac:(done)).
    destruct fn as [a|e]; simpl.
    + rewrite Hst. simpl.
      case_bool_decide; simpl; rewrite ?Hst; consistency.
    + rewrite bool_decide_eq_true_2 by lia. simpl. consistency.
Qed.

Lemma new_consistent failureThreshold resetTimeout :
  0 < num_or failureThreshold 5 → consistent (new failureThreshold resetTimeout).
Proof. intros H. unfold consistent, new. simpl. consistency. Qed.

Lemma run_consistent cb calls : consistent cb → consistent (run cb calls).
Proof.
  revert cb. induction calls as [|c calls IH]; intros cb Hcb; [done|].
  simpl. apply IH. by apply execute_consistent.
Qed.

(** X5. Whatever calls were made on a breaker with a positive failure
    threshold, it is closed exactly when fewer failures than the threshold
    are on record since its last reset, and it never holds more than two
    half-open successes. *)
Theorem breaker_consistent failureThreshold resetTimeout calls :
  0 < num_or failureThreshold 5 →
  consistent (run (new failureThreshold resetTimeout) calls).
Proof. intros Hpos. by apply run_consistent, new_consistent. Qed.

End Calls.

(** X6. An open breaker whose reset timeout has passed closes again after
    successful calls: three of them, less the half-open successes it still
    holds from before. It then has no failure on record. None of these calls
    is refused, however soon they follow one another. *)
Theorem breaker_recovers (cb : t) (first : Z) (times : list Z) :
  consistent cb →
  state cb = OPEN →
  resetTimeout cb < first - default 0 (lastFailure cb) →
  Z.of_nat (length (first :: times)) = 3 - successCount cb →
  run cb (successes (first :: times)) = reset cb.
Proof.
  intros (Hpos & Hiff & Hf & Hs) Hopen Hpast Hlen.
  assert (Hgo : ∀ times cb, state cb = HALF_OPEN → 0 ≤ successCount cb ≤ 2 →
            Z.of_nat (length times) = 3 - successCount cb →
            run cb (successes times) = reset cb).
  { clear. induction times as [|now times IH]; intros cb Hst Hs Hlen.
    - simpl in Hlen. lia.
    - change (run cb (successes (now :: times)))
        with (run (execute cb (Js.Ok "ok") now now).1.1 (successes times)).
      unfold execute, entry. rewrite Hst. simpl.
      unfold recordSuccess. rewrite Hst. simpl.
      case_bool_decide as H3.
      + assert (times = []) as -> by (destruct times; [done|simpl in Hlen; lia]).
        done.
      + simpl in Hlen. rewrite IH; [done|done|simpl; lia|simpl; lia]. }
  change (run cb (successes (first :: times)))
    with (run (execute cb (Js.Ok "ok") first first).1.1 (successes times)).
  unfold execute, entry. rewrite Hopen. simpl.
  rewrite bool_decide_eq_true_2 by lia. simpl.
  unfold recordSuccess. simpl.
  case_bool_decide as H3.
  - assert (times = []) as -> by (destruct times; [done|simpl in Hlen; lia]).
    done.
  - simpl in Hlen. rewrite Hgo; [done|done|simpl; lia|simpl; lia].
Qed.

Lemma afterFiveFailures_consistent : consistent afterFiveFailures.
Proof. apply (run_consistent (A := string)), new_consistent. done. Qed.

Lemma breaker_counts_failures_witness :
  state (run (new None None) (take 4 fiveFailures ++ successes [5])) = CLOSED
  ∧ failures (run (new None None) (take 4 fiveFailures ++ successes [5])) = 4.
Proof.
  destruct (breaker_counts_failures (new None None)
              (take 4 fiveFailures ++ successes [5]) "ETIMEDOUT" 6 6)
    as (H1 & H2 & _); [reflexivity | reflexivity |].
  split; [exact H1 | exact H2].
Defined.

Lemma open_breaker_fails_fast_witness :
  run afterFiveFailures (successes [100; 200]) = afterFiveFailures
  ∧ state afterFiveFailures = OPEN.
Proof.
  destruct (open_breaker_fails_fast afterFiveFailures (successes [100; 200])
              (Js.Ok "ok") 40000 40000) as (H & _ & _).
  - exact afterFiveFailures_consistent.
  - repeat constructor; vm_compute; discriminate.
  - split; [exact H | reflexivity].
Defined.

Lemma breaker_consistent_witness :
  state (run (new None None) fiveFailures) = OPEN
  ∧ consistent (run (new None None) fiveFailures).
Proof.
  split; [reflexivity|]. apply (breaker_consistent None None fiveFailures). done.
Defined.

Lemma breaker_recovers_witness :
  state (run afterFiveFailures (successes [40000; 40001; 40002])) = CLOSED
  ∧ failures (run afterFiveFailures (successes [40000; 40001; 40002])) = 0.
Proof.
  rewrite (breaker_recovers afterFiveFailures 40000 [40001; 40002]).
  - split; reflexivity.
  - exact afterFiveFailures_consistent.
  - reflexivity.
  - reflexivity.
  - reflexivity.
Defined.

End CircuitBreakerFacts.

Module TextFacts.
Import Regex Text.

(** X10. [truncate(str, maxLength)] returns a string that fits as it is.
    With [maxLength] at 3 or more the result is never longer than
    [maxLength]: a longer string is cut to its first [maxLength - 3] code
    units followed by three dots, and truncating twice changes nothing more.
    With [maxLength] below 3 a longer string becomes the three dots alone,
    which is longer than [maxLength]. *)
Theorem truncate_fits (str : jsstring) (maxLength : Z) :
  (Z.of_nat (length str) ≤ maxLength → truncate str maxLength = str)
  ∧ (3 ≤ maxLength →
     Z.of_nat (length (truncate str maxLength)) ≤ maxLength
     ∧ truncate (truncate str maxLength) maxLength = truncate str maxLength
     ∧ (maxLength < Z.of_nat (length str) →
        Z.of_nat (length (truncate str maxLength)) = maxLength
        ∧ truncate str maxLength
          = take (Z.to_nat (maxLength - 3)) str ++ js "..."))
  ∧ (maxLength < 3 → maxLength < Z.of_nat (length str) →
     truncate str maxLength = js "...").
Proof.
  assert (Hcut : 3 ≤ maxLength → maxLength < Z.of_nat (length str) →
            Z.of_nat (length (take (Z.to_nat (maxLength - 3)) str ++ js "..."))
            = maxLength).
  { intros H3 Hlong. rewrite length_app, length_take. simpl. lia. }
  unfold truncate, substring0. split_and!.
  - intros Hfit. by rewrite bool_decide_eq_true_2.
  - intros H3. case_bool_decide as Hfit.
    + split_and!; [done| by rewrite bool_decide_eq_true_2 | lia].
    + split_and!.
      * rewrite Hcut; lia.
      * rewrite bool_decide_eq_true_2; [done|rewrite Hcut; lia].
      * intros Hlong. split; [by apply Hcut|done].
  - intros Hsmall Hlong. rewrite bool_decide_eq_false_2 by lia.
    by replace (Z.to_nat (maxLength - 3)) with 0%nat by lia.
Qed.

End TextFacts.

Module HelpersFacts.
Import Helpers.
Local Open Scope Q_scope.

Lemma insert_sorted_perm x l : insert_sorted x l ≡ₚ x :: l.
Proof.
  induction l as [|y l IH]; simpl; [done|].
  destruct (Qle_bool x y); [done|]. rewrite IH. apply Permutation_swap.
Qed.

Lemma sort_perm arr : sort arr ≡ₚ arr.
Proof.
  induction arr as [|x arr IH]; simpl; [done|].
  unfold sort in *. simpl. rewrite insert_sorted_perm. by rewrite IH.
Qed.

Lemma sort_length arr : length (sort arr) = length arr.
Proof. by rewrite sort_perm. Qed.

Lemma insert_sorted_sorted x l :
  StronglySorted Qle l → StronglySorted Qle (insert_sorted x l).
Proof.
  induction 1 as [|y l Hl IH Hy]; simpl.
  - by repeat constructor.
  - destruct (Qle_bool x y) eqn:Hxy.
    + apply Qle_bool_iff in Hxy. constructor; [by constructor|].
      constructor; [done|]. eapply Forall_impl; [exact Hy|].
      intros z Hz. by apply Qle_trans with y.
    + assert (y <= x).
      { apply Qlt_le_weak, Qnot_le_lt. intros Hle.
        apply Qle_bool_iff in Hle. congruence. }
      constructor; [done|]. rewrite insert_sorted_perm. by constructor.
Qed.

Lemma sort_sorted arr : StronglySorted Qle (sort arr).
Proof.
  induction arr as [|x arr IH]; [constructor|].
  unfold sort in *. simpl. by apply insert_sorted_sorted.
Qed.

Lemma sorted_nth_le (s : list Q) : StronglySorted Qle s →
  ∀ i j, (i ≤ j)%nat → (j < length s)%nat → nth i s 0 <= nth j s 0.
Proof.
  induction 1 as [|x s Hs IH Hx]; intros i j Hij Hj; simpl in *; [lia|].
  destruct i as [|i], j as [|j]; try lia.
  - apply Qle_refl.
  - rewrite Forall_forall in Hx. apply Hx. apply list_elem_of_In, nth_In. lia.
  - apply IH; lia.
Qed.

Lemma last_nth {A} (s : list A) (d : A) : List.last s d = nth (length s - 1) s d.
Proof.
  induction s as [|x s IH]; [done|].
  destruct s as [|y s]; [done|].
  change (List.last (x :: y :: s) d) with (List.last (y :: s) d).
  rewrite IH. simpl. by rewrite Nat.sub_0_r.
Qed.

Lemma sort_nonempty arr : arr ≠ [] → sort arr ≠ [] ∧ (0 < length (sort arr))%nat.
Proof.
  intros Hne. rewrite sort_length. destruct arr as [|x arr]; [done|].
  split; [|simpl; lia]. intros Hnil.
  pose proof (sort_length (x :: arr)) as Hl. by rewrite Hnil in Hl.
Qed.

Lemma sorted_first_least (s : list Q) :
  StronglySorted Qle s → Forall (λ x, nth 0 s 0 <= x) s.
Proof.
  intros Hs. apply Forall_forall. intros x Hx.
  apply list_elem_of_In, (In_nth _ _ 0) in Hx as (j & Hj & <-).
  apply sorted_nth_le; [done|lia|done].
Qed.

Lemma sorted_last_greatest (s : list Q) :
  StronglySorted Qle s → Forall (λ x, x <= nth (length s - 1) s 0) s.
Proof.
  intros Hs. apply Forall_forall. intros x Hx.
  apply list_elem_of_In, (In_nth _ _ 0) in Hx as (j & Hj & <-).
  apply sorted_nth_le; [done|lia|lia].
Qed.

Lemma unrounded_exactOnUnits : exactOnUnits unrounded.
Proof.
  constructor; cbn [unrounded plus minus times over]; intros x y Hx;
    try (rewrite Hx; ring).
  - intros Hy. rewrite Hx. unfold Qdiv. ring.
  - intros Hy. rewrite Hx. by field.
Qed.

Section WithArithmetic.
Variable ar : Arithmetic.
Hypothesis exact : exactOnUnits ar.

(** When the index that [percentile] computes is an integer, the result is
    the element of the sorted array at that index: the weight is 0 and the
    interpolation adds nothing. *)
Lemma percentile_at arr p (k : Z) :
  arr ≠ [] →
  times ar (over ar p 100) (inject_Z (Z.of_nat (length (sort arr)) - 1)) == inject_Z k →
  (0 ≤ k < Z.of_nat (length (sort arr)))%Z →
  percentile ar arr p == nth (Z.to_nat k) (sort arr) 0.
Proof.
  intros Hne Hindex Hk. destruct arr as [|x arr]; [done|].
  unfold percentile.
  set (sorted := sort (x :: arr)) in *.
  set (index := times ar (over ar p 100) (inject_Z (Z.of_nat (length sorted) - 1))) in *.
  cbv zeta.
  assert (Hfl : Qfloor index = k) by (rewrite (Qfloor_comp _ _ Hindex); apply Qfloor_Z).
  assert (Hce : Qceiling index = k)
    by (rewrite (Qceiling_comp _ _ Hindex); apply Qceiling_Z).
  rewrite Hfl, Hce. rewrite bool_decide_eq_false_2 by lia.
  assert (Hw : minus ar index (inject_Z k) == 0) by (by apply minus_same).
  assert (H1 : minus ar 1 (minus ar index (inject_Z k)) == 1)
    by (by apply minus_zero_r).
  rewrite (plus_zero_r ar exact) by (by apply times_zero_r).
  by apply times_one_r.
Qed.

Lemma percentile_0 arr :
  arr ≠ [] → percentile ar arr 0 == nth 0 (sort arr) 0.
Proof.
  intros Hne. destruct (sort_nonempty arr Hne) as [_ Hlen].
  apply (percentile_at arr 0 0%Z); [done| |lia].
  apply times_zero_l; [done|]. by apply over_zero.
Qed.

Lemma percentile_100 arr :
  arr ≠ [] → percentile ar arr 100 == nth (length (sort arr) - 1) (sort arr) 0.
Proof.
  intros Hne. destruct (sort_nonempty arr Hne) as [_ Hlen].
  replace (length (sort arr) - 1)%nat
    with (Z.to_nat (Z.of_nat (length (sort arr)) - 1)) by lia.
  apply percentile_at; [done| |lia].
  apply times_one_l; [done|]. by apply over_same.
Qed.

(** X7. [percentile(arr, 0)] is the least and [percentile(arr, 100)] the
    greatest element of a non-empty array, every percentile of an array of
    one element is that element, and every percentile of the empty array is
    0. This holds in binary64 as in any arithmetic that is exact where the
    exact result is 0, 1 or an operand; between 0 and 100 the interpolation
    rounds, and nothing is claimed there. *)
Theorem percentile_extremes (arr : list Q) :
  arr ≠ [] →
  Forall (λ x, percentile ar arr 0 <= x) arr
  ∧ Exists (λ x, x == percentile ar arr 0) arr
  ∧ Forall (λ x, x <= percentile ar arr 100) arr
  ∧ Exists (λ x, x == percentile ar arr 100) arr
  ∧ (∀ x p, percentile ar [x] p == x)
  ∧ (∀ p, percentile ar [] p = 0).
Proof.
  intros Hne. destruct (sort_nonempty arr Hne) as [Hsne Hlen].
  pose proof (sort_sorted arr) as Hsorted.
  pose proof (percentile_0 arr Hne) as H0.
  pose proof (percentile_100 arr Hne) as H100.
  set (least := percentile ar arr 0) in *.
  set (greatest := percentile ar arr 100) in *.
  assert (Hin : ∀ i, (i < length (sort arr))%nat → nth i (sort arr) 0 ∈ arr).
  { intros i Hi.
    assert (H : nth i (sort arr) 0 ∈ sort arr) by (by apply list_elem_of_In, nth_In).
    revert H. generalize (nth i (sort arr) 0). intros y H.
    by rewrite sort_perm in H. }
  split_and!.
  - rewrite <- (sort_perm arr).
    eapply Forall_impl; [by apply sorted_first_least|].
    intros x Hx. cbv beta in Hx. by rewrite H0.
  - apply Exists_exists. exists (nth 0 (sort arr) 0). split; [by apply Hin|].
    by rewrite H0.
  - rewrite <- (sort_perm arr).
    eapply Forall_impl; [by apply sorted_last_greatest|].
    intros x Hx. cbv beta in Hx. by rewrite H100.
  - apply Exists_exists. exists (nth (length (sort arr) - 1) (sort arr) 0).
    split; [apply Hin; lia|]. by rewrite H100.
  - intros x p. apply (percentile_at [x] p 0%Z); [done| |done].
    by apply times_zero_r.
  - done.
Qed.

End WithArithmetic.

Lemma percentile_extremes_witness :
  Forall (λ x, percentile unrounded [30; 10; 20] 0 <= x) [30; 10; 20]
  ∧ Forall (λ x, x <= percentile unrounded [30; 10; 20] 100) [30; 10; 20].
Proof.
  destruct (percentile_extremes unrounded unrounded_exactOnUnits [30; 10; 20])
    as (Hleast & _ & Hgreatest & _); [done|].
  split; [exact Hleast | exact Hgreatest].
Defined.

End HelpersFacts.

Module MetricsStatsFacts.
Import Helpers MetricsStore.
Local Open Scope Q_scope.

Lemma Qmin_list_least first rest :
  Forall (λ x, Qmin_list first rest <= x) (first :: rest).
Proof.
  unfold Qmin_list.
  assert (H : ∀ rest acc,
            foldl (λ a b, if Qle_bool b a then b else a) acc rest <= acc
            ∧ Forall (λ x, foldl (λ a b, if Qle_bool b a then b else a) acc rest <= x)
                rest).
  { clear. induction rest as [|x rest IH]; intros acc; simpl.
    - split; [apply Qle_refl|constructor].
    - destruct (Qle_bool x acc) eqn:Hx.
      + apply Qle_bool_iff in Hx. destruct (IH x) as [H1 H2].
        split; [by apply Qle_trans with x|]. by constructor.
      + assert (acc <= x).
        { apply Qlt_le_weak, Qnot_le_lt. intros Hle.
          apply Qle_bool_iff in Hle. congruence. }
        destruct (IH acc) as [H1 H2].
        split; [done|]. constructor; [by apply Qle_trans with acc|done]. }
  destruct (H rest first) as [H1 H2]. by constructor.
Qed.

Lemma Qmax_list_greatest first rest :
  Forall (λ x, x <= Qmax_list first rest) (first :: rest).
Proof.
  unfold Qmax_list.
  assert (H : ∀ rest acc,
            acc <= foldl (λ a b, if Qle_bool a b then b else a) acc rest
            ∧ Forall (λ x, x <= foldl (λ a b, if Qle_bool a b then b else a) acc rest)
                rest).
  { clear. induction rest as [|x rest IH]; intros acc; simpl.
    - split; [apply Qle_refl|constructor].
    - destruct (Qle_bool acc x) eqn:Hx.
      + apply Qle_bool_iff in Hx. destruct (IH x) as [H1 H2].
        split; [by apply Qle_trans with x|]. by constructor.
      + assert (x <= acc).
        { apply Qlt_le_weak, Qnot_le_lt. intros Hle.
          apply Qle_bool_iff in Hle. congruence. }
        destruct (IH acc) as [H1 H2].
        split; [done|]. constructor; [by apply Qle_trans with acc|done]. }
  destruct (H rest first) as [H1 H2]. by constructor.
Qed.

Lemma fold_choice (f : Q → Q → Q) (acc : Q) (rest : list Q) :
  (∀ a b, f a b = a ∨ f a b = b) → foldl f acc rest ∈ acc :: rest.
Proof.
  intros Hf. revert acc. induction rest as [|x rest IH]; intros acc; simpl.
  - apply list_elem_of_here.
  - specialize (IH (f acc x)). apply elem_of_cons in IH as [->|IH].
    + destruct (Hf acc x) as [->| ->]; [left|right; left].
    + by do 2 right.
Qed.

Lemma Qmin_list_in first rest : Qmin_list first rest ∈ first :: rest.
Proof.
  apply fold_choice. intros a b. destruct (Qle_bool b a); [by right|by left].
Qed.

Lemma Qmax_list_in first rest : Qmax_list first rest ∈ first :: rest.
Proof.
  apply fold_choice. intros a b. destruct (Qle_bool a b); [by right|by left].
Qed.

Lemma last_fmap_value (metrics : list Metric) (m : Metric) (d : Q) :
  last metrics = Some m → List.last (value <$> metrics) d = value m.
Proof.
  induction metrics as [|x metrics IH]; [done|].
  destruct metrics as [|y metrics]; [by intros [= ->]|].
  intros Hlast. by apply IH.
Qed.

(** X9. What the statistics of [getStats] say apart from the rounded
    figures (average, deviation, percentiles), whatever the arithmetic: they
    are built from at least one sample, [count] is the number of samples
    queried, [min] and [max] are values of queried samples and bound every
    one of them, and [latest] and [latestTimestamp] are the value and the
    time of the last sample queried, so that [min <= latest <= max]. *)
Theorem getStats_consistent
    (ar : Arithmetic) (st : t) (n : string) (options : GetOptions) (stats : Stats) :
  getStats ar st n options = Some stats →
  stats_count stats = length (get st n options)
  ∧ (0 < stats_count stats)%nat
  ∧ Forall (λ m, stats_min stats <= value m ∧ value m <= stats_max stats)
      (get st n options)
  ∧ Exists (λ m, value m = stats_min stats) (get st n options)
  ∧ Exists (λ m, value m = stats_max stats) (get st n options)
  ∧ (∃ m, last (get st n options) = Some m
          ∧ stats_latest stats = value m
          ∧ stats_latestTimestamp stats = Some (timestamp m))
  ∧ (stats_min stats <= stats_latest stats ∧ stats_latest stats <= stats_max stats).
Proof.
  unfold getStats.
  destruct (value <$> get st n options) as [|first rest] eqn:Hv; [done|].
  intros Heq. apply (inj Some) in Heq. rewrite <- Heq. clear Heq.
  cbn [stats_count stats_min stats_max stats_latest stats_latestTimestamp].
  pose proof (Qmin_list_least first rest) as Hmin.
  pose proof (Qmax_list_greatest first rest) as Hmax.
  pose proof (Qmin_list_in first rest) as Hmin_in.
  pose proof (Qmax_list_in first rest) as Hmax_in.
  rewrite <- Hv in Hmin, Hmax, Hmin_in, Hmax_in.
  assert (Hbounds : Forall (λ m, Qmin_list first rest <= value m
                                 ∧ value m <= Qmax_list first rest)
                      (get st n options)).
  { rewrite Forall_forall in Hmin. rewrite Forall_forall in Hmax.
    apply Forall_forall. intros m Hm.
    assert (Hvalue : value m ∈ value <$> get st n options)
      by (apply list_elem_of_fmap; by exists m).
    split; [by apply Hmin|by apply Hmax]. }
  assert (Hlast : ∃ m, last (get st n options) = Some m).
  { destruct (last (get st n options)) as [m|] eqn:Hl; [by eexists|].
    apply last_None in Hl. by rewrite Hl in Hv. }
  destruct Hlast as [m Hlast].
  assert (Hlatest : List.last (first :: rest) first = value m).
  { rewrite <- Hv. by apply last_fmap_value. }
  split_and!.
  - by rewrite <- (length_fmap value), Hv.
  - simpl. lia.
  - done.
  - apply list_elem_of_fmap in Hmin_in as (m' & Hm' & Hin).
    apply Exists_exists. by exists m'.
  - apply list_elem_of_fmap in Hmax_in as (m' & Hm' & Hin).
    apply Exists_exists. by exists m'.
  - exists m. by rewrite Hlast, Hlatest.
  - rewrite Hlatest. rewrite Forall_forall in Hbounds.
    apply Hbounds. by apply last_Some_elem_of.
  - rewrite Hlatest. rewrite Forall_forall in Hbounds.
    apply Hbounds. by apply last_Some_elem_of.
Qed.

Lemma getStats_consistent_witness :
  ∃ stats,
    getStats unrounded MetricsExamples.threeSamples "api_response_time" defaultGet
    = Some stats
    ∧ stats_count stats = 3%nat
    ∧ stats_min stats <= stats_latest stats
    ∧ stats_latest stats <= stats_max stats.
Proof.
  destruct (getStats unrounded MetricsExamples.threeSamples "api_response_time"
              defaultGet) as [stats|] eqn:Hstats; [|vm_compute in Hstats; discriminate].
  exists stats. split; [reflexivity|].
  destruct (getStats_consistent _ _ _ _ _ Hstats)
    as (Hc & _ & _ & _ & _ & _ & Hmin & Hmax).
  split; [rewrite Hc; vm_compute; reflexivity|]. split; [exact Hmin|exact Hmax].
Defined.

End MetricsStatsFacts.

Module EventBusQueriesFacts.
Import EventBus EventBusQueries.

Section Bus.
Context {Payload W : Type}.
Variable source_of : Payload → option string.
Implicit Types (bus : t Payload W) (w : W) (data : Payload).

Lemma publish_fields bus w channel data id now :
  subscriptions (publish source_of bus w channel data id now).1.1 = subscriptions bus
  ∧ listeners (publish source_of bus w channel data id now).1.1 = listeners bus
  ∧ maxHistorySize (publish source_of bus w channel data id now).1.1
    = maxHistorySize bus
  ∧ eventHistory (publish source_of bus w channel data id now).1.1
    = (let history :=
         eventHistory bus
         ++ [{| ev_id := id; ev_channel := channel; ev_data := data;
                ev_timestamp := now;
                ev_source := Js.str_or (source_of data) "unknown" |}] in
       if bool_decide (maxHistorySize bus < length history)%nat then tail history
       else history).
Proof. unfold publish. by destruct (emit _ _ _ _ _). Qed.

Lemma publish_appends bus w channel data id now :
  bounded bus → (0 < maxHistorySize bus)%nat →
  ∃ k, (k ≤ length (eventHistory bus))%nat
    ∧ k = (length (eventHistory bus) + 1 - maxHistorySize bus)%nat
    ∧ eventHistory (publish source_of bus w channel data id now).1.1
      = drop k (eventHistory bus)
        ++ [{| ev_id := id; ev_channel := channel; ev_data := data;
               ev_timestamp := now;
               ev_source := Js.str_or (source_of data) "unknown" |}].
Proof.
  intros Hb Hpos. unfold bounded in *.
  exists (length (eventHistory bus) + 1 - maxHistorySize bus)%nat.
  split; [lia|]. split; [done|].
  destruct (publish_fields bus w channel data id now) as (_ & _ & _ & ->).
  simpl. rewrite length_app. simpl.
  case_bool_decide as Hover.
  - replace (length (eventHistory bus) + 1 - maxHistorySize bus)%nat with 1%nat by lia.
    destruct (eventHistory bus) as [|e h] eqn:Hh; simpl in *; [lia|]. done.
  - by replace (length (eventHistory bus) + 1 - maxHistorySize bus)%nat with 0%nat by lia.
Qed.

(** X11. Every call of [publish] appends its event to the history, whether
    or not a handler throws, and drops the oldest event when the history
    would exceed [maxHistorySize] (1000): a history within the bound stays
    within it, its last entry is the event just published, and the entries
    before it are the previous ones in their order, less the dropped one. *)
Theorem publish_history bus w channel data id now :
  bounded bus → (0 < maxHistorySize bus)%nat →
  let bus' := (publish source_of bus w channel data id now).1.1 in
  let event :=
    {| ev_id := id; ev_channel := channel; ev_data := data; ev_timestamp := now;
       ev_source := Js.str_or (source_of data) "unknown" |} in
  bounded bus'
  ∧ last (eventHistory bus') = Some event
  ∧ eventHistory bus'
    = drop (length (eventHistory bus) + 1 - maxHistorySize bus) (eventHistory bus)
      ++ [event].
Proof.
  intros Hb Hpos. simpl.
  destruct (publish_appends bus w channel data id now Hb Hpos) as (k & Hk & -> & Heq).
  unfold bounded in *.
  destruct (publish_fields bus w channel data id now) as (_ & _ & -> & _).
  rewrite Heq. rewrite length_app, length_drop. simpl.
  split_and!; [lia| |done]. by rewrite last_snoc.
Qed.

Lemma slice_last_length {A} (limit : Z) (l : list A) :
  0 < limit → Z.of_nat (length (slice_last limit l)) ≤ limit.
Proof.
  intros H. unfold slice_last. rewrite bool_decide_eq_true_2 by done.
  rewrite length_drop. lia.
Qed.

Lemma slice_last_suffix {A} (limit : Z) (l : list A) : slice_last limit l `suffix_of` l.
Proof. unfold slice_last. case_bool_decide; apply suffix_drop. Qed.

(** X12. [getHistory(channel, limit)] returns the newest events of the
    history in their order: for a channel that is not the empty string only
    events of that channel, as a final segment of the events of that channel;
    with a positive [limit] at most [limit] of them (100 when left out); and
    right after [publish] on the channel, [getHistory(channel, 1)] is the
    published event alone. *)
Theorem getHistory_newest bus w (channel : string) limit data id now :
  channel ≠ "" →
  Forall (λ event, ev_channel event = channel) (getHistory bus (Some channel) limit)
  ∧ getHistory bus (Some channel) limit
    `suffix_of` filter (λ event, ev_channel event = channel) (eventHistory bus)
  ∧ (0 < default 100 limit →
     Z.of_nat (length (getHistory bus (Some channel) limit)) ≤ default 100 limit)
  ∧ (bounded bus → (0 < maxHistorySize bus)%nat →
     getHistory (publish source_of bus w channel data id now).1.1 (Some channel) (Some 1)
     = [{| ev_id := id; ev_channel := channel; ev_data := data; ev_timestamp := now;
           ev_source := Js.str_or (source_of data) "unknown" |}]).
Proof.
  intros Hne. unfold getHistory. rewrite !bool_decide_eq_false_2 by done.
  split_and!.
  - eapply Forall_impl with (P := λ event, event ∈ filter _ (eventHistory bus)).
    + apply Forall_forall. intros e He.
      destruct (slice_last_suffix (default 100 limit)
                  (filter (λ event, ev_channel event = channel) (eventHistory bus)))
        as [pre Hpre].
      rewrite Hpre. set_solver.
    + intros e He. simpl in He. by apply list_elem_of_filter in He as [? _].
  - apply slice_last_suffix.
  - intros Hpos. by apply slice_last_length.
  - intros Hb Hpos.
    destruct (publish_appends bus w channel data id now Hb Hpos) as (k & Hk & _ & ->).
    rewrite filter_app, filter_cons, decide_True by done. rewrite filter_nil.
    unfold slice_last. simpl. rewrite length_app. simpl.
    replace (length (filter (λ event, ev_channel event = channel)
                       (drop k (eventHistory bus))) + 1 - 1)%nat
      with (length (filter (λ event, ev_channel event = channel)
                      (drop k (eventHistory bus)))) by lia.
    by rewrite drop_app_length.
Qed.

Lemma off_last (ls : list (string * Handler Payload W)) channel h :
  off (ls ++ [(channel, h)]) channel h = ls.
Proof.
  unfold off. rewrite reverse_app. simpl.
  rewrite !bool_decide_eq_true_2 by done. simpl. apply reverse_involutive.
Qed.

Lemma map_delete_fresh {V} (m : list (string * V)) k :
  map_get m k = None → map_delete m k = m.
Proof.
  unfold map_delete. induction m as [|[k' v'] m IH]; simpl; [done|].
  case_bool_decide; [done|]. intros Hnone.
  rewrite filter_cons, decide_True by done. by rewrite IH.
Qed.

Lemma map_delete_set_fresh {V} (m : list (string * V)) k v :
  map_get m k = None → map_delete (map_set m k v) k = m.
Proof.
  intros Hnone. rewrite AlertManagerFacts.map_set_fresh by done.
  unfold map_delete. rewrite filter_app, filter_cons, decide_False; [|simpl; tauto].
  rewrite filter_nil, app_nil_r. by apply map_delete_fresh.
Qed.

(** X13. Subscribing and then unsubscribing with the returned identifier
    restores the bus: [unsubscribe] returns [true] and the listeners and the
    subscription table are as before the [subscribe]. Unsubscribing an
    identifier that is not in use returns [false] and changes nothing, so a
    second [unsubscribe] of the same identifier does. *)
Theorem subscribe_unsubscribe bus channel handler agentName subscriptionId now :
  unused bus subscriptionId →
  let subscribed := (subscribe bus channel handler agentName subscriptionId now).1 in
  (subscribe bus channel handler agentName subscriptionId now).2 = subscriptionId
  ∧ listeners_of subscribed channel = listeners_of bus channel ++ [handler]
  ∧ unsubscribe subscribed subscriptionId = (bus, true)
  ∧ unsubscribe bus subscriptionId = (bus, false)
  ∧ unsubscribe (unsubscribe subscribed subscriptionId).1 subscriptionId = (bus, false).
Proof.
  intros Hfresh subscribed. subst subscribed. unfold unused in Hfresh.
  assert (Hun : unsubscribe bus subscriptionId = (bus, false)).
  { unfold unsubscribe. by rewrite Hfresh. }
  assert (Hround : unsubscribe
                     (subscribe bus channel handler agentName subscriptionId now).1
                     subscriptionId = (bus, true)).
  { unfold unsubscribe, subscribe. simpl.
    rewrite AlertManagerFacts.map_get_set_eq. simpl.
    rewrite off_last, map_delete_set_fresh by done. by destruct bus. }
  split_and!; [done| |done|done|by rewrite Hround].
  unfold listeners_of, subscribe. cbn [fst listeners].
  rewrite filter_app, filter_cons, decide_True by done.
  by rewrite filter_nil, fmap_app.
Qed.

(** X14. When every handler subscribed to the channel is an [async]
    function, as the handlers of the agents are, [publish] calls each of them
    once, in the order of their subscription, and returns the event. (The
    channel is not ["error"], on which an emit without listener throws.) *)
Theorem publish_reaches_async_subscribers bus w channel data id now :
  channel ≠ "error" →
  Forall (λ h, is_async h = true) (listeners_of bus channel) →
  let event :=
    {| ev_id := id; ev_channel := channel; ev_data := data; ev_timestamp := now;
       ev_source := Js.str_or (source_of data) "unknown" |} in
  (publish source_of bus w channel data id now).2 = Js.Ok event
  ∧ called (listeners_of bus channel) event now w
    = fn_id <$> listeners_of bus channel
  ∧ run_listeners (listeners_of bus channel) event now w
    = Returned (publish source_of bus w channel data id now).1.2.
Proof.
  intros Hne Hall event.
  destruct (EventBusFacts.run_listeners_no_throw (listeners_of bus channel) event now w Hall)
    as [[w' Hrun] Hcalled].
  unfold publish. fold event. unfold emit.
  change (listeners_of {| subscriptions := subscriptions bus;
                          listeners := listeners bus;
                          eventHistory := _;
                          maxHistorySize := maxHistorySize bus |} channel)
    with (listeners_of bus channel).
  destruct (listeners_of bus channel) as [|h ls] eqn:Hls.
  - rewrite bool_decide_eq_false_2 by done. done.
  - rewrite Hrun. done.
Qed.

End Bus.

Lemma publish_history_witness :
  last (eventHistory
          (publish (λ _, None) two_subscribers [] "alert" "disk full" "e-1" 5).1.1)
  = Some {| ev_id := "e-1"; ev_channel := "alert"; ev_data := "disk full";
            ev_timestamp := 5; ev_source := "unknown" |}
  ∧ (publish (λ _, None) two_subscribers [] "alert" "disk full" "e-1" 5).2
    = Js.Throw "boom".
Proof.
  destruct (publish_history (λ _ : string, None) two_subscribers [] "alert"
              "disk full" "e-1" 5) as (_ & H & _).
  - unfold bounded. simpl. lia.
  - simpl. lia.
  - split; [exact H | reflexivity].
Defined.

Lemma getHistory_newest_witness :
  getHistory (publish (λ _, None) two_subscribers [] "alert" "disk full" "e-1" 5).1.1
    (Some "alert") (Some 1)
  = [{| ev_id := "e-1"; ev_channel := "alert"; ev_data := "disk full";
        ev_timestamp := 5; ev_source := "unknown" |}]
  ∧ getHistory (W := list string) (Payload := string) new (Some "alert") None = [].
Proof.
  destruct (getHistory_newest (λ _ : string, None) two_subscribers [] "alert"
              (Some 1) "disk full" "e-1" 5) as (_ & _ & _ & H); [done|].
  split; [|reflexivity]. apply H.
  - unfold bounded. simpl. lia.
  - simpl. lia.
Defined.

Lemma subscribe_unsubscribe_witness :
  unsubscribe (subscribe new "alert" (logging "monitor") "Monitor" "sub-1" 0).1 "sub-1"
  = (new, true)
  ∧ unsubscribe (W := list string) (Payload := string) new "sub-1" = (new, false).
Proof.
  destruct (subscribe_unsubscribe (new (Payload := string) (W := list string))
              "alert" (logging "monitor") "Monitor" "sub-1" 0)
    as (_ & _ & H1 & H2 & _); [reflexivity|].
  split; [exact H1 | exact H2].
Defined.

Lemma publish_reaches_async_subscribers_witness :
  (publish (λ _, None)
     (subscribe (subscribe new "alert" (logging "a") "A" "sub-1" 0).1
        "alert" (logging "b") "B" "sub-2" 0).1
     [] "alert" "disk full" "e-1" 5).1.2
  = ["a:e-1"; "b:e-1"]
  ∧ (publish (λ _, None)
       (subscribe (subscribe new "alert" (logging "a") "A" "sub-1" 0).1
          "alert" (logging "b") "B" "sub-2" 0).1
       [] "alert" "disk full" "e-1" 5).2
    = Js.Ok {| ev_id := "e-1"; ev_channel := "alert"; ev_data := "disk full";
               ev_timestamp := 5; ev_source := "unknown" |}.
Proof.
  destruct (publish_reaches_async_subscribers (λ _ : string, None)
              (subscribe (subscribe new "alert" (logging "a") "A" "sub-1" 0).1
                 "alert" (logging "b") "B" "sub-2" 0).1
              [] "alert" "disk full" "e-1" 5) as (H & _ & _).
  - done.
  - repeat constructor.
  - split; [reflexivity | exact H].
Defined.

End EventBusQueriesFacts.

Module AlertQueriesFacts.
Import Config AlertManager AlertQueries.

Lemma insert_by_perm {A} (compare : A → A → Z) x l : insert_by compare x l ≡ₚ x :: l.
Proof.
  induction l as [|y l IH]; simpl; [done|].
  case_bool_decide; [done|]. rewrite IH. apply Permutation_swap.
Qed.

Lemma sort_by_perm {A} (compare : A → A → Z) l : sort_by compare l ≡ₚ l.
Proof.
  induction l as [|x l IH]; [done|].
  unfold sort_by in *. simpl. by rewrite insert_by_perm, IH.
Qed.

Lemma before_total a b : ¬ before a b → before b a.
Proof. unfold before, compareAlerts. repeat case_bool_decide; lia. Qed.

Lemma before_trans a b c : before a b → before b c → before a c.
Proof. unfold before, compareAlerts. repeat case_bool_decide; lia. Qed.

Lemma insert_by_sorted x l :
  StronglySorted before l → StronglySorted before (insert_by compareAlerts x l).
Proof.
  induction 1 as [|y l Hl IH Hy]; simpl.
  - by repeat constructor.
  - case_bool_decide as Hxy.
    + constructor; [by constructor|]. constructor; [done|].
      eapply Forall_impl; [exact Hy|]. intros z Hz. by apply before_trans with y.
    + constructor; [done|]. rewrite insert_by_perm.
      constructor; [|done]. by apply before_total.
Qed.

Lemma sort_by_sorted l : StronglySorted before (sort_by compareAlerts l).
Proof.
  induction l as [|x l IH]; [constructor|].
  unfold sort_by in *. simpl. by apply insert_by_sorted.
Qed.

Lemma StronglySorted_take {A} (R : A → A → Prop) n l :
  StronglySorted R l → StronglySorted R (take n l).
Proof.
  intros H. revert n. induction H as [|x l Hl IH Hx]; intros [|n]; simpl;
    try constructor; [apply IH|].
  apply Forall_forall. intros y Hy. rewrite Forall_forall in Hx.
  apply Hx. by apply (subseteq_take n l).
Qed.

Lemma slice_first_prefix {A} limit (l : list A) : slice_first limit l `prefix_of` l.
Proof. unfold slice_first. case_bool_decide; apply prefix_take. Qed.

Lemma getActiveAlerts_candidates am options :
  getActiveAlerts am options
  = slice_first (default 100 (act_limit options))
      (sort_by compareAlerts (candidates am options)).
Proof. reflexivity. Qed.

Lemma candidates_selected am options alert :
  alert ∈ candidates am options ↔ selected options alert ∧ alert ∈ (alerts am).*2.
Proof.
  unfold candidates, selected.
  destruct (act_component options) as [component|], (act_severity options) as [severity|];
    repeat case_bool_decide; rewrite ?list_elem_of_filter; split;
    intros; destruct_and?; split_and?; try done; intros; simplify_eq; eauto.
Qed.

(** X15. [getActiveAlerts(options)] lists stored alerts that are unresolved
    and pass the severity and component filters, critical ones first, then
    high, medium, low and info, and within one severity the newest first. It
    lists at most [limit] alerts (100 when left out), and when no more than
    that pass the filters it lists every one of them once. *)
Theorem getActiveAlerts_listing (am : t) (options : ActiveOptions) :
  0 ≤ default 100 (act_limit options) →
  Forall (λ alert, selected options alert ∧ alert ∈ (alerts am).*2)
    (getActiveAlerts am options)
  ∧ StronglySorted before (getActiveAlerts am options)
  ∧ Z.of_nat (length (getActiveAlerts am options)) ≤ default 100 (act_limit options)
  ∧ (Z.of_nat (length (candidates am options)) ≤ default 100 (act_limit options) →
     getActiveAlerts am options ≡ₚ candidates am options).
Proof.
  intros Hlimit. rewrite getActiveAlerts_candidates.
  unfold slice_first. rewrite bool_decide_eq_true_2 by done.
  split_and!.
  - apply Forall_forall. intros alert Hin.
    apply candidates_selected. rewrite <- (sort_by_perm compareAlerts).
    by apply (subseteq_take (Z.to_nat (default 100 (act_limit options)))).
  - apply StronglySorted_take, sort_by_sorted.
  - rewrite length_take. lia.
  - intros Hfew. rewrite take_ge; [apply sort_by_perm|].
    rewrite sort_by_perm. lia.
Qed.

Lemma getActiveAlerts_listing_witness :
  getActiveAlerts createdTwice.2 defaultActive
  = [default apiDown (getAlert createdTwice.2 "a-2");
     default apiDown (getAlert createdTwice.2 "a-1")].
Proof.
  destruct (getActiveAlerts_listing createdTwice.2 defaultActive) as (_ & _ & _ & H);
    [done|].
  reflexivity.
Defined.




Section Processor.
Variable channels : Channels.
Variable responds : nat → bool.

Lemma rounds_pos item : (1 ≤ rounds item)%nat.
Proof. unfold rounds. case_bool_decide; lia. Qed.

Lemma budget_requeue item rest returned :
  (budget (requeue item rest returned) < budget (item :: rest))%nat.
Proof.
  unfold budget, requeue. simpl.
  pose proof (rounds_pos item) as Hpos.
  destruct returned; [lia|].
  case_bool_decide as Hlt; [|lia].
  rewrite sum_list_with_app. simpl.
  unfold rounds at 2 3. simpl. rewrite (bool_decide_eq_true_2 _ Hlt).
  case_bool_decide; lia.
Qed.

Lemma processNotifications_fuel fuel1 : ∀ fuel2 queue n,
  (budget queue ≤ fuel1)%nat → (budget queue ≤ fuel2)%nat →
  is_Some (processNotifications channels responds fuel1 queue n)
  ∧ processNotifications channels responds fuel1 queue n
    = processNotifications channels responds fuel2 queue n.
Proof.
  induction fuel1 as [|fuel1 IH]; intros fuel2 queue n H1 H2.
  - destruct queue as [|item rest].
    + destruct fuel2; simpl; split; by eauto.
    + pose proof (budget_requeue item rest true). unfold requeue in *. lia.
  - destruct queue as [|item rest]; [destruct fuel2; simpl; split; by eauto|].
    destruct fuel2 as [|fuel2].
    { pose proof (budget_requeue item rest true). unfold requeue in *. lia. }
    simpl. destruct (notify channels responds (item_alert item) n) as [[sent n'] returned].
    pose proof (budget_requeue item rest returned) as Hless.
    destruct (IH fuel2 (requeue item rest returned) n') as [[[more n''] Hsome] Heq];
      [lia|lia|].
    rewrite <- Heq, Hsome. split; by eauto.
Qed.

(** X17. [processNotifications] always comes to an end on a queue to which
    nothing is added meanwhile: an item is tried once more after each failed
    attempt until it has failed with three attempts on record, so the loop
    takes no more rounds than the attempts left over all items, and it ends
    with every item sent or given up. *)
Theorem processNotifications_terminates (queue : list Item) (n : nat) (fuel : nat) :
  (budget queue ≤ fuel)%nat →
  ∃ sent n',
    processNotifications channels responds fuel queue n = Some (sent, n')
    ∧ processNotifications channels responds (budget queue) queue n = Some (sent, n')
    ∧ (Forall (λ item, 0 ≤ item_attempts item) queue →
       (budget queue ≤ 4 * length queue)%nat).
Proof.
  intros Hfuel.
  destruct (processNotifications_fuel fuel (budget queue) queue n) as [[[sent n'] Hsome] Heq];
    [done|done|].
  exists sent, n'. split_and!; [done|by rewrite <- Heq|].
  clear. induction 1 as [|item queue Hitem _ IH]; [simpl; lia|].
  unfold budget in *. simpl.
  unfold rounds at 1. case_bool_decide; lia.
Qed.

Lemma notify_slack_down alert n :
  slack_enabled channels = true → (∀ k, responds k = false) →
  alert_severity alert = CRITICAL ∨ alert_severity alert = HIGH →
  notify channels responds alert n = ([SlackPost (alert_id alert) false], S n, false).
Proof.
  intros Hslack Hdown Hsev. unfold notify, sendSlackNotification.
  rewrite Hslack, Hdown.
  destruct Hsev as [-> | ->]; simpl; done.
Qed.

(** X18. While the Slack webhook does not answer, no alert of severity
    critical or high gets through on any channel: each round posts to Slack
    once, fails there, and never goes on to PagerDuty or to the e-mail
    channel; after the attempts are used up the item is dropped. *)
Theorem slack_down_blocks_other_channels (queue : list Item) (n fuel : nat)
    (sent : list Sent) (n' : nat) :
  slack_enabled channels = true →
  (∀ k, responds k = false) →
  Forall (λ item, alert_severity (item_alert item) = CRITICAL
                  ∨ alert_severity (item_alert item) = HIGH) queue →
  processNotifications channels responds fuel queue n = Some (sent, n') →
  Forall (λ s, ∃ alertId, s = SlackPost alertId false) sent
  ∧ pagerDutyPosts sent = []
  ∧ length sent = budget queue.
Proof.
  intros Hslack Hdown. revert queue n sent n'.
  induction fuel as [|fuel IH]; intros queue n sent n' Hsev Hrun.
  - destruct queue; [|done]. injection Hrun as <- <-. done.
  - destruct queue as [|item rest]; [injection Hrun as <- <-; done|].
    simpl in Hrun. apply Forall_cons in Hsev as [Hitem Hrest].
    rewrite notify_slack_down in Hrun by done.
    destruct (processNotifications channels responds fuel _ (S n))
      as [[more n'']|] eqn:Hmore; [|done].
    injection Hrun as <- <-.
    apply IH in Hmore as (Hall & Hpager & Hlen).
    + split_and!.
      * constructor; [by eexists|done].
      * done.
      * simpl. rewrite Hlen. unfold requeue, budget. simpl.
        case_bool_decide as Hlt; rewrite ?sum_list_with_app; simpl;
          unfold rounds; simpl; repeat case_bool_decide; lia.
    + unfold requeue. case_bool_decide; [|done].
      apply Forall_app. split; [done|]. by constructor.
Qed.

End Processor.


Lemma processNotifications_terminates_witness :
  processNotifications allChannels (λ _, false) 4 [mkItem apiDown 0] 0
  = Some ([SlackPost "a-9" false; SlackPost "a-9" false; SlackPost "a-9" false;
           SlackPost "a-9" false], 4%nat).
Proof.
  destruct (processNotifications_terminates allChannels (λ _, false)
              [mkItem apiDown 0] 0 4) as (sent & n' & H & _); [done|].
  reflexivity.
Defined.

Lemma slack_down_blocks_other_channels_witness :
  pagerDutyPosts [SlackPost "a-9" false; SlackPost "a-9" false;
                  SlackPost "a-9" false; SlackPost "a-9" false] = []
  ∧ processNotifications allChannels (λ _, true) 4 [mkItem apiDown 0] 0
    = Some ([SlackPost "a-9" true; PagerDutyPost "a-9" true; EmailLogged "a-9"],
            2%nat).
Proof.
  destruct (slack_down_blocks_other_channels allChannels (λ _, false)
              [mkItem apiDown 0] 0 4
              [SlackPost "a-9" false; SlackPost "a-9" false;
               SlackPost "a-9" false; SlackPost "a-9" false] 4)
    as (_ & H & _).
  - reflexivity.
  - done.
  - repeat constructor.
  - reflexivity.
  - split; [exact H | reflexivity].
Defined.

End AlertQueriesFacts.

Module SecurityScanFacts.
Import Config Regex SecurityAgent SecurityScan.

(** A match at a position inside the input is found by the search. *)
Lemma search_from_found ignoreCase r before1 s1 s2 :
  is_Some (match_at ignoreCase r
             {| prev := from_option Some before1 (last s1); rest := s2 |}) →
  is_Some (search_from ignoreCase r before1 (s1 ++ s2)).
Proof.
  revert before1. induction s1 as [|c s1 IH]; intros before1 Hhere.
  - change (from_option Some before1 (last [])) with before1 in Hhere.
    destruct s2 as [|c2 s2]; simpl; destruct Hhere as [m Hm]; rewrite Hm; by eexists.
  - simpl.
    destruct (match_at ignoreCase r {| prev := before1; rest := c :: s1 ++ s2 |})
      as [m|]; [by eexists|].
    apply IH.
    destruct s1 as [|c1 s1]; [done|].
    rewrite last_cons_cons in Hhere.
    destruct (last (c1 :: s1)) as [x|] eqn:Hl; [done|].
    by apply last_None in Hl.
Qed.

Lemma flagged_matches text trigger :
  trigger ∈ flagged → includes text trigger →
  ∃ c s, truthy (match_ true SQL_INJECTION text) = Some (c :: s).
Proof.
  intros Htrigger (before & after & ->).
  assert (Hsome : is_Some (match_ true SQL_INJECTION (before ++ trigger ++ after))).
  { unfold match_, flagged in *.
    repeat (apply elem_of_cons in Htrigger as [->|Htrigger]);
      [..|by apply elem_of_nil in Htrigger];
      try (apply RegexFacts.search_from_skip; intros b; unfold match_at; vm_compute;
           by eauto);
      (change (before ++ js " select " ++ after) with (before ++ [32%N] ++ js "select " ++ after)
       || change (before ++ js " insert " ++ after) with (before ++ [32%N] ++ js "insert " ++ after)
       || change (before ++ js " update " ++ after) with (before ++ [32%N] ++ js "update " ++ after)
       || change (before ++ js " delete " ++ after) with (before ++ [32%N] ++ js "delete " ++ after)
       || change (before ++ js " drop " ++ after) with (before ++ [32%N] ++ js "drop " ++ after)
       || change (before ++ js " union " ++ after) with (before ++ [32%N] ++ js "union " ++ after)
       || change (before ++ js " alter " ++ after) with (before ++ [32%N] ++ js "alter " ++ after)
       || change (before ++ js " exec " ++ after) with (before ++ [32%N] ++ js "exec " ++ after)
       || change (before ++ js " execute " ++ after) with (before ++ [32%N] ++ js "execute " ++ after));
      rewrite (app_assoc before); apply search_from_found; rewrite last_snoc;
      unfold match_at; vm_compute; by eauto. }
  destruct Hsome as [m Hm].
  assert (Hne : m ≠ []).
  { eapply (RegexFacts.search_from_nonempty true SQL_INJECTION); [|exact Hm]. reflexivity. }
  destruct m as [|c s]; [done|]. exists c, s. by rewrite Hm.
Qed.

Lemma detectSQLInjection_path path body trigger :
  trigger ∈ flagged → includes path trigger →
  ∃ c s, detectSQLInjection path body = Some (c :: s).
Proof.
  intros Htrigger Hinc.
  destruct (flagged_matches path trigger Htrigger Hinc) as (c & s & Hm).
  exists c, s. destruct body; simpl; by rewrite Hm.
Qed.

Lemma detectSQLInjection_value path props key text trigger :
  trigger ∈ flagged → includes text trigger → (key, VString text) ∈ props →
  ∃ c s, detectSQLInjection path (VObject props) = Some (c :: s).
Proof.
  intros Htrigger Hinc Hin. simpl.
  destruct (truthy (match_ true SQL_INJECTION path)) as [m|] eqn:Hm.
  { apply SecurityAgentFacts.truthy_Some in Hm as (c & s & ->). eauto. }
  destruct (flagged_matches text trigger Htrigger Hinc) as (c & s & Hs).
  eapply (SecurityAgentFacts.firstValue_found _ props key (VString text) c s); [done| |].
  - simpl. exact Hs.
  - intros v m' Hv. destruct v; try done; by apply SecurityAgentFacts.truthy_Some in Hv.
Qed.

Section WithConfig.
Variable cfg : Config.t.

Lemma sql_threat_effects ag request payload newId now :
  ip request ∈ blockedIPs
    (handleThreat cfg ag (threatOf request "SQL_INJECTION" payload CRITICAL) newId now).1
  ∧ Publish EventBus.CHANNELS.MITIGATION (MitigationEvent "BLOCK_IP" (ip request) 0)
    ∈ effects
        (handleThreat cfg ag (threatOf request "SQL_INJECTION" payload CRITICAL)
           newId now).1.
Proof.
  split.
  - apply (SecurityAgentFacts.handleThreat_blocks cfg ag
             (threatOf request "SQL_INJECTION" payload CRITICAL) newId now).
    by left.
  - unfold handleThreat, mitigate. simpl.
    rewrite !elem_of_app. left. right. right. set_solver.
Qed.

(** X19. The SQL signature takes ordinary text for an injection: a request
    from an address that is not blocked, whose path or one of whose body
    values is a string holding a quote (as in O'Brien), a double quote, a
    semicolon, two hyphens or an SQL keyword such as "update" as a word of
    its own, is answered as [SQL_INJECTION], and its address is put on the
    block list for good (a block of duration 0). *)
Theorem ordinary_text_blocked_as_injection
    (ag : t) (request : Request) (newId : string) (now : Z)
    (text trigger : jsstring) :
  ip request ∉ blockedIPs ag →
  trigger ∈ flagged →
  includes text trigger →
  path request = text
  ∨ (∃ key props, body request = VObject props ∧ (key, VString text) ∈ props) →
  (analyzeRequest cfg ag request newId now).2
  = Js.Ok (mkVerdict true (Some "SQL injection detected") (Some "SQL_INJECTION"))
  ∧ ip request ∈ blockedIPs (analyzeRequest cfg ag request newId now).1
  ∧ Publish EventBus.CHANNELS.MITIGATION (MitigationEvent "BLOCK_IP" (ip request) 0)
    ∈ effects (analyzeRequest cfg ag request newId now).1.
Proof.
  intros Hfree Htrigger Hinc Hwhere.
  assert (Hdetect : ∃ c s, detectSQLInjection (path request) (body request)
                           = Some (c :: s)).
  { destruct Hwhere as [Hpath | (key & props & Hbody & Hin)].
    - rewrite Hpath. by eapply detectSQLInjection_path.
    - rewrite Hbody. by eapply detectSQLInjection_value. }
  destruct Hdetect as (c & s & Hdetect).
  unfold analyzeRequest. rewrite bool_decide_eq_false_2 by done. rewrite Hdetect.
  split; [done|]. cbn [fst].
  apply sql_threat_effects.
Qed.

Lemma redis_emit ag es : redis (SecurityAgent.emit ag es) = redis ag.
Proof. done. Qed.

Lemma redis_mitigate ag threat : redis (mitigate cfg ag threat).1.1 = redis ag.
Proof. unfold mitigate. repeat case_match; reflexivity. Qed.

Lemma redis_handleThreat ag threat newId now :
  redis (handleThreat cfg ag threat newId now).1 = redis ag.
Proof.
  unfold handleThreat.
  pose proof (redis_mitigate ag threat) as Hm.
  destruct (mitigate cfg ag threat) as [[ag1 action] blocked]. exact Hm.
Qed.

Lemma keeps_refl ag : keeps ag ag.
Proof. split; [apply SecurityAgentFacts.grows_refl|done]. Qed.

Lemma keeps_trans ag1 ag2 ag3 : keeps ag1 ag2 → keeps ag2 ag3 → keeps ag1 ag3.
Proof.
  intros [Hg1 Hr1] [Hg2 Hr2]. split; [|congruence].
  by eapply SecurityAgentFacts.grows_trans.
Qed.

Lemma keeps_handleThreat ag threat newId now :
  keeps ag (handleThreat cfg ag threat newId now).1.
Proof.
  split; [apply SecurityAgentFacts.handleThreat_grows | apply redis_handleThreat].
Qed.

Lemma keeps_analyzeRequest ag request newId now :
  keeps ag (analyzeRequest cfg ag request newId now).1.
Proof.
  unfold analyzeRequest.
  case_bool_decide; [apply keeps_refl|].
  destruct (detectSQLInjection _ _); [apply keeps_handleThreat|].
  destruct (detectXSS _ _) as [[x|]|m]; [apply keeps_handleThreat| |apply keeps_refl].
  destruct (test _ _ _); [apply keeps_handleThreat|].
  destruct (detectCommandInjection _); [apply keeps_handleThreat|apply keeps_refl].
Qed.

Lemma keeps_recordFailedLogin ag address user email newId now :
  keeps ag (recordFailedLogin cfg ag address user email newId now).
Proof.
  split; [apply SecurityAgentFacts.recordFailedLogin_grows|].
  unfold recordFailedLogin.
  destruct (RateLimiter.isAllowed (loginLimiter ag) address now) as [allowed limiter].
  destruct allowed; [done|]. rewrite redis_emit.
  match goal with
  | |- redis (handleThreat _ ?a ?th _ _).1 = _ =>
      rewrite (redis_handleThreat a th newId now)
  end. done.
Qed.

Lemma keeps_scanKey ag entry now : keeps ag (scanKey cfg ag entry now).
Proof.
  unfold scanKey. destruct (failedLogins ag !! scan_key entry) as [attempts|];
    [|apply keeps_refl].
  assert (Hset : ∀ m, keeps ag {| db := db ag; redis := redis ag; failedLogins := m;
                                  blockedIPs := blockedIPs ag;
                                  loginLimiter := loginLimiter ag;
                                  effects := effects ag |}).
  { intros m. split; [|done]. split_and!; [done|done|].
    exists []. simpl. by rewrite app_nil_r. }
  repeat case_bool_decide; try apply Hset.
  eapply keeps_trans; [apply Hset|]. apply keeps_handleThreat.
Qed.

Lemma keeps_detectBruteForce entries : ∀ ag now,
  keeps ag (detectBruteForce cfg ag entries now).
Proof.
  induction entries as [|entry entries IH]; intros ag now; [apply keeps_refl|].
  simpl. eapply keeps_trans; [apply keeps_scanKey|]. apply IH.
Qed.

Lemma keeps_runSecurityScan ag entries redisKeys now later :
  redis ag = false →
  keeps ag (runSecurityScan cfg ag entries redisKeys now later).
Proof.
  intros Hmem. unfold runSecurityScan.
  pose proof (keeps_detectBruteForce entries ag now) as Hscan.
  assert (Hclean : cleanupExpiredBlocks (detectBruteForce cfg ag entries now)
                     redisKeys later
                   = detectBruteForce cfg ag entries now).
  { unfold cleanupExpiredBlocks. destruct Hscan as [_ ->]. by rewrite Hmem. }
  rewrite Hclean. eapply keeps_trans; [exact Hscan|].
  split; [apply SecurityAgentFacts.grows_emit|done].
Qed.

Lemma keeps_run ops : ∀ ag, redis ag = false → keeps ag (run cfg ag ops).
Proof.
  induction ops as [|o ops IH]; intros ag Hmem; [apply keeps_refl|].
  simpl.
  assert (Hstep : keeps ag (step cfg ag o)).
  { destruct o; simpl.
    - apply keeps_analyzeRequest.
    - apply keeps_recordFailedLogin.
    - by apply keeps_runSecurityScan. }
  eapply keeps_trans; [exact Hstep|]. apply IH.
  destruct Hstep as [_ ->]. done.
Qed.

(** X20. Without Redis a block never ends: whatever requests, failed logins
    and security scans follow, at whatever times, an address on the block
    list stays on it, the one-hour and 24-hour blocks included, and every
    later request from it is answered as [BLOCKED_IP] with nothing else
    done. *)
Theorem blocks_never_expire_without_redis
    (ag : t) (ops : list Op) (request : Request) (newId : string) (now : Z) :
  redis ag = false →
  ip request ∈ blockedIPs ag →
  ip request ∈ blockedIPs (run cfg ag ops)
  ∧ isIPBlocked (run cfg ag ops) (ip request) = true
  ∧ analyzeRequest cfg (run cfg ag ops) request newId now
    = (run cfg ag ops,
       Js.Ok (mkVerdict true (Some "IP is blocked") (Some "BLOCKED_IP"))).
Proof.
  intros Hmem Hblocked.
  destruct (keeps_run ops ag Hmem) as [(Hsub & _ & _) _].
  assert (Hin : ip request ∈ blockedIPs (run cfg ag ops)) by set_solver.
  split_and!; [done| by apply bool_decide_eq_true_2 |].
  unfold analyzeRequest. by rewrite bool_decide_eq_true_2.
Qed.

Lemma substring_all (s : string) : String.substring 0 (String.length s) s = s.
Proof. induction s as [|c s IH]; [done|]. simpl. by rewrite IH. Qed.

Lemma remove_first_login address : remove_first "login:" ("login:" +:+ address) = address.
Proof.
  unfold remove_first. simpl. change ("" +:+ address) with address.
  assert (String.prefix "" address = true) as -> by (by destruct address).
  by rewrite Nat.sub_0_r, substring_all.
Qed.

Lemma failedLogins_mitigate ag threat :
  failedLogins (mitigate cfg ag threat).1.1 = failedLogins ag.
Proof. unfold mitigate. repeat case_match; reflexivity. Qed.

Lemma failedLogins_handleThreat ag threat newId now :
  failedLogins (handleThreat cfg ag threat newId now).1 = failedLogins ag.
Proof.
  unfold handleThreat.
  pose proof (failedLogins_mitigate ag threat) as Hm.
  destruct (mitigate cfg ag threat) as [[ag1 action] blocked]. exact Hm.
Qed.

Lemma failedLogins_recordFailedLogin ag address user email newId now :
  failedLogins (recordFailedLogin cfg ag address user email newId now)
  = <["login:" +:+ address :=
        default [] (failedLogins ag !! ("login:" +:+ address))
        ++ [{| attempt_timestamp := now; attempt_userId := user;
               attempt_email := email |}]]> (failedLogins ag).
Proof.
  unfold recordFailedLogin.
  destruct (RateLimiter.isAllowed (loginLimiter ag) address now) as [allowed limiter].
  destruct allowed; [done|]. cbn -[handleThreat].
  match goal with
  | |- failedLogins (handleThreat _ ?a ?th _ _).1 = _ =>
      rewrite (failedLogins_handleThreat a th newId now)
  end. done.
Qed.

Lemma recordFailedLogins_attempts logins : ∀ ag address,
  logins ≠ [] →
  failedLogins (recordFailedLogins cfg ag address logins) !! ("login:" +:+ address)
  = Some (default [] (failedLogins ag !! ("login:" +:+ address))
          ++ ((λ l, {| attempt_timestamp := login_now l;
                       attempt_userId := login_userId l;
                       attempt_email := login_email l |}) <$> logins)).
Proof.
  induction logins as [|l logins IH]; intros ag address Hne; [done|].
  unfold recordFailedLogins in *. simpl.
  destruct logins as [|l' logins].
  - simpl. rewrite failedLogins_recordFailedLogin. by rewrite lookup_insert_eq.
  - rewrite IH by done. rewrite failedLogins_recordFailedLogin, lookup_insert_eq.
    simpl. by rewrite <- app_assoc.
Qed.

Lemma scanKey_recent ag entry address now :
  recentAttempts cfg (scanKey cfg ag entry now) address now
  = recentAttempts cfg ag address now
  ∧ (is_Some (failedLogins ag !! ("login:" +:+ address)) →
     is_Some (failedLogins (scanKey cfg ag entry now) !! ("login:" +:+ address))).
Proof.
  unfold scanKey, recentAttempts.
  destruct (failedLogins ag !! scan_key entry) as [attempts|] eqn:Hattempts; [|done].
  assert (Hlookup :
    ∀ ag', failedLogins ag'
           = <[scan_key entry :=
                 filter (λ a, now - attempt_timestamp a < security_lockoutDuration cfg)
                   attempts]> (failedLogins ag) →
      filter (λ a, now - attempt_timestamp a < security_lockoutDuration cfg)
        (default [] (failedLogins ag' !! ("login:" +:+ address)))
      = filter (λ a, now - attempt_timestamp a < security_lockoutDuration cfg)
          (default [] (failedLogins ag !! ("login:" +:+ address)))
      ∧ (is_Some (failedLogins ag !! ("login:" +:+ address)) →
         is_Some (failedLogins ag' !! ("login:" +:+ address)))).
  { intros ag' ->. destruct (decide (scan_key entry = "login:" +:+ address)) as [<-|Hne].
    - rewrite lookup_insert_eq, Hattempts. simpl. split; [|by eauto].
      rewrite list_filter_filter. apply list_filter_iff. tauto.
    - by rewrite lookup_insert_ne. }
  repeat case_bool_decide; by apply Hlookup.
Qed.

Lemma scanKey_blocks ag entry address now :
  scan_key entry = "login:" +:+ address →
  is_Some (failedLogins ag !! ("login:" +:+ address)) →
  security_maxFailedLogins cfg ≤ Z.of_nat (length (recentAttempts cfg ag address now)) →
  address ∈ blockedIPs (scanKey cfg ag entry now).
Proof.
  intros Hkey [attempts Hattempts] Hmany. unfold scanKey, recentAttempts in *.
  rewrite Hkey, Hattempts in *. simpl in Hmany.
  rewrite bool_decide_eq_true_2 by done.
  rewrite remove_first_login. cbn [blockedIPs].
  case_bool_decide; [done|].
  match goal with
  | |- _ ∈ blockedIPs (handleThreat _ ?a ?th _ _).1 =>
      apply (SecurityAgentFacts.handleThreat_blocks cfg a th)
  end. right. by right.
Qed.

Lemma detectBruteForce_blocks entries : ∀ ag entry address now,
  entry ∈ entries →
  scan_key entry = "login:" +:+ address →
  is_Some (failedLogins ag !! ("login:" +:+ address)) →
  security_maxFailedLogins cfg ≤ Z.of_nat (length (recentAttempts cfg ag address now)) →
  address ∈ blockedIPs (detectBruteForce cfg ag entries now).
Proof.
  induction entries as [|e entries IH]; intros ag entry address now Hin Hkey Hsome Hmany.
  - by apply elem_of_nil in Hin.
  - simpl. apply elem_of_cons in Hin as [<-|Hin].
    + destruct (keeps_detectBruteForce entries (scanKey cfg ag entry now) now)
        as [(Hsub & _) _].
      pose proof (scanKey_blocks ag entry address now Hkey Hsome Hmany). set_solver.
    + destruct (scanKey_recent ag e address now) as [Hrec Hkeep].
      eapply IH; [done|done|by apply Hkeep|by rewrite Hrec].
Qed.

(** X21. The periodic scan blocks an address as soon as as many failed
    logins as [maxFailedLogins] (5) are on record for it within the lockout
    window, one fewer than it takes [recordFailedLogin] to block by itself:
    after that many failed logins, a scan that meets the key of the address
    leaves the address on the block list. *)
Theorem scan_blocks_at_the_limit
    (ag : t) (address : string) (logins : list Login) (entries : list ScanEntry)
    (entry : ScanEntry) (now : Z) :
  0 < security_maxFailedLogins cfg →
  security_maxFailedLogins cfg ≤ Z.of_nat (length logins) →
  Forall (λ l, now - login_now l < security_lockoutDuration cfg) logins →
  entry ∈ entries →
  scan_key entry = "login:" +:+ address →
  address ∈ blockedIPs
    (detectBruteForce cfg (recordFailedLogins cfg ag address logins) entries now).
Proof.
  intros Hpos Hmany Hrecent Hin Hkey.
  assert (Hne : logins ≠ []) by (destruct logins; [simpl in Hmany; lia|done]).
  pose proof (recordFailedLogins_attempts logins ag address Hne) as Hatt.
  eapply detectBruteForce_blocks; [done|done|by eauto|].
  unfold recentAttempts. rewrite Hatt. simpl.
  rewrite filter_app, length_app.
  assert (Hall : filter (λ a, now - attempt_timestamp a < security_lockoutDuration cfg)
                   ((λ l, {| attempt_timestamp := login_now l;
                             attempt_userId := login_userId l;
                             attempt_email := login_email l |}) <$> logins)
                 = (λ l, {| attempt_timestamp := login_now l;
                            attempt_userId := login_userId l;
                            attempt_email := login_email l |}) <$> logins).
  { clear -Hrecent. induction Hrecent as [|l logins Hl _ IH]; [done|].
    rewrite fmap_cons, filter_cons, decide_True by done. by rewrite IH. }
  rewrite Hall, length_fmap. lia.
Qed.

Lemma read_octet_trailing (t : jsstring) b remaining :
  Uri.read_octet (t ++ [37%N]) = Some (b, remaining) →
  ∃ t', remaining = t' ++ [37%N].
Proof.
  unfold Uri.read_octet.
  destruct t as [|c [|h1 [|h2 t]]]; simpl.
  - done.
  - by repeat case_match.
  - repeat case_match; try done.
  - repeat case_match; try done. intros [= <- <-]. eauto.
Qed.

Lemma read_continuations_trailing n : ∀ (t : jsstring) octets remaining,
  Uri.read_continuations n (t ++ [37%N]) = Some (octets, remaining) →
  ∃ t', remaining = t' ++ [37%N].
Proof.
  induction n as [|n IH]; intros t octets remaining; simpl.
  - intros [= <- <-]. eauto.
  - destruct (Uri.read_octet (t ++ [37%N])) as [[b s1]|] eqn:Hr; [|done].
    apply read_octet_trailing in Hr as [t1 ->].
    case_bool_decide; [|done].
    destruct (Uri.read_continuations n (t1 ++ [37%N])) as [[os s2]|] eqn:Hc; [|done].
    intros [= <- <-]. by apply IH in Hc.
Qed.

Lemma decode_trailing_percent fuel : ∀ t : jsstring,
  Uri.decode fuel (t ++ [37%N]) = None.
Proof.
  induction fuel as [|fuel IH]; intros t.
  - by destruct t.
  - destruct t as [|c t].
    + reflexivity.
    + change ((c :: t) ++ [37%N]) with (c :: (t ++ [37%N])).
      cbn [Uri.decode]. case_bool_decide as Hc.
      * change (c :: t ++ [37%N]) with ((c :: t) ++ [37%N]).
        destruct (Uri.read_octet ((c :: t) ++ [37%N])) as [[b s1]|] eqn:Hr; [|done].
        apply read_octet_trailing in Hr as [t1 ->].
        case_bool_decide; [by rewrite IH|].
        destruct (Uri.sequence_length b) as [n|]; [|done].
        destruct (Uri.read_continuations (n - 1) (t1 ++ [37%N]))
          as [[octets s2]|] eqn:Hcont; [|done].
        apply read_continuations_trailing in Hcont as [t2 ->].
        destruct (Uri.utf8_value b octets); [|done]. by rewrite IH.
      * by rewrite IH.
Qed.

(** X22. [decodeURIComponent] throws on a string that ends in a percent
    sign, as on every malformed escape, and [analyzeRequest] does not catch
    it: for a request from an address that is not blocked, whose path ends
    in a percent sign and in which the SQL check finds nothing,
    [analyzeRequest] throws a [URIError] and does nothing else. *)
Theorem percent_path_throws
    (ag : t) (request : Request) (newId : string) (now : Z) (stem : jsstring) :
  path request = stem ++ js "%" →
  Uri.decodeURIComponent (path request) = None
  ∧ (ip request ∉ blockedIPs ag →
     detectSQLInjection (path request) (body request) = None →
     analyzeRequest cfg ag request newId now = (ag, Js.Throw "URI malformed")).
Proof.
  intros Hpath.
  assert (Hdecode : Uri.decodeURIComponent (path request) = None).
  { rewrite Hpath. unfold Uri.decodeURIComponent. apply decode_trailing_percent. }
  split; [done|]. intros Hfree Hsql.
  unfold analyzeRequest. rewrite bool_decide_eq_false_2 by done.
  rewrite Hsql. unfold detectXSS. by rewrite Hdecode.
Qed.

End WithConfig.

Lemma ordinary_text_blocked_as_injection_witness :
  (analyzeRequest defaults (new defaults false false) signup "i-1" 5).2
  = Js.Ok (mkVerdict true (Some "SQL injection detected") (Some "SQL_INJECTION"))
  ∧ isIPBlocked (analyzeRequest defaults (new defaults false false) signup "i-1" 5).1
      "198.51.100.4" = true.
Proof.
  destruct (ordinary_text_blocked_as_injection defaults (new defaults false false)
              signup "i-1" 5 (js "Siobhan O'Brien") (js "'")) as (H1 & H2 & _).
  - set_solver.
  - unfold flagged. set_solver.
  - exists (js "Siobhan O"), (js "Brien"). reflexivity.
  - right. exists "name", [("name", VString (js "Siobhan O'Brien"))].
    split; [reflexivity|set_solver].
  - split; [exact H1|]. by apply bool_decide_eq_true_2.
Defined.

Lemma blocks_never_expire_without_redis_witness :
  isIPBlocked
    (run defaults (analyzeRequest defaults (new defaults false false) signup "i-1" 5).1
       [Scan [] [] 1000000000 1000000000;
        Analyze percentPath "i-2" 2000000000])
    "198.51.100.4" = true.
Proof.
  destruct (blocks_never_expire_without_redis defaults
              (analyzeRequest defaults (new defaults false false) signup "i-1" 5).1
              [Scan [] [] 1000000000 1000000000;
               Analyze percentPath "i-2" 2000000000]
              signup "i-3" 3000000000) as (_ & H & _).
  - reflexivity.
  - apply (SecurityAgentFacts.handleThreat_blocks defaults). by left.
  - exact H.
Defined.

Lemma scan_blocks_at_the_limit_witness :
  isIPBlocked
    (detectBruteForce defaults
       (recordFailedLogins defaults (new defaults false false) "203.0.113.7" fiveLogins)
       [mkScanEntry "login:203.0.113.7" "i-1" 60000] 60000)
    "203.0.113.7" = true
  ∧ isIPBlocked
      (recordFailedLogins defaults (new defaults false false) "203.0.113.7" fiveLogins)
      "203.0.113.7" = false.
Proof.
  split; [|vm_compute; reflexivity].
  apply bool_decide_eq_true_2.
  apply (scan_blocks_at_the_limit defaults (new defaults false false) "203.0.113.7"
           fiveLogins [mkScanEntry "login:203.0.113.7" "i-1" 60000]
           (mkScanEntry "login:203.0.113.7" "i-1" 60000) 60000).
  - done.
  - done.
  - repeat constructor.
  - set_solver.
  - reflexivity.
Defined.

Lemma percent_path_throws_witness :
  analyzeRequest defaults (new defaults false false) percentPath "i-1" 5
  = (new defaults false false, Js.Throw "URI malformed").
Proof.
  destruct (percent_path_throws defaults (new defaults false false) percentPath
              "i-1" 5 (js "/search/100")) as (_ & H); [reflexivity|].
  apply H; [set_solver | reflexivity].
Defined.

End SecurityScanFacts.

Module DiagnosticRunsFacts.
Import Config DiagnosticAgent DiagnosticRuns.

Lemma severity_handled (s : Severity) :
  s ∉ [INFO; LOW] → s ≠ INFO ∧ s ≠ LOW.
Proof. intros H. split; intros ->; apply H; repeat constructor. Qed.

Lemma rule_confidence alert now :
  (5 # 10 <= confidence (ruleDiagnose alert now))%Q.
Proof.
  unfold ruleDiagnose. cbn [confidence].
  destruct (EventBus.map_get rules (AlertManager.alert_type alert)) as [rule|] eqn:Hr;
    cbn [default from_option id rule_confidence]; [|apply Qle_bool_iff; reflexivity].
  unfold rules in Hr. cbn [EventBus.map_get] in Hr.
  repeat (case_bool_decide; [injection Hr as <-; apply Qle_bool_iff; reflexivity|]). done.
Qed.

Section WithHash.
Variable generateHash : string → string → string.
Variable cfg : Config.t.

Lemma checkCache_confident ag alert now d :
  cacheConfident ag → checkCache generateHash ag alert now = Some d →
  (5 # 10 <= confidence d)%Q.
Proof.
  intros Hc. unfold checkCache.
  destruct (diagnosisCache ag !! _) as [[d0 t0]|] eqn:Hl; [|done].
  case_bool_decide; [|done]. intros [= <-]. simpl.
  by apply (Hc _ _ Hl).
Qed.

Lemma confident_no_escalation stored alert d :
  escalates stored = false → (5 # 10 <= confidence d)%Q →
  escalates
    (stored
     ++ [PublishDiagnosis EventBus.CHANNELS.DIAGNOSIS (AlertManager.alert_id alert) d]
     ++ followUp cfg alert d) = false.
Proof.
  intros Hs Hconf. unfold escalates in *. rewrite !existsb_app, Hs. simpl.
  fold (escalates (followUp cfg alert d)).
  rewrite DiagnosticAgentFacts.followUp_escalate.
  apply Qle_bool_iff in Hconf. rewrite Hconf. by rewrite andb_false_r.
Qed.

Lemma handleAlert_rules ag alert ai now :
  anthropic ag = false → cacheConfident ag →
  escalates (handleAlert generateHash cfg ag alert ai now).2 = false
  ∧ cacheConfident (handleAlert generateHash cfg ag alert ai now).1
  ∧ anthropic (handleAlert generateHash cfg ag alert ai now).1 = false.
Proof.
  intros Hrules Hcache. unfold handleAlert.
  destruct (negb (running ag)); [done|].
  case_bool_decide; [done|].
  destruct (_ || _); [done|].
  unfold diagnose.
  change (checkCache generateHash (set_pending ag _) alert now)
    with (checkCache generateHash ag alert now).
  destruct (checkCache generateHash ag alert now) as [d|] eqn:Hcheck.
  - cbn [fst snd]. split_and!; [|done|done].
    apply confident_no_escalation; [done|].
    by apply (checkCache_confident ag alert now d).
  - cbn [anthropic set_pending]. rewrite Hrules.
    pose proof (rule_confidence alert now) as Hconf.
    assert (Hroot : is_Some (rootCause (ruleDiagnose alert now))) by (by eexists).
    destruct Hroot as [root Hroot]. rewrite Hroot. cbn [fst snd hasDb].
    split_and!.
    + apply confident_no_escalation; [by destruct (hasDb _)|done].
    + unfold cacheConfident. cbn [diagnosisCache set_pending].
      apply map_Forall_insert_2; done.
    + done.
Qed.

Lemma handleAlerts_snoc ag calls c :
  handleAlerts generateHash cfg ag (calls ++ [c])
  = let '(ag', effects) := handleAlerts generateHash cfg ag calls in
    let '(ag'', more) :=
      handleAlert generateHash cfg ag' (call_alert c) (call_ai c) (call_now c) in
    (ag'', effects ++ more).
Proof.
  unfold handleAlerts. rewrite foldl_app. cbn [foldl].
  by destruct (foldl _ _ calls) as [ag' effects].
Qed.

Lemma handleAlerts_rules ag calls :
  anthropic ag = false → cacheConfident ag →
  escalates (handleAlerts generateHash cfg ag calls).2 = false
  ∧ cacheConfident (handleAlerts generateHash cfg ag calls).1
  ∧ anthropic (handleAlerts generateHash cfg ag calls).1 = false.
Proof.
  intros Hrules Hcache.
  induction calls as [|c calls IH] using rev_ind; [done|].
  rewrite handleAlerts_snoc.
  destruct (handleAlerts generateHash cfg ag calls) as [ag' effects].
  destruct IH as (He & Hc & Ha). simpl in He, Hc, Ha.
  pose proof (handleAlert_rules ag' (call_alert c) (call_ai c) (call_now c) Ha Hc)
    as (He' & Hc' & Ha').
  destruct (handleAlert generateHash cfg ag' _ _ _) as [ag'' more].
  simpl in *. split_and!; [|done|done].
  unfold escalates in *. by rewrite existsb_app, He, He'.
Qed.

(** X23. An agent without a reasoning backend never raises an escalation
    alert: starting from an empty cache, whatever alerts it handles (of types
    that are not names inherited from [Object.prototype]) and whatever the
    configured threshold is, no ESCALATION alert is among its effects. *)
Theorem rules_never_escalate (ag : t) (calls : list Call) :
  anthropic ag = false →
  diagnosisCache ag = ∅ →
  Forall (λ c, AlertManager.alert_type (call_alert c) ∉ inheritedNames) calls →
  escalates (handleAlerts generateHash cfg ag calls).2 = false.
Proof.
  intros Hrules Hempty _.
  apply handleAlerts_rules; [done|].
  unfold cacheConfident. rewrite Hempty. apply map_Forall_empty.
Qed.

(** X25. A diagnosis is reused for five minutes. When an alert was diagnosed
    on a cache miss at [now1], an alert of the same type and component
    handled less than 300000 ms later gets that diagnosis again, marked as
    coming from the cache: it keeps the severity and the timestamp of the
    first alert's diagnosis, the backend is not consulted and nothing is
    stored. *)
Theorem cached_diagnosis_reused
    (ag : t) (first second : AlertManager.Alert) (ai1 ai2 : AiOutcome)
    (now1 now2 : Z) :
  running ag = true →
  AlertManager.alert_id first ∉ pendingDiagnoses ag →
  AlertManager.alert_id second ∉ pendingDiagnoses ag →
  AlertManager.alert_severity first ∉ [INFO; LOW] →
  AlertManager.alert_severity second ∉ [INFO; LOW] →
  checkCache generateHash ag first now1 = None →
  AlertManager.alert_type second = AlertManager.alert_type first →
  AlertManager.alert_component second = AlertManager.alert_component first →
  now2 - now1 < 300000 →
  ∃ d,
    checkCache generateHash (handleAlert generateHash cfg ag first ai1 now1).1
      second now2 = Some d
    ∧ fromCache d = true
    ∧ severity d = severity (fresh ag first ai1 now1)
    ∧ timestamp d = now1
    ∧ confidence d = confidence (fresh ag first ai1 now1)
    ∧ fixType d = fixType (fresh ag first ai1 now1)
    ∧ (handleAlert generateHash cfg
         (handleAlert generateHash cfg ag first ai1 now1).1 second ai2 now2).2
      = [PublishDiagnosis EventBus.CHANNELS.DIAGNOSIS (AlertManager.alert_id second) d]
        ++ followUp cfg second d.
Proof.
  intros Hrun Hp1 Hp2 Hs1 Hs2 Hmiss Htype Hcomp Hnow.
  apply severity_handled in Hs1 as [? ?], Hs2 as [? ?].
  assert (Hag1 : ∃ ag1,
            handleAlert generateHash cfg ag first ai1 now1 = ag1
            ∧ running ag1.1 = true
            ∧ pendingDiagnoses ag1.1
              = ({[AlertManager.alert_id first]} ∪ pendingDiagnoses ag)
                ∖ {[AlertManager.alert_id first]}
            ∧ diagnosisCache ag1.1
              = <[generateHash (AlertManager.alert_type first)
                    (AlertManager.alert_component first)
                  := (fresh ag first ai1 now1, now1)]> (diagnosisCache ag)).
  { eexists. split; [done|]. unfold handleAlert.
    rewrite Hrun. cbn [negb].
    rewrite bool_decide_eq_false_2 by done.
    rewrite !bool_decide_eq_false_2 by done. cbn [orb].
    unfold diagnose.
    change (checkCache generateHash (set_pending ag _) first now1)
      with (checkCache generateHash ag first now1).
    rewrite Hmiss. cbn [anthropic set_pending hasDb running diagnosisCache
                        pendingDiagnoses].
    fold (fresh ag first ai1 now1).
    by destruct (rootCause (fresh ag first ai1 now1)). }
  destruct Hag1 as (ag1 & -> & Hrun1 & Hpend1 & Hcache1).
  destruct ag1 as [ag1 effects1]. cbn [fst] in *.
  assert (Htime : timestamp (fresh ag first ai1 now1) = now1).
  { unfold fresh. destruct (anthropic ag); [by destruct ai1|done]. }
  assert (Hhit : ∃ d, checkCache generateHash ag1 second now2 = Some d
                      ∧ fromCache d = true
                      ∧ severity d = severity (fresh ag first ai1 now1)
                      ∧ timestamp d = now1
                      ∧ confidence d = confidence (fresh ag first ai1 now1)
                      ∧ fixType d = fixType (fresh ag first ai1 now1)).
  { unfold checkCache. rewrite Hcache1, Htype, Hcomp, lookup_insert_eq.
    rewrite bool_decide_eq_true_2 by done.
    eexists. split; [done|]. by cbn. }
  destruct Hhit as (d & Hhit & Hd).
  exists d. split; [done|]. destruct Hd as (? & ? & ? & ? & ?). split_and!; try done.
  unfold handleAlert. rewrite Hrun1. cbn [negb].
  rewrite (bool_decide_eq_false_2 (_ ∈ pendingDiagnoses ag1))
    by (rewrite Hpend1;
        intros [[Hin|Hin]%elem_of_union Hne]%elem_of_difference; done).
  rewrite !bool_decide_eq_false_2 by done. cbn [orb].
  unfold diagnose.
  change (checkCache generateHash (set_pending ag1 _) second now2)
    with (checkCache generateHash ag1 second now2).
  by rewrite Hhit.
Qed.

End WithHash.

Lemma rule_repairable alert now :
  Qle_bool (8 # 10) (confidence (ruleDiagnose alert now))
  && autoFixable (ruleDiagnose alert now)
  = bool_decide (AlertManager.alert_type alert ∈ repairedByRules).
Proof.
  unfold ruleDiagnose. cbn [confidence autoFixable].
  unfold rules. cbn [EventBus.map_get].
  repeat (case_bool_decide;
          [match goal with H : _ = AlertManager.alert_type alert |- _ => rewrite <- H end;
           vm_compute; reflexivity|]).
  cbn. symmetry. apply bool_decide_eq_false_2.
  unfold repairedByRules. intros Hin.
  repeat (apply elem_of_cons in Hin as [Hin|Hin]; [congruence|]).
  by apply elem_of_nil in Hin.
Qed.

(** The effects of the rule-based agent on a cache miss under the default
    threshold. *)
Lemma rules_request
    (generateHash : string → string → string)
    (ag : t) (alert : AlertManager.Alert) (ai : AiOutcome) (now : Z) :
  running ag = true →
  anthropic ag = false →
  AlertManager.alert_id alert ∉ pendingDiagnoses ag →
  AlertManager.alert_severity alert ∉ [INFO; LOW] →
  checkCache generateHash ag alert now = None →
  (requestsRepair (handleAlert generateHash defaults ag alert ai now).2 = true
   ↔ AlertManager.alert_type alert ∈ repairedByRules)
  ∧ (AlertManager.alert_type alert ∈ repairedByRules →
     last (handleAlert generateHash defaults ag alert ai now).2
     = Some (PublishDiagnosis EventBus.CHANNELS.REPAIR_REQUEST
               (AlertManager.alert_id alert) (ruleDiagnose alert now))).
Proof.
  intros Hrun Hrules Hpend Hsev Hmiss.
  apply severity_handled in Hsev as [? ?].
  assert (Hdiag : ∃ ag' stored,
            diagnose generateHash
              (set_pending ag ({[AlertManager.alert_id alert]} ∪ pendingDiagnoses ag))
              alert ai now = (ag', stored, Js.Ok (ruleDiagnose alert now))).
  { unfold diagnose.
    change (checkCache generateHash (set_pending ag _) alert now)
      with (checkCache generateHash ag alert now).
    rewrite Hmiss. cbn [anthropic set_pending]. rewrite Hrules.
    assert (Hroot : is_Some (rootCause (ruleDiagnose alert now))) by (by eexists).
    destruct Hroot as [root Hroot]. rewrite Hroot. by do 2 eexists. }
  destruct Hdiag as (ag' & stored & Hdiag).
  rewrite (DiagnosticAgentFacts.handleAlert_diagnosed generateHash defaults ag alert ai
             now ag' stored (ruleDiagnose alert now)) by done.
  destruct (DiagnosticAgentFacts.stored_no_request _ _ _ _ _ _ _ _ Hdiag) as [Hs _].
  pose proof (rule_repairable alert now) as Hrep.
  split.
  - unfold requestsRepair in *. rewrite !existsb_app, Hs. cbn [existsb orb].
    fold (requestsRepair (followUp defaults alert (ruleDiagnose alert now))).
    rewrite DiagnosticAgentFacts.followUp_repair.
    change (diagnostic_confidenceThreshold defaults) with (8 # 10).
    rewrite Hrep.
    replace (bool_decide (EventBus.CHANNELS.DIAGNOSIS = EventBus.CHANNELS.REPAIR_REQUEST))
      with false by done.
    cbn [orb]. apply bool_decide_eq_true.
  - intros Hin. unfold followUp.
    change (diagnostic_confidenceThreshold defaults) with (8 # 10).
    rewrite Hrep, bool_decide_eq_true_2 by done.
    by rewrite !app_assoc, last_snoc.
Qed.

(** X24. Under the default threshold of 0.8 the rule table makes the agent
    request a repair for exactly four alert types: API_DOWN,
    DB_CONNECTION_ERROR, MEMORY_HIGH and REDIS_DOWN. For an alert that is
    diagnosed by the rules on a cache miss, a repair request is published if
    and only if its type is one of these, and the request is then the last
    thing published and carries the rule's diagnosis. *)
Theorem rules_repair_four_types
    (generateHash : string → string → string)
    (ag : t) (alert : AlertManager.Alert) (ai : AiOutcome) (now : Z) :
  running ag = true →
  anthropic ag = false →
  AlertManager.alert_id alert ∉ pendingDiagnoses ag →
  AlertManager.alert_severity alert ∉ [INFO; LOW] →
  checkCache generateHash ag alert now = None →
  AlertManager.alert_type alert ∉ inheritedNames →
  (requestsRepair (handleAlert generateHash defaults ag alert ai now).2 = true
   ↔ AlertManager.alert_type alert ∈ repairedByRules)
  ∧ (AlertManager.alert_type alert ∈ repairedByRules →
     last (handleAlert generateHash defaults ag alert ai now).2
     = Some (PublishDiagnosis EventBus.CHANNELS.REPAIR_REQUEST
               (AlertManager.alert_id alert) (ruleDiagnose alert now))).
Proof. intros Hrun Hrules Hpend Hsev Hmiss _. by apply rules_request. Qed.

Lemma rules_never_escalate_witness :
  escalates
    (handleAlerts joinHash defaults rulesOnly
       [mkCall endpointDown AiFailed 100; mkCall slowQueryAlert AiFailed 200]).2
  = false.
Proof.
  apply (rules_never_escalate joinHash defaults rulesOnly); [done|done|].
  repeat constructor; by apply (bool_decide_unpack _).
Defined.

Lemma cached_diagnosis_reused_witness :
  ∃ d,
    checkCache joinHash
      (handleAlert joinHash defaults rulesOnly endpointDown AiFailed 100).1
      endpointDownAgain 60100 = Some d
    ∧ fromCache d = true
    ∧ severity d = severity (fresh rulesOnly endpointDown AiFailed 100)
    ∧ timestamp d = 100
    ∧ confidence d = confidence (fresh rulesOnly endpointDown AiFailed 100)
    ∧ fixType d = fixType (fresh rulesOnly endpointDown AiFailed 100)
    ∧ (handleAlert joinHash defaults
         (handleAlert joinHash defaults rulesOnly endpointDown AiFailed 100).1
         endpointDownAgain AiFailed 60100).2
      = [PublishDiagnosis EventBus.CHANNELS.DIAGNOSIS
           (AlertManager.alert_id endpointDownAgain) d]
        ++ followUp defaults endpointDownAgain d.
Proof.
  apply (cached_diagnosis_reused joinHash defaults rulesOnly endpointDown
           endpointDownAgain AiFailed AiFailed 100 60100);
    first [ reflexivity | lia | apply not_elem_of_empty
          | by apply (bool_decide_unpack _) ].
Defined.

Lemma rules_repair_four_types_witness :
  requestsRepair (handleAlert joinHash defaults rulesOnly endpointDown AiFailed 100).2
  = true
  ∧ last (handleAlert joinHash defaults rulesOnly endpointDown AiFailed 100).2
    = Some (PublishDiagnosis EventBus.CHANNELS.REPAIR_REQUEST
              (AlertManager.alert_id endpointDown) (ruleDiagnose endpointDown 100)).
Proof.
  edestruct (rules_repair_four_types joinHash rulesOnly endpointDown AiFailed 100)
    as [Hiff Hlast];
    [ reflexivity | reflexivity | apply not_elem_of_empty
    | by apply (bool_decide_unpack _) | reflexivity
    | by apply (bool_decide_unpack _) | ].
  assert (Hin : AlertManager.alert_type endpointDown ∈ repairedByRules)
    by (by apply (bool_decide_unpack _)).
  split; [by apply Hiff | by apply Hlast].
Defined.

End DiagnosticRunsFacts.

Module RepairAgentFacts.
Import Config RepairAgent.

Lemma bind_fixing {A B} (m : Run A) (f : A → Run B) :
  Forall fixing m.1 → (∀ a, Forall fixing (f a).1) → Forall fixing (bind m f).1.
Proof.
  intros Hm Hf. destruct m as [effects [a|message]]; simpl; [|done].
  specialize (Hf a). destruct (f a) as [more r]. simpl in *.
  by apply Forall_app.
Qed.

Lemma caught_effects (m : Run Result) : (caught m).1 = m.1.
Proof. by destruct m as [effects [result|message]]. Qed.

Section WithServices.
Variable sv : Services.

Lemma clear_fixing pattern : Forall fixing (clear sv pattern).1.
Proof.
  unfold clear. apply bind_fixing; [by apply Forall_singleton|].
  intros found. case_bool_decide; [|done].
  apply bind_fixing; [by apply Forall_singleton|done].
Qed.

Lemma applyFix_fixing ag request : Forall fixing (applyFix sv ag request).1.
Proof.
  unfold applyFix.
  repeat case_bool_decide; try done.
  - unfold fixDatabaseIndex. destruct (negb _); [done|].
    rewrite caught_effects. apply bind_fixing; [by apply Forall_singleton|done].
  - unfold fixServiceRestart. by destruct (railway sv).
  - unfold fixCacheClear. destruct (negb _); [done|].
    rewrite caught_effects. apply bind_fixing; [apply clear_fixing|].
    intros _. apply bind_fixing; [|done].
    case_bool_decide; [apply clear_fixing|done].
  - unfold fixMemoryCleanup. rewrite caught_effects.
    apply bind_fixing; [destruct (gc sv); [by apply Forall_singleton|done]|].
    intros _. apply bind_fixing; [|done].
    destruct (hasRedis ag); [apply clear_fixing|done].
  - unfold fixRateLimit. destruct (negb _); [done|].
    rewrite caught_effects. apply bind_fixing; [by apply Forall_singleton|done].
Qed.

Lemma fixing_no_rollback effects :
  Forall fixing effects → existsb rollsBack effects = false.
Proof.
  induction 1 as [|e effects He _ IH]; [done|].
  simpl. rewrite IH. by destruct e.
Qed.

(** What [executeRepair] does, given what the fix function did. *)
Lemma executeRepair_unfold ag request planId repairId now later :
  executeRepair sv ag request planId repairId now later
  = let result := (applyFix sv ag request).2 in
    let result' :=
      if success result then
        {| success := true; action := action result; reason := reason result;
           verified := Some true |}
      else result in
    ((logRepair ag (req_alertId request) (req_diagnosis request) result'
        (later - now) repairId later).1.1,
     (applyFix sv ag request).1
     ++ (if success result then [Slept 2000] else [])
     ++ (logRepair ag (req_alertId request) (req_diagnosis request) result'
           (later - now) repairId later).1.2,
     result').
Proof.
  unfold executeRepair. destruct (applyFix sv ag request) as [fixing' result].
  cbn [fst snd]. destruct (success result) eqn:Hs; cbn [verifyFix negb].
  - by destruct (logRepair _ _ _ _ _ _ _) as [[? ?] ?].
  - by destruct (logRepair _ _ _ _ _ _ _) as [[? ?] ?].
Qed.

Lemma logRepair_fields ag alertId diagnosis result duration repairId now :
  let out := logRepair ag alertId diagnosis result duration repairId now in
  running out.1.1 = running ag
  ∧ hasDb out.1.1 = hasDb ag
  ∧ hasRedis out.1.1 = hasRedis ag
  ∧ activeRepairs out.1.1 = activeRepairs ag
  ∧ ((length (repairHistory ag) ≤ 1000)%nat →
     (length (repairHistory out.1.1) ≤ 1000)%nat)
  ∧ Forall fixing out.1.2.
Proof.
  unfold logRepair. cbn [fst snd running hasDb hasRedis activeRepairs repairHistory].
  split_and!; try done.
  - intros Hlen. case_bool_decide as Hlong.
    + rewrite length_drop, length_app. simpl. lia.
    + lia.
  - destruct (hasDb ag); [by apply Forall_singleton|done].
Qed.

Lemma existsb_Forall_false {A} (f : A → bool) l :
  Forall (λ x, f x = false) l → existsb f l = false.
Proof. induction 1 as [|x l Hx _ IH]; [done|]. simpl. by rewrite Hx, IH. Qed.

(** The outcome of a request that passes the three guards. *)
Lemma handleRepairRequest_repairing ag am request planId repairId now later :
  running ag = true →
  activeRepairs ag !! req_alertId request = None →
  DiagnosticAgent.fixType (req_diagnosis request) ∈ allowedFixes →
  handleRepairRequest sv ag am request planId repairId now later
  = let repairing :=
      set_active ag
        (<[req_alertId request := (req_diagnosis request, now)]> (activeRepairs ag)) in
    let out := executeRepair sv repairing request planId repairId now later in
    let resolved :=
      AlertManager.resolve am (req_alertId request)
        {| AlertManager.opt_autoResolved := Some true;
           AlertManager.opt_resolution :=
             Some ("Auto-fixed: "
                   +:+ DiagnosticAgent.fixType (req_diagnosis request)) |} later in
    (set_active out.1.1 (delete (req_alertId request) (activeRepairs out.1.1)),
     (if success out.2 then resolved.1 else am),
     out.1.2 ++ [PublishedComplete (req_alertId request) (req_diagnosis request) out.2]
     ++ (if success out.2 then
           match resolved.2 with
           | Js.Ok _ => []
           | Js.Throw message => [PublishedError message (req_alertId request)]
           end
         else [])).
Proof.
  intros Hrun Hfree Hallowed. unfold handleRepairRequest.
  rewrite Hrun. cbn [negb].
  rewrite bool_decide_eq_false_2 by (rewrite Hfree; by intros [? ?]).
  rewrite bool_decide_eq_true_2 by done. cbn [negb].
  destruct (executeRepair sv _ request planId repairId now later) as [[ag' effects] result].
  cbn [fst snd]. destruct (success result); [|done].
  by destruct (AlertManager.resolve _ _ _ _) as [am' [?|?]].
Qed.

End WithServices.

Lemma recommendations_allowed fixType :
  fixType ∈ recommendations → fixType ∈ allowedFixes.
Proof.
  unfold recommendations, allowedFixes. intros Hin.
  repeat (apply elem_of_cons in Hin as [->|Hin]; [by apply (bool_decide_unpack _)|]).
  by apply elem_of_nil in Hin.
Qed.

Lemma applyFix_recommendation sv ag request :
  DiagnosticAgent.fixType (req_diagnosis request) ∈ recommendations →
  ∃ action, applyFix sv ag request = ([], succeeded action).
Proof.
  unfold recommendations, applyFix. intros Hin.
  repeat (apply elem_of_cons in Hin as [->|Hin];
          [cbn; unfold fixServiceRestart; destruct (railway sv); by eexists|]).
  by apply elem_of_nil in Hin.
Qed.

(** What a request for a recommendation-only fix does. *)
Lemma recommendation_outcome sv ag am request planId repairId now later alert :
  running ag = true →
  activeRepairs ag !! req_alertId request = None →
  DiagnosticAgent.fixType (req_diagnosis request) ∈ recommendations →
  AlertManager.getAlert am (req_alertId request) = Some alert →
  ∃ action,
    (handleRepairRequest sv ag am request planId repairId now later).2
    = reportOnly ag request action now later
    ∧ AlertManager.getAlert
        (handleRepairRequest sv ag am request planId repairId now later).1.2
        (req_alertId request)
      = Some (AlertManager.resolved_with true
                ("Auto-fixed: " +:+ DiagnosticAgent.fixType (req_diagnosis request))
                later alert)
    ∧ AlertManager.db
        (handleRepairRequest sv ag am request planId repairId now later).1.2
      = (λ calls,
           calls ++ [AlertManager.SystemAlertResolve (req_alertId request) true later])
        <$> AlertManager.db am.
Proof.
  intros Hrun Hfree Hrec Hstored.
  rewrite handleRepairRequest_repairing
    by (done || by apply recommendations_allowed).
  cbn zeta. rewrite executeRepair_unfold. cbn zeta.
  destruct (applyFix_recommendation sv
              (set_active ag
                 (<[req_alertId request := (req_diagnosis request, now)]>
                    (activeRepairs ag))) request Hrec) as [action' ->].
  cbn [fst snd success succeeded action reason].
  unfold AlertManager.getAlert in Hstored.
  unfold AlertManager.resolve. rewrite Hstored. cbn [fst snd default].
  exists action'. split_and!.
  - unfold logRepair, reportOnly. cbn [fst snd hasDb set_active app success action].
    by destruct (hasDb ag).
  - unfold AlertManager.getAlert. cbn.
    apply AlertManagerFacts.map_get_set_eq.
  - done.
Qed.

(** X26. Three fix types are recommendations only. For SERVICE_RESTART,
    CONNECTION_POOL_EXPAND and EMAIL_FAILOVER the agent applies no fix,
    whatever state the services are in: all it does is to pause two seconds
    for the verification, to write the entry of the repair to the repair
    history of the database when it has one, and to publish the repair as
    successful and verified; nothing goes to Redis. The stored alert is then
    resolved as auto-resolved with a resolution text naming the fix type,
    the alert manager writing that update to its own database when it has
    one. *)
Theorem recommended_fix_resolves_alert
    (sv : Services) (ag : t) (am : AlertManager.t) (request : Request)
    (planId repairId : string) (now later : Z) (alert : AlertManager.Alert) :
  running ag = true →
  activeRepairs ag !! req_alertId request = None →
  DiagnosticAgent.fixType (req_diagnosis request) ∈ recommendations →
  AlertManager.getAlert am (req_alertId request) = Some alert →
  ∃ action,
    (handleRepairRequest sv ag am request planId repairId now later).2
    = reportOnly ag request action now later
    ∧ AlertManager.getAlert
        (handleRepairRequest sv ag am request planId repairId now later).1.2
        (req_alertId request)
      = Some (AlertManager.resolved_with true
                ("Auto-fixed: " +:+ DiagnosticAgent.fixType (req_diagnosis request))
                later alert)
    ∧ AlertManager.db
        (handleRepairRequest sv ag am request planId repairId now later).1.2
      = (λ calls,
           calls ++ [AlertManager.SystemAlertResolve (req_alertId request) true later])
        <$> AlertManager.db am.
Proof. apply recommendation_outcome. Qed.

(** X27. Bookkeeping of the Repair agent. Handling a repair request leaves
    the table of active repairs as it was, keeps the repair history within
    1000 entries, never publishes a rollback, and does nothing at all unless
    the fix type is one of the allowed ones. *)
Theorem repair_bookkeeping
    (sv : Services) (ag : t) (am : AlertManager.t) (request : Request)
    (planId repairId : string) (now later : Z) :
  activeRepairs (handleRepairRequest sv ag am request planId repairId now later).1.1
  = activeRepairs ag
  ∧ ((length (repairHistory ag) ≤ 1000)%nat →
     (length (repairHistory
                (handleRepairRequest sv ag am request planId repairId now later).1.1)
      ≤ 1000)%nat)
  ∧ existsb rollsBack
      (handleRepairRequest sv ag am request planId repairId now later).2 = false
  ∧ (DiagnosticAgent.fixType (req_diagnosis request) ∉ allowedFixes →
     handleRepairRequest sv ag am request planId repairId now later = (ag, am, [])).
Proof.
  assert (Hlast : DiagnosticAgent.fixType (req_diagnosis request) ∉ allowedFixes →
                  handleRepairRequest sv ag am request planId repairId now later
                  = (ag, am, [])).
  { intros Hno. unfold handleRepairRequest.
    destruct (negb (running ag)); [done|].
    case_bool_decide; [done|].
    by rewrite bool_decide_eq_false_2. }
  destruct (running ag) eqn:Hrun;
    [|unfold handleRepairRequest; rewrite Hrun; by cbn].
  destruct (activeRepairs ag !! req_alertId request) as [active|] eqn:Hfree.
  { unfold handleRepairRequest. rewrite Hrun. cbn [negb].
    rewrite bool_decide_eq_true_2 by (by rewrite Hfree). by cbn. }
  destruct (decide (DiagnosticAgent.fixType (req_diagnosis request) ∈ allowedFixes))
    as [Hallowed|Hno]; [|by rewrite (Hlast Hno)].
  split_and!; [| | |done].
  - rewrite handleRepairRequest_repairing by done. cbn zeta.
    rewrite executeRepair_unfold. cbn zeta. cbn [fst snd activeRepairs set_active].
    set (logged := logRepair _ _ _ _ _ _ _).
    destruct (logRepair_fields
                (set_active ag
                   (<[req_alertId request := (req_diagnosis request, now)]>
                      (activeRepairs ag)))
                (req_alertId request) (req_diagnosis request)
                (if success (applyFix sv
                               (set_active ag
                                  (<[req_alertId request := (req_diagnosis request, now)]>
                                     (activeRepairs ag))) request).2
                 then {| success := true;
                         action := action (applyFix sv
                               (set_active ag
                                  (<[req_alertId request := (req_diagnosis request, now)]>
                                     (activeRepairs ag))) request).2;
                         reason := reason (applyFix sv
                               (set_active ag
                                  (<[req_alertId request := (req_diagnosis request, now)]>
                                     (activeRepairs ag))) request).2;
                         verified := Some true |}
                 else (applyFix sv
                               (set_active ag
                                  (<[req_alertId request := (req_diagnosis request, now)]>
                                     (activeRepairs ag))) request).2)
                (later - now) repairId later)
      as (_ & _ & _ & Hactive & _).
    fold logged in Hactive. rewrite Hactive. cbn [activeRepairs set_active].
    by apply delete_insert_id.
  - intros Hlen.
    rewrite handleRepairRequest_repairing by done. cbn zeta.
    rewrite executeRepair_unfold. cbn zeta. cbn [fst snd repairHistory set_active].
    by apply logRepair_fields.
  - rewrite handleRepairRequest_repairing by done. cbn zeta.
    rewrite executeRepair_unfold. cbn zeta. cbn [fst snd].
    rewrite !existsb_app.
    rewrite (fixing_no_rollback _ (applyFix_fixing sv _ request)).
    rewrite (existsb_Forall_false rollsBack
               (logRepair _ _ _ _ _ _ _).1.2).
    2:{ eapply Forall_impl; [apply logRepair_fields|].
        intros e He. by destruct e. }
    cbn [orb existsb rollsBack].
    set (result := (applyFix sv _ request).2).
    destruct (success result) eqn:Hs; cbn [existsb rollsBack orb success];
      rewrite ?Hs; [|done].
    by destruct (AlertManager.resolve _ _ _ _).2.
Qed.

Lemma downTypes_recommended alert now :
  AlertManager.alert_type alert ∈ downTypes →
  AlertManager.alert_type alert ∈ DiagnosticRuns.repairedByRules
  ∧ DiagnosticAgent.fixType (DiagnosticAgent.ruleDiagnose alert now) ∈ recommendations.
Proof.
  unfold downTypes, DiagnosticAgent.ruleDiagnose. cbn [DiagnosticAgent.fixType].
  intros Hin.
  repeat (apply elem_of_cons in Hin as [->|Hin];
          [split; by apply (bool_decide_unpack _)|]).
  by apply elem_of_nil in Hin.
Qed.

(** X28. From alert to resolution without a fix. With the rule table and
    the default threshold, an alert of type API_DOWN, DB_CONNECTION_ERROR or
    REDIS_DOWN that is diagnosed on a cache miss leads the Diagnostic agent
    to publish a repair request, and the Repair agent, handling that
    request, applies no fix: it pauses for the verification, writes the
    entry of the repair to the repair history of the database when it has
    one, and publishes the repair as successful; nothing goes to Redis. The
    stored alert is then marked as resolved and auto-resolved. *)
Theorem down_alert_resolved_without_fix
    (generateHash : string → string → string)
    (diagnostic : DiagnosticAgent.t) (repair : t) (am : AlertManager.t)
    (sv : Services) (alert : AlertManager.Alert) (ai : DiagnosticAgent.AiOutcome)
    (planId repairId : string) (now start later : Z) :
  DiagnosticAgent.running diagnostic = true →
  DiagnosticAgent.anthropic diagnostic = false →
  AlertManager.alert_id alert ∉ DiagnosticAgent.pendingDiagnoses diagnostic →
  AlertManager.alert_severity alert ∉ [INFO; LOW] →
  DiagnosticAgent.checkCache generateHash diagnostic alert now = None →
  AlertManager.alert_type alert ∈ downTypes →
  running repair = true →
  activeRepairs repair !! AlertManager.alert_id alert = None →
  AlertManager.getAlert am (AlertManager.alert_id alert) = Some alert →
  ∃ diagnosis action resolved,
    last (DiagnosticAgent.handleAlert generateHash defaults diagnostic alert ai now).2
    = Some (DiagnosticAgent.PublishDiagnosis EventBus.CHANNELS.REPAIR_REQUEST
              (AlertManager.alert_id alert) diagnosis)
    ∧ (handleRepairRequest sv repair am
         {| req_alertId := AlertManager.alert_id alert;
            req_diagnosis := diagnosis; req_component := None |}
         planId repairId start later).2
      = reportOnly repair
          {| req_alertId := AlertManager.alert_id alert;
             req_diagnosis := diagnosis; req_component := None |}
          action start later
    ∧ AlertManager.getAlert
        (handleRepairRequest sv repair am
           {| req_alertId := AlertManager.alert_id alert;
              req_diagnosis := diagnosis; req_component := None |}
           planId repairId start later).1.2 (AlertManager.alert_id alert)
      = Some resolved
    ∧ AlertManager.alert_resolved resolved = true
    ∧ AlertManager.alert_autoResolved resolved = true
    ∧ AlertManager.alert_resolvedAt resolved = Some later.
Proof.
  intros Hrun Hrules Hpend Hsev Hmiss Hdown Hrun' Hfree Hstored.
  destruct (downTypes_recommended alert now Hdown) as [Hrep Hrec].
  destruct (DiagnosticRunsFacts.rules_request generateHash diagnostic alert ai now)
    as [_ Hlast]; try done.
  destruct (recommendation_outcome sv repair am
              {| req_alertId := AlertManager.alert_id alert;
                 req_diagnosis := DiagnosticAgent.ruleDiagnose alert now;
                 req_component := None |}
              planId repairId start later alert) as (action' & Htrace & Hget & _);
    try done.
  exists (DiagnosticAgent.ruleDiagnose alert now), action'. eexists.
  split; [by apply Hlast|]. split; [exact Htrace|]. split; [exact Hget|]. done.
Qed.

Lemma recommended_fix_resolves_alert_witness :
  ∃ action,
    (handleRepairRequest unreachable connected holdingEndpointDown restartRequest
       "plan-1" "repair-1" 200 2300).2
    = reportOnly connected restartRequest action 200 2300
    ∧ AlertManager.getAlert
        (handleRepairRequest unreachable connected holdingEndpointDown restartRequest
           "plan-1" "repair-1" 200 2300).1.2 (req_alertId restartRequest)
      = Some (AlertManager.resolved_with true
                ("Auto-fixed: "
                 +:+ DiagnosticAgent.fixType (req_diagnosis restartRequest))
                2300 DiagnosticRuns.endpointDown)
    ∧ AlertManager.db
        (handleRepairRequest unreachable connected holdingEndpointDown restartRequest
           "plan-1" "repair-1" 200 2300).1.2
      = (λ calls,
           calls
           ++ [AlertManager.SystemAlertResolve (req_alertId restartRequest) true 2300])
        <$> AlertManager.db holdingEndpointDown.
Proof.
  apply (recommended_fix_resolves_alert unreachable connected holdingEndpointDown
           restartRequest "plan-1" "repair-1" 200 2300 DiagnosticRuns.endpointDown);
    first [ reflexivity | by apply (bool_decide_unpack _) ].
Defined.

Lemma down_alert_resolved_without_fix_witness :
  ∃ diagnosis action resolved,
    last (DiagnosticAgent.handleAlert DiagnosticAgent.joinHash defaults
            DiagnosticRuns.rulesOnly DiagnosticRuns.endpointDown
            DiagnosticAgent.AiFailed 100).2
    = Some (DiagnosticAgent.PublishDiagnosis EventBus.CHANNELS.REPAIR_REQUEST
              (AlertManager.alert_id DiagnosticRuns.endpointDown) diagnosis)
    ∧ (handleRepairRequest unreachable connected holdingEndpointDown
         {| req_alertId := AlertManager.alert_id DiagnosticRuns.endpointDown;
            req_diagnosis := diagnosis; req_component := None |}
         "plan-1" "repair-1" 200 2300).2
      = reportOnly connected
          {| req_alertId := AlertManager.alert_id DiagnosticRuns.endpointDown;
             req_diagnosis := diagnosis; req_component := None |}
          action 200 2300
    ∧ AlertManager.getAlert
        (handleRepairRequest unreachable connected holdingEndpointDown
           {| req_alertId := AlertManager.alert_id DiagnosticRuns.endpointDown;
              req_diagnosis := diagnosis; req_component := None |}
           "plan-1" "repair-1" 200 2300).1.2
        (AlertManager.alert_id DiagnosticRuns.endpointDown)
      = Some resolved
    ∧ AlertManager.alert_resolved resolved = true
    ∧ AlertManager.alert_autoResolved resolved = true
    ∧ AlertManager.alert_resolvedAt resolved = Some 2300.
Proof.
  apply (down_alert_resolved_without_fix DiagnosticAgent.joinHash
           DiagnosticRuns.rulesOnly connected holdingEndpointDown unreachable
           DiagnosticRuns.endpointDown DiagnosticAgent.AiFailed
           "plan-1" "repair-1" 100 200 2300);
    first [ reflexivity | apply not_elem_of_empty
          | by apply (bool_decide_unpack _) ].
Defined.

End RepairAgentFacts.

Module LearningRunsFacts.
Import Config LearningAgent LearningRuns.

Section WithHash.
Variable generateHash : Symptoms → string.
Variable cfg : Config.t.

Lemma reinforce_unblemished pattern result now :
  success result = true → unblemished pattern →
  unblemished (reinforce cfg pattern result now).
Proof.
  intros Hs [Hf Hr]. unfold unblemished, reinforce. rewrite Hs, Hf. cbn.
  split; [done|].
  rewrite N.add_0_r.
  assert (Hpos : ¬ (inject_Z (Z.of_N (successCount pattern + 1)) == 0)%Q).
  { unfold Qeq. simpl. lia. }
  by field.
Qed.

Lemma firstSeen_unblemished hash diagnosis result newId now :
  success result = true →
  unblemished (firstSeen hash diagnosis result newId now).
Proof. intros Hs. unfold unblemished, firstSeen. rewrite Hs. by cbn. Qed.

Lemma handleRepairComplete_patterns_kept ag alertId diagnosis result newId now :
  map_Forall (λ _ pattern, unblemished pattern) (patterns ag) →
  map_Forall (λ _ pattern, unblemished pattern)
    (patterns (handleRepairComplete generateHash cfg ag alertId diagnosis result
                 newId now))
  ∧ dom (patterns ag)
    ⊆ dom (patterns (handleRepairComplete generateHash cfg ag alertId diagnosis
                       result newId now))
  ∧ running (handleRepairComplete generateHash cfg ag alertId diagnosis result
               newId now) = running ag
  ∧ ∃ more,
      learningQueue (handleRepairComplete generateHash cfg ag alertId diagnosis
                       result newId now) = learningQueue ag ++ more
      ∧ length more = if running ag then 1%nat else 0%nat.
Proof.
  intros Hall. unfold handleRepairComplete.
  destruct (running ag) eqn:Hrun; cbn [negb].
  2:{ split_and!; [done|done|done|]. exists []. by rewrite app_nil_r. }
  destruct (success result) eqn:Hs.
  2:{ cbn. split_and!; [done|done|done|]. by eexists. }
  unfold learnFromRepair. cbn [fst patterns running learningQueue].
  split_and!; [| |done|by eexists].
  - apply map_Forall_insert_2; [|done].
    destruct (patterns ag !! _) as [pattern|] eqn:Hl.
    + apply reinforce_unblemished; [done|]. by apply (Hall _ _ Hl).
    + by apply firstSeen_unblemished.
  - rewrite dom_insert. set_solver.
Qed.

Lemma consolidatePatterns_id ag now :
  map_Forall (λ _ pattern, unblemished pattern) (patterns ag) →
  consolidatePatterns cfg ag now = ag.
Proof.
  intros Hall. unfold consolidatePatterns.
  rewrite map_filter_id; [by destruct ag|].
  intros hash pattern Hl. cbn. unfold prunable.
  destruct (Hall _ _ Hl) as [_ Hr].
  assert (Hhalf : Qle_bool (1 # 2) (successRate pattern) = true).
  { apply Qle_bool_iff. rewrite Hr. done. }
  rewrite Hhalf. apply andb_false_r.
Qed.

(** X29. The Learning agent never records a failure and never forgets.
    When no pattern of the agent records a failure, then after any sequence
    of repair-complete events and consolidations every pattern still has a
    failure count of 0 and a success rate of 1, each consolidation leaves
    the agent as it is, no pattern was removed, and the learning queue has
    grown by one entry per event handled while running. *)
Theorem failures_never_recorded (ag : t) (ops : list Op) :
  map_Forall (λ _ pattern, unblemished pattern) (patterns ag) →
  map_Forall (λ _ pattern, unblemished pattern)
    (patterns (run generateHash cfg ag ops))
  ∧ dom (patterns ag) ⊆ dom (patterns (run generateHash cfg ag ops))
  ∧ (∀ now, consolidatePatterns cfg (run generateHash cfg ag ops) now
            = run generateHash cfg ag ops)
  ∧ ∃ more,
      learningQueue (run generateHash cfg ag ops) = learningQueue ag ++ more
      ∧ length more
        = if running ag then length (filter (λ op, isCompleted op = true) ops)
          else 0%nat.
Proof.
  intros Hall.
  assert (Hinv : map_Forall (λ _ pattern, unblemished pattern)
                   (patterns (run generateHash cfg ag ops))
                 ∧ dom (patterns ag) ⊆ dom (patterns (run generateHash cfg ag ops))
                 ∧ running (run generateHash cfg ag ops) = running ag
                 ∧ ∃ more,
                     learningQueue (run generateHash cfg ag ops)
                     = learningQueue ag ++ more
                     ∧ length more
                       = if running ag
                         then length (filter (λ op, isCompleted op = true) ops)
                         else 0%nat).
  { induction ops as [|op ops IH] using rev_ind.
    - split_and!; [done|done|done|]. exists []. rewrite app_nil_r.
      by destruct (running ag).
    - destruct IH as (IH1 & IH2 & IH3 & more & IH4 & IH5).
      unfold run in *. rewrite foldl_app. cbn [foldl].
      set (ag' := foldl (step generateHash cfg) ag ops) in *.
      rewrite filter_app, length_app.
      destruct op as [alertId diagnosis result newId now|now]; cbn [step].
      + destruct (handleRepairComplete_patterns_kept ag' alertId diagnosis result
                    newId now IH1) as (H1 & H2 & H3 & more' & H4 & H5).
        split_and!; [done|set_solver|congruence|].
        exists (more ++ more'). rewrite H4, IH4, app_assoc. split; [done|].
        rewrite length_app, IH5, H5, IH3.
        destruct (running ag); [|done].
        by rewrite filter_cons_True.
      + rewrite consolidatePatterns_id by done.
        split_and!; [done|done|done|].
        exists more. split; [done|]. rewrite IH5.
        destruct (running ag); [|done].
        rewrite filter_cons_False by done. simpl. lia. }
  destruct Hinv as (H1 & H2 & _ & H4).
  split_and!; [done|done| |done].
  intros now. by apply consolidatePatterns_id.
Qed.

End WithHash.

Lemma failures_never_recorded_witness :
  map_Forall (λ _ pattern, unblemished pattern)
    (patterns (run joinHash defaults fresh aYear))
  ∧ dom (patterns fresh) ⊆ dom (patterns (run joinHash defaults fresh aYear))
  ∧ (∀ now, consolidatePatterns defaults (run joinHash defaults fresh aYear) now
            = run joinHash defaults fresh aYear)
  ∧ ∃ more,
      learningQueue (run joinHash defaults fresh aYear) = learningQueue fresh ++ more
      ∧ length more
        = if running fresh then length (filter (λ op, isCompleted op = true) aYear)
          else 0%nat.
Proof.
  apply (failures_never_recorded joinHash defaults fresh aYear).
  apply map_Forall_empty.
Defined.

End LearningRunsFacts.

Module RateLimiterRunsFacts.
Import RateLimiter RateLimiterRuns.

Lemma recent_length windowStart times :
  (length (recent windowStart times) ≤ length times)%nat.
Proof. unfold recent. apply length_filter. Qed.

Lemma callsAt_granted rl key times :
  Z.of_nat (length (stored rl key)) + Z.of_nat (length times) ≤ maxRequests rl →
  grants rl (callsAt key times) key = times.
Proof.
  revert rl. induction times as [|now times IH]; intros rl Hroom; [done|].
  cbn [callsAt fmap list_fmap grants]. fold (callsAt key times).
  rewrite bool_decide_eq_true_2 by done. cbn [andb step].
  pose proof (recent_length (now - windowMs rl) (stored rl key)) as Hlen.
  unfold isAllowed. fold (stored rl key).
  cbn [length] in Hroom.
  rewrite bool_decide_eq_false_2 by lia.
  cbn [fst snd app]. f_equal. apply IH.
  unfold stored at 1. cbn [requests maxRequests].
  rewrite lookup_insert_eq. cbn [default from_option id].
  rewrite length_app. cbn [length]. lia.
Qed.

(** X30. [reset(key)] gives a key its full quota back and touches nothing
    else: whatever the limiter has recorded, after the reset the next calls
    for the key are all granted, as long as there are no more of them than
    [maxRequests], at whatever times they come; and the timestamps stored
    for every other key are as before. *)
Theorem reset_restores_quota (rl : t) (key : string) (times : list Z) :
  Z.of_nat (length times) ≤ maxRequests rl →
  grants (reset rl key) (callsAt key times) key = times
  ∧ stored (reset rl key) key = []
  ∧ ∀ other, other ≠ key → stored (reset rl key) other = stored rl other.
Proof.
  intros Hroom.
  assert (Hempty : stored (reset rl key) key = []).
  { unfold stored, reset. cbn [requests]. by rewrite lookup_delete_eq. }
  split_and!; [|done|].
  - apply callsAt_granted. rewrite Hempty. cbn [length maxRequests reset]. lia.
  - intros other Hne. unfold stored, reset. cbn [requests].
    by rewrite lookup_delete_ne.
Qed.

Lemma reset_restores_quota_witness :
  (isAllowed exhausted "10.0.0.1" 3).1 = false
  ∧ grants (reset exhausted "10.0.0.1") (callsAt "10.0.0.1" [3; 4; 5]) "10.0.0.1"
    = [3; 4; 5]
  ∧ stored (reset exhausted "10.0.0.1") "10.0.0.1" = [].
Proof.
  split; [reflexivity|].
  destruct (reset_restores_quota exhausted "10.0.0.1" [3; 4; 5]) as (Hg & He & _);
    [by vm_compute|].
  split; [exact Hg | exact He].
Defined.

End RateLimiterRunsFacts.
